(** * DarwinFi: the genome operators and the evolution engine

    A shallow embedding of [src/agents/models/agent.py] and
    [src/agents/evolution.py].

    Conventions of the embedding.
    - A Python [int] is a [Z].  A Python [float] is the rational number it
      denotes ([Q]); the rounding of the results of float arithmetic, NaN
      and the infinities are outside the model.  An [int] that is turned
      into a float is rounded as binary64 rounds it (to nearest, ties to
      even), and raises OverflowError beyond the range of floats; where the
      code takes an integer out of a float product, in
      [int(abs(n) * 0.1)], the product is rounded in the same way.
    - A [dict] keyed by strings is a [gmap string _], iterated in the order
      of the map; a Python object whose attributes are fixed by its class
      is a record.  Objects are values: no two slots of a population share
      an agent, and no two agents share a parameter dict.
    - The attribute [fitness] is never created by [Agent.__init__]; the
      engine reads and assigns it dynamically.  It is modelled by the field
      [fitness : attr], which records whether the attribute exists at all.
    - The fitness function is a total function from agents to floats.
    - [random] and [uuid.uuid4] read two independent sources of the [World];
      every statement quantifies over all sources.
    - Exceptions are values of [exn]; a computation returns its result
      together with the state reached, also when it raises.
    - Logging has no effect and is left out, except where building the log
      line can raise.  Wall-clock readings and the numpy statistics
      ([np.std], [np.median]) are left out, and with them
      [get_diversity_metrics] and [Agent.evaluate], which no property
      below reads. *)

From Stdlib Require Import ZArith QArith Qabs Qround Lia Lqa Sorted Ascii.
From stdpp Require Import base option list gmap strings sorting.

Local Open Scope Z_scope.

(** ** Exceptions and the state-and-exception monad *)

Inductive exn : Type :=
| ValueError (msg : string)
| AttributeError (name : string)
| TypeError (msg : string)
| KeyError (key : string)
| OverflowError (msg : string)
| OutOfFuel.

Inductive result (A : Type) : Type :=
| Ok (a : A)
| Raise (e : exn).
Arguments Ok {A} a.
Arguments Raise {A} e.

Definition M (S A : Type) : Type := S -> result A * S.

Definition ret {S A} (a : A) : M S A := fun s => (Ok a, s).

Definition raise {S A} (e : exn) : M S A := fun s => (Raise e, s).

Definition bind {S A B} (m : M S A) (k : A -> M S B) : M S B :=
  fun s =>
    match m s with
    | (Ok a, s') => k a s'
    | (Raise e, s') => (Raise e, s')
    end.

Declare Scope py_scope.
Delimit Scope py_scope with py.
Notation "x <- m ;; k" := (bind m (fun x => k))
  (at level 100, m at next level, right associativity) : py_scope.
Notation "m ;;; k" := (bind m (fun _ => k))
  (at level 100, right associativity) : py_scope.
Local Open Scope py_scope.

(** [for x in l: acc = body(acc, x)] *)
Fixpoint for_each {S A B} (body : B -> A -> M S B) (l : list A) (acc : B)
  : M S B :=
  match l with
  | [] => ret acc
  | x :: l' => acc' <- body acc x ;; for_each body l' acc'
  end.

(** [[f(x) for x in l]] *)
Fixpoint map_each {S A B} (f : A -> M S B) (l : list A) : M S (list B) :=
  match l with
  | [] => ret []
  | x :: l' => y <- f x ;; ys <- map_each f l' ;; ret (y :: ys)
  end.

(** ** The sources of randomness *)

Record World : Type := {
  rnd : nat -> N;        (* the state of the [random] module *)
  uuids : nat -> string  (* what successive [uuid.uuid4()] calls return *)
}.

Definition draw : M World N :=
  fun w => (Ok (rnd w 0%nat),
            {| rnd := fun n => rnd w (S n); uuids := uuids w |}).

Definition uuid4 : M World string :=
  fun w => (Ok (uuids w 0%nat),
            {| rnd := rnd w; uuids := fun n => uuids w (S n) |}).

Definition Qltb (x y : Q) : bool := negb (Qle_bool y x).

(** [random.random()]: a multiple of 2^-53 in [0, 1). *)
Definition random_random : M World Q :=
  k <- draw ;; ret (Z.of_N (k mod 9007199254740992) # 9007199254740992).

(** [random.randint(a, b)]: an integer [n] with [a <= n <= b]. *)
Definition random_randint (a b : Z) : M World Z :=
  if b <? a then raise (ValueError "empty range for randrange()")
  else k <- draw ;; ret (a + Z.of_N k mod (b - a + 1)).

(** [random.uniform(a, b)] is [a + (b - a) * random()]. *)
Definition random_uniform (a b : Q) : M World Q :=
  r <- random_random ;; ret (a + (b - a) * r)%Q.

(** Remove the element at position [i]. *)
Fixpoint remove_nth {A} (i : nat) (l : list A) : list A :=
  match l, i with
  | [], _ => []
  | _ :: l', O => l'
  | x :: l', S i' => x :: remove_nth i' l'
  end.

Fixpoint sample_from {A} (k : nat) (pool : list A) : M World (list A) :=
  match k with
  | O => ret []
  | S k' =>
      match pool with
      | [] => ret []
      | x0 :: _ =>
          r <- draw ;;
          let j := (N.to_nat r mod length pool)%nat in
          rest <- sample_from k' (remove_nth j pool) ;;
          ret (nth j pool x0 :: rest)
      end
  end.

(** [random.sample(population, k)]: [k] elements at distinct positions. *)
Definition random_sample {A} (population : list A) (k : Z) : M World (list A) :=
  if (k <? 0) || (Z.of_nat (length population) <? k)
  then raise (ValueError "Sample larger than population or is negative")
  else sample_from (Z.to_nat k) population.

(** A computation on the world, run where the state has more in it. *)
Definition on_world {S A} (m : M World A) : M (S * World) A :=
  fun '(s, w) => let '(r, w') := m w in (r, (s, w')).

(** ** Binary floating point, where an integer comes out of it *)

(** [m * 2^e], for [m >= 0], rounded to 53 significant bits, to nearest
    and to even on a tie: the significand and the exponent of the double. *)
Definition round53 (m e : Z) : Z * Z :=
  let l := Z.log2 m in
  if l <=? 52 then (m, e)
  else
    let s := l - 52 in
    let q := m / 2 ^ s in
    let r := m mod 2 ^ s in
    let half := 2 ^ (s - 1) in
    if ((half <? r) || ((r =? half) && Z.odd q))%bool then (q + 1, e + s)
    else (q, e + s).

(** [float(n)] for an [int]: the value of the double, an integer; [None]
    when the double would be 2^1024 or more, where Python raises. *)
Definition float_of_int (n : Z) : option Z :=
  let '(m, e) := round53 (Z.abs n) 0 in
  let x := m * 2 ^ e in
  if 2 ^ 1024 <=? x then None else Some (Z.sgn n * x).

(** The float literal [0.1] is the double [tenth * 2^-55]. *)
Definition tenth : Z := 3602879701896397.

(** [int(x * 0.1)] for a float [x >= 0] of integer value: the product is
    rounded to a double, and [int] truncates it. *)
Definition int_of_tenth (x : Z) : Z :=
  let '(m, e) := round53 (x * tenth) (-55) in Z.shiftl m e.

(** An [int] turned into a float, as the operand of a float operation. *)
Definition py_float {S} (n : Z) : M S Z :=
  match float_of_int n with
  | None => raise (OverflowError "int too large to convert to float")
  | Some x => ret x
  end.

(** ** agent.py: the genome *)

(** A strategy parameter: [bool], [int], [float], or a value of another
    type ([str]), which [mutate] leaves alone. *)
Inductive Param : Type :=
| PBool (b : bool)
| PInt (n : Z)
| PFloat (x : Q)
| PStr (s : string).

(** The dynamic attribute [fitness] of an agent object. *)
Inductive attr : Type :=
| Absent            (* no such attribute: reading it raises AttributeError *)
| PyNone            (* the attribute holds [None] *)
| Value (f : Q).    (* the attribute holds a float *)

Record Agent : Type := {
  id : string;
  strategy_params : gmap string Param;
  generation : Z;
  parent_ids : list string;
  metrics : gmap string Param;
  fitness_score : Q;
  mutation_rate : Q;
  is_elite : bool;
  creation_timestamp : option Q;
  last_evaluation_timestamp : option Q;
  active : bool;
  fitness : attr
}.

Definition default_metrics : gmap string Param :=
  <["total_return" := PFloat 0]>
  (<["sharpe_ratio" := PFloat 0]>
  (<["max_drawdown" := PFloat 0]>
  (<["win_rate" := PFloat 0]>
  (<["avg_profit_loss" := PFloat 0]>
  (<["trades_executed" := PInt 0]> ∅))))).

(** [Agent.__init__] *)
Definition Agent_init (strategy_params : gmap string Param) (generation : Z)
    (parent_ids : option (list string)) : M World Agent :=
  new_id <- uuid4 ;;
  ret {| id := new_id;
         strategy_params := strategy_params;
         generation := generation;
         parent_ids := match parent_ids with
                       | Some ((_ :: _) as l) => l
                       | _ => []
                       end;
         metrics := default_metrics;
         fitness_score := 0;
         mutation_rate := 0.05;
         is_elite := false;
         creation_timestamp := None;
         last_evaluation_timestamp := None;
         active := true;
         fitness := Absent |}.

Definition set_strategy_params (a : Agent) (p : gmap string Param) : Agent :=
  {| id := id a; strategy_params := p; generation := generation a;
     parent_ids := parent_ids a; metrics := metrics a;
     fitness_score := fitness_score a; mutation_rate := mutation_rate a;
     is_elite := is_elite a; creation_timestamp := creation_timestamp a;
     last_evaluation_timestamp := last_evaluation_timestamp a;
     active := active a; fitness := fitness a |}.

Definition set_id (a : Agent) (i : string) : Agent :=
  {| id := i; strategy_params := strategy_params a; generation := generation a;
     parent_ids := parent_ids a; metrics := metrics a;
     fitness_score := fitness_score a; mutation_rate := mutation_rate a;
     is_elite := is_elite a; creation_timestamp := creation_timestamp a;
     last_evaluation_timestamp := last_evaluation_timestamp a;
     active := active a; fitness := fitness a |}.

Definition set_mutation_rate (a : Agent) (r : Q) : Agent :=
  {| id := id a; strategy_params := strategy_params a;
     generation := generation a;
     parent_ids := parent_ids a; metrics := metrics a;
     fitness_score := fitness_score a; mutation_rate := r;
     is_elite := is_elite a; creation_timestamp := creation_timestamp a;
     last_evaluation_timestamp := last_evaluation_timestamp a;
     active := active a; fitness := fitness a |}.

Definition set_fitness (a : Agent) (f : attr) : Agent :=
  {| id := id a; strategy_params := strategy_params a;
     generation := generation a;
     parent_ids := parent_ids a; metrics := metrics a;
     fitness_score := fitness_score a; mutation_rate := mutation_rate a;
     is_elite := is_elite a; creation_timestamp := creation_timestamp a;
     last_evaluation_timestamp := last_evaluation_timestamp a;
     active := active a; fitness := f |}.

(** The keys of a dict, in the order the dict is iterated. *)
Definition keys (d : gmap string Param) : list string := (map_to_list d).*1.

(** [self.strategy_params[key] = v]; the state is the dict and the world. *)
Definition set_item (key : string) (v : Param)
  : M (gmap string Param * World) unit :=
  fun '(p, w) => (Ok tt, (<[key := v]> p, w)).

(** The body of the loop of [mutate], for one key; the state is the dict
    [self.strategy_params] and the world. *)
Definition mutate_key (rate : Q) (key : string)
  : M (gmap string Param * World) unit :=
  r <- on_world random_random ;;
  if Qltb r rate then
    params <- (fun s => (Ok (fst s), s)) ;;
    match params !! key with
    | None => raise (KeyError key)
    | Some (PBool b) => set_item key (PBool (negb b))
    | Some (PInt n) =>
        x <- py_float (Z.abs n) ;;
        let adjustment := Z.max 1 (int_of_tenth x) in
        d <- on_world (random_randint (- adjustment) adjustment) ;;
        set_item key (PInt (n + d))
    | Some (PFloat x) =>
        let adjustment := (Qabs x * 0.1)%Q in
        d <- on_world (random_uniform (- adjustment) adjustment) ;;
        set_item key (PFloat (x + d))
    | Some (PStr _) => ret tt
    end
  else ret tt.

(** [Agent.mutate]; the state is the receiver and the world.  The receiver
    keeps what the loop has stored, also when the call raises. *)
Definition mutate_in_place (mutation_rate_arg : option Q)
  : M (Agent * World) unit :=
  fun '(self, w) =>
    let rate := match mutation_rate_arg with
                | Some r => r
                | None => mutation_rate self
                end in
    let '(r, (params, w')) :=
      for_each (fun _ key => mutate_key rate key)
               (keys (strategy_params self)) tt (strategy_params self, w) in
    (r, (set_strategy_params self params, w')).

(** [self.mutate(rate)] for a caller that holds the agent: the agent as the
    call leaves it, when the call returns. *)
Definition mutate (self : Agent) (mutation_rate_arg : option Q)
  : M World Agent :=
  fun w =>
    let '(r, (self', w')) := mutate_in_place mutation_rate_arg (self, w) in
    (match r with
     | Ok _ => Ok self'
     | Raise x => Raise x
     end, w').

(** The body of the loop of [crossover], for one key. *)
Definition crossover_key (agent1 agent2 : Agent)
    (new_params : gmap string Param) (key : string)
  : M World (gmap string Param) :=
  match strategy_params agent1 !! key, strategy_params agent2 !! key with
  | Some v1, Some v2 =>
      r <- random_random ;;
      if Qltb r 0.5 then ret (<[key := v1]> new_params)
      else ret (<[key := v2]> new_params)
  | Some v1, None => ret (<[key := v1]> new_params)
  | None, Some v2 => ret (<[key := v2]> new_params)
  | None, None => raise (KeyError key)
  end.

(** [Agent.crossover(agent1, agent2)] *)
Definition crossover (agent1 agent2 : Agent) : M World Agent :=
  let all_keys : gset string :=
    dom (strategy_params agent1) ∪ dom (strategy_params agent2) in
  new_params <- for_each (crossover_key agent1 agent2) (elements all_keys) ∅ ;;
  child <- Agent_init new_params
             (Z.max (generation agent1) (generation agent2) + 1)
             (Some [id agent1; id agent2]) ;;
  ret (set_mutation_rate child
         ((mutation_rate agent1 + mutation_rate agent2) / 2)%Q).

(** [Agent.clone]: a deep copy under a new identifier. *)
Definition clone (self : Agent) : M World Agent :=
  new_id <- uuid4 ;;
  ret (set_id self new_id).

(** The dict built by [to_dict] and read by [from_dict]. *)
Record AgentDict : Type := {
  d_id : string;
  d_generation : Z;
  d_parent_ids : list string;
  d_strategy_params : gmap string Param;
  d_metrics : gmap string Param;
  d_fitness_score : Q;
  d_mutation_rate : Q;
  d_is_elite : bool;
  d_active : bool
}.

Definition to_dict (self : Agent) : AgentDict :=
  {| d_id := id self;
     d_generation := generation self;
     d_parent_ids := parent_ids self;
     d_strategy_params := strategy_params self;
     d_metrics := metrics self;
     d_fitness_score := fitness_score self;
     d_mutation_rate := mutation_rate self;
     d_is_elite := is_elite self;
     d_active := active self |}.

Definition from_dict (data : AgentDict) : M World Agent :=
  agent <- Agent_init (d_strategy_params data) (d_generation data)
             (Some (d_parent_ids data)) ;;
  ret {| id := d_id data;
         strategy_params := strategy_params agent;
         generation := generation agent;
         parent_ids := parent_ids agent;
         metrics := d_metrics data;
         fitness_score := d_fitness_score data;
         mutation_rate := d_mutation_rate data;
         is_elite := d_is_elite data;
         creation_timestamp := creation_timestamp agent;
         last_evaluation_timestamp := last_evaluation_timestamp agent;
         active := d_active data;
         fitness := fitness agent |}.

(** ** evolution.py: the history ledger *)

(** One entry of [generation_stats].  The entries [timestamp],
    [elapsed_time] (wall-clock readings) and [diversity_metric] (a square
    root computed by numpy) are left out of the record. *)
Record Stats : Type := {
  st_generation : Z;
  st_best_fitness : Q;
  st_average_fitness : Q;
  st_population_size : Z
}.

Record EvolutionHistory : Type := {
  generation_stats : list Stats;
  best_agent_history : list Agent
}.

Definition EvolutionHistory_init : EvolutionHistory :=
  {| generation_stats := []; best_agent_history := [] |}.

(** Reading [x.fitness]. *)
Definition get_fitness {S} (x : Agent) : M S attr :=
  match fitness x with
  | Absent => raise (AttributeError "fitness")
  | v => ret v
  end.

(** [a > b] on two values read from [fitness]: floats compare, [None]
    does not. *)
Definition py_gt {S} (a b : attr) : M S bool :=
  match a, b with
  | Value x, Value y => ret (Qltb y x)
  | _, _ => raise (TypeError "'>' not supported between instances")
  end.

Fixpoint max_loop {S} (items : list Agent) (maxitem : Agent) (maxval : attr)
  : M S Agent :=
  match items with
  | [] => ret maxitem
  | item :: rest =>
      val <- get_fitness item ;;
      gt <- py_gt val maxval ;;
      if gt then max_loop rest item val else max_loop rest maxitem maxval
  end.

(** [max(l, key=lambda x: x.fitness)]: the first element of greatest key. *)
Definition max_by_fitness {S} (l : list Agent) : M S Agent :=
  match l with
  | [] => raise (ValueError "max() arg is an empty sequence")
  | item :: rest => val <- get_fitness item ;; max_loop rest item val
  end.

(** [EvolutionHistory.add_generation] *)
Definition add_generation (generation : Z) (population : list Agent)
    (best_fitness avg_fitness : Q) : M (EvolutionHistory * World) unit :=
  let stats := {| st_generation := generation;
                  st_best_fitness := best_fitness;
                  st_average_fitness := avg_fitness;
                  st_population_size := Z.of_nat (length population) |} in
  (fun '(h, w) =>
     (Ok tt, ({| generation_stats := generation_stats h ++ [stats];
                 best_agent_history := best_agent_history h |}, w))) ;;;
  best_agent <- max_by_fitness population ;;
  c <- on_world (clone best_agent) ;;
  fun '(h, w) =>
    (Ok tt, ({| generation_stats := generation_stats h;
                best_agent_history := best_agent_history h ++ [c] |}, w)).

(** [EvolutionHistory.get_last_generation_stats]; [None] is the empty dict. *)
Definition get_last_generation_stats (self : EvolutionHistory) : option Stats :=
  last (generation_stats self).

(** [EvolutionHistory.get_best_agent_ever] *)
Definition get_best_agent_ever {S} (self : EvolutionHistory)
  : M S (option Agent) :=
  match best_agent_history self with
  | [] => ret None
  | l => a <- max_by_fitness l ;; ret (Some a)
  end.

(** ** evolution.py: the engine *)

Record EvolutionEngine : Type := {
  population_size : Z;
  tournament_size : Z;
  crossover_rate : Q;
  e_mutation_rate : Q;
  elitism_count : Z;
  fitness_function : option (Agent -> Q);
  population : list Agent;
  history : EvolutionHistory;
  current_generation : Z
}.

(** [EvolutionEngine.__init__]: the arguments are stored as they come. *)
Definition EvolutionEngine_init (population_size tournament_size : Z)
    (crossover_rate mutation_rate : Q) (elitism_count : Z)
    (fitness_function : option (Agent -> Q)) : M World EvolutionEngine :=
  ret {| population_size := population_size;
         tournament_size := tournament_size;
         crossover_rate := crossover_rate;
         e_mutation_rate := mutation_rate;
         elitism_count := elitism_count;
         fitness_function := fitness_function;
         population := [];
         history := EvolutionHistory_init;
         current_generation := 0 |}.

Definition set_population (e : EvolutionEngine) (p : list Agent)
  : EvolutionEngine :=
  {| population_size := population_size e;
     tournament_size := tournament_size e;
     crossover_rate := crossover_rate e;
     e_mutation_rate := e_mutation_rate e;
     elitism_count := elitism_count e;
     fitness_function := fitness_function e;
     population := p;
     history := history e;
     current_generation := current_generation e |}.

Definition set_history (e : EvolutionEngine) (h : EvolutionHistory)
  : EvolutionEngine :=
  {| population_size := population_size e;
     tournament_size := tournament_size e;
     crossover_rate := crossover_rate e;
     e_mutation_rate := e_mutation_rate e;
     elitism_count := elitism_count e;
     fitness_function := fitness_function e;
     population := population e;
     history := h;
     current_generation := current_generation e |}.

Definition set_current_generation (e : EvolutionEngine) (g : Z)
  : EvolutionEngine :=
  {| population_size := population_size e;
     tournament_size := tournament_size e;
     crossover_rate := crossover_rate e;
     e_mutation_rate := e_mutation_rate e;
     elitism_count := elitism_count e;
     fitness_function := fitness_function e;
     population := population e;
     history := history e;
     current_generation := g |}.

(** The state an engine method runs in: the engine object and the world. *)
Definition St : Type := EvolutionEngine * World.

Definition get_self : M St EvolutionEngine := fun '(e, w) => (Ok e, (e, w)).

Definition update_self (f : EvolutionEngine -> EvolutionEngine) : M St unit :=
  fun '(e, w) => (Ok tt, (f e, w)).

Definition on_history {A} (m : M (EvolutionHistory * World) A) : M St A :=
  fun '(e, w) =>
    let '(r, (h', w')) := m (history e, w) in (r, (set_history e h', w')).

(** [range(n)] run as a loop that collects the results of [body]. *)
Fixpoint repeat_each {S A} (n : nat) (body : M S A) : M S (list A) :=
  match n with
  | O => ret []
  | S n' => x <- body ;; xs <- repeat_each n' body ;; ret (x :: xs)
  end.

(** [EvolutionEngine.initialize_population] *)
Definition initialize_population (agent_factory : M World Agent) : M St unit :=
  self <- get_self ;;
  p <- on_world (repeat_each (Z.to_nat (population_size self)) agent_factory) ;;
  update_self (fun e => set_population e p) ;;;
  update_self (fun e => set_current_generation e 0) ;;;
  update_self (fun e => set_history e EvolutionHistory_init).

(** The loop of [evaluate_population]: the agents are updated in place, so
    the list is returned as the loop leaves it, also when an access raises. *)
Fixpoint evaluate_agents (f : Agent -> Q) (l : list Agent)
  : result unit * list Agent :=
  match l with
  | [] => (Ok tt, [])
  | agent :: l' =>
      match fitness agent with
      | Absent => (Raise (AttributeError "fitness"), agent :: l')
      | PyNone =>
          let '(r, l'') := evaluate_agents f l' in
          (r, set_fitness agent (Value (f agent)) :: l'')
      | Value _ =>
          let '(r, l'') := evaluate_agents f l' in (r, agent :: l'')
      end
  end.

(** [EvolutionEngine.evaluate_population].  The log line applies [np.max]
    to the list of fitness values, which raises on an empty list. *)
Definition evaluate_population : M St unit :=
  self <- get_self ;;
  match fitness_function self with
  | None => raise (ValueError "Fitness function is not defined")
  | Some f =>
      let '(r, p) := evaluate_agents f (population self) in
      update_self (fun e => set_population e p) ;;;
      match r with
      | Raise e => raise e
      | Ok _ =>
          match p with
          | [] => raise (ValueError "zero-size array to reduction operation")
          | _ => ret tt
          end
      end
  end.

(** [EvolutionEngine.tournament_selection] *)
Definition tournament_selection : M St Agent :=
  self <- get_self ;;
  tournament <- on_world (random_sample (population self)
                                        (tournament_size self)) ;;
  max_by_fitness tournament.

(** [l[:n]] *)
Definition slice_to {A} (l : list A) (n : Z) : list A :=
  if 0 <=? n then firstn (Z.to_nat n) l
  else firstn (Z.to_nat (Z.of_nat (length l) + n)) l.

Fixpoint insert_desc (x : Q * Agent) (l : list (Q * Agent))
  : list (Q * Agent) :=
  match l with
  | [] => [x]
  | y :: l' => if Qltb (fst x) (fst y) then y :: insert_desc x l' else x :: l
  end.

(** A stable sort by decreasing key: elements of equal key keep the order
    they had. *)
Fixpoint sort_desc (l : list (Q * Agent)) : list (Q * Agent) :=
  match l with
  | [] => []
  | x :: l' => insert_desc x (sort_desc l')
  end.

(** The float keys of a decorated list, when none of them is [None]. *)
Fixpoint float_keys (l : list (attr * Agent)) : option (list (Q * Agent)) :=
  match l with
  | [] => Some []
  | (Value k, a) :: l' =>
      match float_keys l' with
      | Some r => Some ((k, a) :: r)
      | None => None
      end
  | _ => None
  end.

(** [sorted(l, key=lambda x: x.fitness, reverse=True)]: the keys are read
    first; a list of two or more elements is then compared by key, which
    raises when a key is [None]. *)
Definition sorted_by_fitness_desc {S} (l : list Agent) : M S (list Agent) :=
  decorated <- map_each (fun x => k <- get_fitness x ;; ret (k, x)) l ;;
  match l with
  | [] | [_] => ret l
  | _ =>
      match float_keys decorated with
      | None => raise (TypeError "'<' not supported between instances")
      | Some d => ret (sort_desc d).*2
      end
  end.

(** [parent1.crossover(parent2)] as the engine writes it.  [crossover] is a
    classmethod with the parameters [(cls, agent1, agent2)]: called through
    an instance with one argument, [cls] is the class of the instance,
    [agent1] is the argument, and [agent2] receives nothing. *)
Definition crossover_bound_call (parent1 parent2 : Agent) : M World Agent :=
  raise (TypeError
           "crossover() missing 1 required positional argument: 'agent2'").

(** One turn of the [while] loop of [create_next_generation]. *)
Definition make_offspring : M St Agent :=
  self <- get_self ;;
  parent1 <- tournament_selection ;;
  parent2 <- tournament_selection ;;
  r <- on_world random_random ;;
  offspring <-
    (if Qltb r (crossover_rate self)
     then on_world (crossover_bound_call parent1 parent2)
     else
       r' <- on_world random_random ;;
       if Qltb r' 0.5 then on_world (clone parent1)
       else on_world (clone parent2)) ;;
  r'' <- on_world random_random ;;
  if Qltb r'' (e_mutation_rate self)
  then on_world (mutate offspring None)
  else ret offspring.

(** [while len(new_population) < self.population_size: ...].  The loop is
    given [fuel] turns; [OutOfFuel] marks a loop that wants more. *)
Fixpoint fill_population (fuel : nat) (new_population : list Agent)
  : M St (list Agent) :=
  self <- get_self ;;
  if Z.of_nat (length new_population) <? population_size self then
    match fuel with
    | O => raise OutOfFuel
    | S fuel' =>
        offspring <- make_offspring ;;
        fill_population fuel' (new_population ++ [offspring])
    end
  else ret new_population.

Fixpoint Qmax_list (x : Q) (l : list Q) : Q :=
  match l with
  | [] => x
  | y :: l' => if Qltb x y then Qmax_list y l' else Qmax_list x l'
  end.

Definition Qsum (l : list Q) : Q := fold_left Qplus l 0%Q.

Definition float_values (l : list attr) : list Q :=
  omap (fun v => match v with Value x => Some x | _ => None end) l.

(** [EvolutionEngine._record_generation_stats] *)
Definition _record_generation_stats : M St unit :=
  self <- get_self ;;
  vs <- map_each get_fitness (population self) ;;
  match float_values vs with
  | [] => ret tt
  | x :: xs =>
      let fitnesses := x :: xs in
      let best_fitness := Qmax_list x xs in
      let avg_fitness :=
        (Qsum fitnesses / inject_Z (Z.of_nat (length fitnesses)))%Q in
      on_history (add_generation (current_generation self) (population self)
                                 best_fitness avg_fitness)
  end.

(** [EvolutionEngine.create_next_generation] *)
Definition create_next_generation : M St unit :=
  evaluate_population ;;;
  self <- get_self ;;
  sorted_population <- sorted_by_fitness_desc (population self) ;;
  let elites := slice_to sorted_population (elitism_count self) in
  new_population <- on_world (map_each clone elites) ;;
  new_population <- fill_population (Z.to_nat (population_size self))
                                    new_population ;;
  let new_population :=
    if population_size self <? Z.of_nat (length new_population)
    then slice_to new_population (population_size self)
    else new_population in
  update_self (fun e => set_population e new_population) ;;;
  update_self (fun e => set_current_generation e (current_generation e + 1)) ;;;
  _record_generation_stats.

(** [EvolutionEngine.evolve], for [generations] turns of its loop. *)
Fixpoint evolve_loop (generations : nat) : M St unit :=
  match generations with
  | O => ret tt
  | S n => create_next_generation ;;; evolve_loop n
  end.

Definition evolve (generations : Z) : M St EvolutionHistory :=
  evolve_loop (Z.to_nat generations) ;;;
  self <- get_self ;;
  ret (history self).

(** [EvolutionEngine.get_best_agent] *)
Definition get_best_agent : M St Agent :=
  self <- get_self ;;
  match population self with
  | [] => raise (ValueError "Population is empty")
  | _ =>
      evaluate_population ;;;
      self <- get_self ;;
      max_by_fitness (population self)
  end.

(** ** agent.py: the fitness computed from the metrics *)

Definition set_fitness_score (a : Agent) (q : Q) : Agent :=
  {| id := id a; strategy_params := strategy_params a;
     generation := generation a;
     parent_ids := parent_ids a; metrics := metrics a;
     fitness_score := q; mutation_rate := mutation_rate a;
     is_elite := is_elite a; creation_timestamp := creation_timestamp a;
     last_evaluation_timestamp := last_evaluation_timestamp a;
     active := active a; fitness := fitness a |}.

(** [v * w] for a value [v] of the metrics and a float [w]: a number
    multiplies (an [int] as the float it converts to, [True] as 1, [False]
    as 0), a string does not. *)
Definition py_mul_float {S} (v : Param) (w : Q) : M S Q :=
  match v with
  | PFloat x => ret (x * w)%Q
  | PInt n => x <- py_float n ;; ret (inject_Z x * w)%Q
  | PBool b => ret ((if b then 1 else 0) * w)%Q
  | PStr _ =>
      raise (TypeError "can't multiply sequence by non-int of type 'float'")
  end.

(** [self.metrics[key] * weights[key]]; the state is the receiver. *)
Definition weighted_metric (key : string) (weight : Q) : M Agent Q :=
  fun self =>
    match metrics self !! key with
    | None => (Raise (KeyError key), self)
    | Some v => py_mul_float v weight self
    end.

(** [Agent.calculate_fitness]; the state is the receiver. *)
Definition calculate_fitness : M Agent Q :=
  t1 <- weighted_metric "total_return" 0.4 ;;
  t2 <- weighted_metric "sharpe_ratio" 0.3 ;;
  t3 <- weighted_metric "max_drawdown" 0.1 ;;
  t4 <- weighted_metric "win_rate" 0.1 ;;
  t5 <- weighted_metric "avg_profit_loss" 0.1 ;;
  let score := (t1 + t2 - t3 + t4 + t5)%Q in
  (fun self => (Ok tt, set_fitness_score self score)) ;;;
  ret score.

(** ** The vocabulary of the properties *)

(** A relation between the state before and the state after that holds
    however the computation ends. *)
Definition preserves {S A} (R : S -> S -> Prop) (m : M S A) : Prop :=
  forall s r s', m s = (r, s') -> R s s'.

(** What [crossover] may store under [key], given the two parents. *)
Definition inherits (p1 p2 : gmap string Param) (key : string)
    (o : option Param) : Prop :=
  match p1 !! key, p2 !! key with
  | Some v1, Some v2 => o = Some v1 \/ o = Some v2
  | Some v1, None => o = Some v1
  | None, Some v2 => o = Some v2
  | None, None => False
  end.

(** How [mutate] changes one parameter that it does mutate. *)
Definition perturbed (v v' : Param) : Prop :=
  match v with
  | PBool b => v' = PBool (negb b)
  | PInt n =>
      exists x n',
        float_of_int (Z.abs n) = Some x
        /\ v' = PInt n' /\ Z.abs (n' - n) <= Z.max 1 (int_of_tenth x)
  | PFloat x => exists x', v' = PFloat x' /\ (Qabs (x' - x) <= Qabs x * 0.1)%Q
  | PStr s => v' = PStr s
  end.

(** Every [int] among the parameters converts to a float, so that [mutate]
    can take the tenth of its absolute value. *)
Definition ints_convert (p : gmap string Param) : Prop :=
  forall k n, p !! k = Some (PInt n) -> float_of_int (Z.abs n) <> None.

(** A relation on engines (or on histories), read on the states of a
    method: the world may change freely. *)
Definition on_fst {S} (R : relation S) : relation (S * World) :=
  fun s s' => R (fst s) (fst s').

(** The configuration of the engine is the same. *)
Definition config_kept : relation EvolutionEngine :=
  fun e e' =>
    population_size e' = population_size e
    /\ tournament_size e' = tournament_size e
    /\ crossover_rate e' = crossover_rate e
    /\ e_mutation_rate e' = e_mutation_rate e
    /\ elitism_count e' = elitism_count e
    /\ fitness_function e' = fitness_function e.

(** The population is the same list of agents. *)
Definition population_kept : relation EvolutionEngine :=
  fun e e' => population e' = population e.

(** The ledger of best agents has only grown at its end. *)
Definition ledger_grows : relation EvolutionHistory :=
  fun h h' => exists ext, best_agent_history h' = best_agent_history h ++ ext.

Definition history_grows : relation EvolutionEngine :=
  fun e e' => ledger_grows (history e) (history e').

(** The fitness of a genome is set: the attribute holds a float. *)
Definition fitness_set (a : Agent) : Prop := exists q, fitness a = Value q.

(** The attribute [fitness] exists, holding [None] or a float. *)
Definition has_fitness_attr (a : Agent) : Prop := fitness a <> Absent.

(** What evaluation under [F] makes of one genome. *)
Definition evaluated (F : Agent -> Q) (a a' : Agent) : Prop :=
  match fitness a with
  | PyNone => a' = set_fitness a (Value (F a))
  | _ => a' = a
  end.

(** The clones of a list of agents take the next identifiers in turn. *)
Fixpoint clones_of (ids : nat -> string) (l : list Agent) : list Agent :=
  match l with
  | [] => []
  | a :: l' => set_id a (ids 0%nat) :: clones_of (fun n => ids (S n)) l'
  end.

(** The float held by [fitness], for a genome whose fitness is set. *)
Definition fitness_value (a : Agent) : Q :=
  match fitness a with
  | Value q => q
  | _ => 0%Q
  end.

(** [ranks_above a b]: [a] does not rank below [b]. *)
Definition ranks_above (a b : Agent) : Prop :=
  (fitness_value b <= fitness_value a)%Q.

Definition key_above (x y : Q * Agent) : Prop := (fst y <= fst x)%Q.

(** The computation never stops for want of fuel. *)
Definition fuel_free {S A} (m : M S A) : Prop :=
  forall s s', m s <> (Raise OutOfFuel, s').

(** ** Concrete genomes, engines and worlds *)

(** A string of [n] strokes. *)
Fixpoint tally (n : nat) : string :=
  match n with
  | O => EmptyString
  | S n' => String "i"%char (tally n')
  end.

(** A world whose [random] source yields [draws] and then zeros, and whose
    [uuid4] yields a fresh identifier at each call. *)
Definition world_of (draws : list N) : World :=
  {| rnd := fun n => nth n draws 0%N;
     uuids := fun n => String "u"%char (tally n) |}.

(** A genome of the initial population, as a factory hands it over. *)
Definition genome (i : string) (params : gmap string Param) (f : attr)
  : Agent :=
  {| id := i; strategy_params := params; generation := 0; parent_ids := [];
     metrics := default_metrics; fitness_score := 0; mutation_rate := 0.05;
     is_elite := false; creation_timestamp := None;
     last_evaluation_timestamp := None; active := true; fitness := f |}.

(** The fitness function of the scenario of the specification: the sum of
    the integer parameters. *)
Definition sum_of_integers (a : Agent) : Q :=
  map_fold (fun _ v acc => match v with
                           | PInt n => (acc + inject_Z n)%Q
                           | _ => acc
                           end) 0%Q (strategy_params a).

(** A genome that has been scored 20. *)
Definition scored_genome : Agent :=
  {| id := "g2"; strategy_params := {["period" := PInt 20]}; generation := 0;
     parent_ids := []; metrics := default_metrics; fitness_score := 20;
     mutation_rate := 0.05; is_elite := false; creation_timestamp := None;
     last_evaluation_timestamp := None; active := true;
     fitness := Value 20 |}.

Definition scored_population : list Agent :=
  [genome "g1" {["period" := PInt 5]} (Value 5);
   genome "g2" {["period" := PInt 20]} (Value 20);
   genome "g3" {["period" := PInt 7]} (Value 7)].

Definition unscored_population : list Agent :=
  [genome "g1" {["period" := PInt 5]} (Value 5);
   genome "g2" {["period" := PInt 20]} PyNone].

(** An engine for three genomes, with tournaments of two and one elite,
    that never draws a crossover and mutates every offspring. *)
Definition engine_of (F : option (Agent -> Q)) (p : list Agent)
  : EvolutionEngine :=
  {| population_size := 3; tournament_size := 2; crossover_rate := 0;
     e_mutation_rate := 1; elitism_count := 1; fitness_function := F;
     population := p; history := EvolutionHistory_init;
     current_generation := 0 |}.

Definition world0 : World := world_of [0; 1; 2; 3; 4; 5; 6; 7; 8; 9]%N.

(** A genome that has been scored 20 and holds an integer that no float
    can hold. *)
Definition oversized_genome : Agent :=
  genome "g" {["size" := PInt (10 ^ 400)]} (Value 20).

(** An agent whose metrics hold an integer that no float can hold. *)
Definition oversized_metrics : Agent :=
  {| id := "m"; strategy_params := ∅; generation := 0; parent_ids := [];
     metrics := <["total_return" := PInt (10 ^ 400)]> default_metrics;
     fitness_score := 7; mutation_rate := 0.05; is_elite := false;
     creation_timestamp := None; last_evaluation_timestamp := None;
     active := true; fitness := Absent |}.

(** ** The vocabulary of the further properties *)

(** [c] is [a] but for its identifier and its strategy parameters. *)
Definition differs_in_id_and_params (a c : Agent) : Prop :=
  set_strategy_params (set_id c (id a)) (strategy_params a) = a.

(** [c] is an offspring of the population [p]: one of its genomes, but for
    the identifier and the strategy parameters. *)
Definition descends (p : list Agent) (c : Agent) : Prop :=
  exists a, a ∈ p /\ differs_in_id_and_params a c.

(** What evaluation may have made of a genome, finished or not. *)
Definition maybe_evaluated (a a' : Agent) : Prop :=
  a' = a \/ exists q, fitness a = PyNone /\ a' = set_fitness a (Value q).

(** The entry of the statistics that a recording appends, [best] being the
    greatest fitness of the population. *)
Definition stats_of (e : EvolutionEngine) (best : Q) : Stats :=
  {| st_generation := current_generation e;
     st_best_fitness := best;
     st_average_fitness :=
       (Qsum (map fitness_value (population e))
        / inject_Z (Z.of_nat (length (map fitness_value (population e)))))%Q;
     st_population_size := Z.of_nat (length (population e)) |}.

(** The engine with one more entry in each ledger of its history. *)
Definition recorded (e : EvolutionEngine) (st : Stats) (c : Agent)
  : EvolutionEngine :=
  set_history e
    {| generation_stats := generation_stats (history e) ++ [st];
       best_agent_history := best_agent_history (history e) ++ [c] |}.

(** The engine a transition leaves when it returns, given the engine [e1]
    that holds the new population and the new counter. *)
Definition after_recording (e1 : EvolutionEngine) (w1 : World)
    (e' : EvolutionEngine) (w' : World) : Prop :=
  match population e1 with
  | [] => e' = e1 /\ w' = w1
  | _ =>
      exists b,
        b ∈ population e1
        /\ Forall (fun a => (fitness_value a <= fitness_value b)%Q)
             (population e1)
        /\ e' = recorded e1 (stats_of e1 (fitness_value b))
                         (set_id b (uuids w1 0%nat))
        /\ w' = {| rnd := rnd w1; uuids := fun n => uuids w1 (S n) |}
  end.


(** A value that multiplies with a float: a number, and when an [int],
    one that converts to a float. *)
Definition is_number (v : Param) : Prop :=
  match v with
  | PStr _ => False
  | PInt n => float_of_int n <> None
  | _ => True
  end.

(** A metric that [calculate_fitness] can use: present, and a number. *)
Definition usable (m : gmap string Param) (key : string) : Prop :=
  exists v, m !! key = Some v /\ is_number v.

(** An engine as [engine_of] builds it, but with a crossover rate of 1. *)
Definition crossing_engine (F : option (Agent -> Q)) (p : list Agent)
  : EvolutionEngine :=
  {| population_size := 3; tournament_size := 2; crossover_rate := 1;
     e_mutation_rate := 1; elitism_count := 1; fitness_function := F;
     population := p; history := EvolutionHistory_init;
     current_generation := 0 |}.

(** * Properties *)

(** ** Running a computation: the equations of [bind] *)

Lemma bind_ok {S A B} (m : M S A) (k : A -> M S B) s a s' :
  m s = (Ok a, s') -> bind m k s = k a s'.
Proof. intros H. unfold bind. now rewrite H. Qed.

Lemma bind_inv_ok {S A B} (m : M S A) (k : A -> M S B) s b s'' :
  bind m k s = (Ok b, s'') ->
  exists a s', m s = (Ok a, s') /\ k a s' = (Ok b, s'').
Proof.
  unfold bind. destruct (m s) as [[a|e] s'] eqn:E; intros H.
  - eauto.
  - discriminate.
Qed.

Lemma bind_inv {S A B} (m : M S A) (k : A -> M S B) s r s'' :
  bind m k s = (r, s'') ->
  (exists a s', m s = (Ok a, s') /\ k a s' = (r, s'')) \/
  (exists e, m s = (Raise e, s'') /\ r = Raise e).
Proof.
  unfold bind. destruct (m s) as [[a|e] s'] eqn:E; intros H.
  - left. eauto.
  - right. inversion H; subst. eauto.
Qed.

(** Split a hypothesis [bind m k s = (Ok _, _)] into its two runs. *)
Tactic Notation "bind_ok_inv" hyp(H) "as" ident(a) ident(s) ident(H1) :=
  apply bind_inv_ok in H; destruct H as (a & s & H1 & H).

Lemma on_world_ok {S A} (m : M World A) (s : S) w a w' :
  m w = (Ok a, w') -> on_world m (s, w) = (Ok a, (s, w')).
Proof. intros H. unfold on_world. now rewrite H. Qed.

Lemma on_world_inv {S A} (m : M World A) (s : S * World) r s' :
  on_world m s = (r, s') ->
  exists w', m (snd s) = (r, w') /\ s' = (fst s, w').
Proof.
  destruct s as [s w]. unfold on_world. simpl.
  destruct (m w) as [r0 w0]. intros H. inversion H; subst. eauto.
Qed.

Section Preserves.
Context {S : Type} (R : S -> S -> Prop).
Hypothesis R_refl : forall s, R s s.
Hypothesis R_trans : forall s1 s2 s3, R s1 s2 -> R s2 s3 -> R s1 s3.

Lemma preserves_ret {A} (a : A) : preserves R (ret a).
Proof. intros s r s' H. inversion H; subst. apply R_refl. Qed.

Lemma preserves_raise {A} (e : exn) : preserves R (@raise S A e).
Proof. intros s r s' H. inversion H; subst. apply R_refl. Qed.

Lemma preserves_bind {A B} (m : M S A) (k : A -> M S B) :
  preserves R m -> (forall a, preserves R (k a)) -> preserves R (bind m k).
Proof.
  intros Hm Hk s r s' H.
  apply bind_inv in H. destruct H as [(a & s1 & H1 & H2) | (e & H1 & _)].
  - eapply R_trans; [eapply Hm | eapply Hk]; eauto.
  - eapply Hm; eauto.
Qed.

Lemma preserves_for_each {A B} (body : B -> A -> M S B) l :
  (forall acc x, preserves R (body acc x)) ->
  forall acc, preserves R (for_each body l acc).
Proof.
  intros Hb. induction l as [|x l IH]; intros acc; simpl.
  - apply preserves_ret.
  - apply preserves_bind; auto.
Qed.

Lemma preserves_map_each {A B} (f : A -> M S B) l :
  (forall x, preserves R (f x)) -> preserves R (map_each f l).
Proof.
  intros Hf. induction l as [|x l IH]; simpl.
  - apply preserves_ret.
  - apply preserves_bind; auto. intros y.
    apply preserves_bind; auto. intros ys. apply preserves_ret.
Qed.

End Preserves.

(** ** Facts on the float comparisons and the random draws *)

Lemma Qltb_lt (x y : Q) : Qltb x y = true <-> (x < y)%Q.
Proof.
  unfold Qltb. rewrite negb_true_iff, <- not_true_iff_false, Qle_bool_iff.
  split; [apply Qnot_le_lt | apply Qlt_not_le].
Qed.

Lemma Qltb_ge (x y : Q) : Qltb x y = false <-> (y <= x)%Q.
Proof.
  unfold Qltb. rewrite negb_false_iff. apply Qle_bool_iff.
Qed.

Lemma random_random_run w :
  exists r, random_random w =
              (Ok r, {| rnd := fun n => rnd w (S n); uuids := uuids w |})
            /\ (0 <= r)%Q /\ (r < 1)%Q.
Proof.
  eexists. split; [reflexivity|].
  pose proof (N.mod_lt (rnd w 0%nat) 9007199254740992 ltac:(discriminate)) as H.
  revert H. generalize (rnd w 0%nat mod 9007199254740992)%N. intros k H.
  unfold Qle, Qlt; cbn [Qnum Qden]. lia.
Qed.

Lemma random_randint_run (a b : Z) w :
  a <= b ->
  exists n, random_randint a b w =
              (Ok n, {| rnd := fun n => rnd w (S n); uuids := uuids w |})
            /\ a <= n <= b.
Proof.
  intros Hab. unfold random_randint.
  destruct (b <? a) eqn:E; [lia|].
  eexists. split; [reflexivity|].
  pose proof (Z.mod_pos_bound (Z.of_N (rnd w 0%nat)) (b - a + 1) ltac:(lia)).
  lia.
Qed.

Lemma random_uniform_run (a b : Q) w :
  (a <= b)%Q ->
  exists x, random_uniform a b w =
              (Ok x, {| rnd := fun n => rnd w (S n); uuids := uuids w |})
            /\ (a <= x)%Q /\ (x <= b)%Q.
Proof.
  intros Hab. unfold random_uniform.
  destruct (random_random_run w) as (r & Hr & H0 & H1).
  rewrite (bind_ok _ _ _ _ _ Hr). eexists. split; [reflexivity|].
  split; nra.
Qed.

(** ** Facts on the floats that integers turn into *)






(** ** Crossover *)

Lemma crossover_key_run (agent1 agent2 : Agent) new_params key w :
  key ∈ dom (strategy_params agent1) ∪ dom (strategy_params agent2) ->
  exists v w',
    crossover_key agent1 agent2 new_params key w
      = (Ok (<[key := v]> new_params), w')
    /\ uuids w' = uuids w
    /\ inherits (strategy_params agent1) (strategy_params agent2) key (Some v).
Proof.
  intros Hin. unfold crossover_key, inherits.
  destruct (strategy_params agent1 !! key) as [v1|] eqn:E1;
    destruct (strategy_params agent2 !! key) as [v2|] eqn:E2.
  - destruct (random_random_run w) as (r & Hr & _).
    rewrite (bind_ok _ _ _ _ _ Hr).
    destruct (Qltb r 0.5); eexists _, _; (split; [reflexivity|]); auto.
  - eexists _, _. split; [reflexivity|]. auto.
  - eexists _, _. split; [reflexivity|]. auto.
  - exfalso. apply elem_of_union in Hin.
    destruct Hin as [H|H]; apply elem_of_dom in H; destruct H as [? H];
      congruence.
Qed.

Lemma crossover_keys_run (agent1 agent2 : Agent) ks :
  (forall k, k ∈ ks ->
             k ∈ dom (strategy_params agent1) ∪ dom (strategy_params agent2)) ->
  forall acc w,
  exists new_params w',
    for_each (crossover_key agent1 agent2) ks acc w = (Ok new_params, w')
    /\ uuids w' = uuids w
    /\ (forall k, k ∈ ks ->
          inherits (strategy_params agent1) (strategy_params agent2) k
                   (new_params !! k))
    /\ (forall k, k ∉ ks -> new_params !! k = acc !! k).
Proof.
  induction ks as [|key ks IH]; intros Hks acc w; simpl.
  - exists acc, w. repeat split; auto. intros k Hk. inversion Hk.
  - destruct (crossover_key_run agent1 agent2 acc key w)
      as (v & w1 & H1 & Hu1 & Hv).
    { apply Hks. left. }
    rewrite (bind_ok _ _ _ _ _ H1).
    destruct (IH (fun k Hk => Hks k (list_elem_of_further _ _ _ Hk))
                 (<[key := v]> acc) w1)
      as (np & w2 & H2 & Hu2 & Hin & Hout).
    exists np, w2. split; [exact H2|]. split; [congruence|]. split.
    + intros k Hk. destruct (decide (k ∈ ks)) as [Hk'|Hk']; [auto|].
      apply elem_of_cons in Hk. destruct Hk as [->|Hk]; [|contradiction].
      rewrite (Hout _ Hk'), lookup_insert_eq. exact Hv.
    + intros k Hk. apply not_elem_of_cons in Hk. destruct Hk as [Hne Hk].
      rewrite (Hout _ Hk), lookup_insert_ne; auto.
Qed.

Lemma crossover_run (agent1 agent2 : Agent) w :
  exists new_params w1,
    crossover agent1 agent2 w =
      (Ok {| id := uuids w 0%nat;
             strategy_params := new_params;
             generation := Z.max (generation agent1) (generation agent2) + 1;
             parent_ids := [id agent1; id agent2];
             metrics := default_metrics;
             fitness_score := 0;
             mutation_rate :=
               ((mutation_rate agent1 + mutation_rate agent2) / 2)%Q;
             is_elite := false;
             creation_timestamp := None;
             last_evaluation_timestamp := None;
             active := true;
             fitness := Absent |},
       {| rnd := rnd w1; uuids := fun n => uuids w (S n) |})
    /\ forall k,
        match strategy_params agent1 !! k, strategy_params agent2 !! k with
        | None, None => new_params !! k = None
        | _, _ => inherits (strategy_params agent1) (strategy_params agent2) k
                           (new_params !! k)
        end.
Proof.
  unfold crossover.
  destruct (crossover_keys_run agent1 agent2
              (elements (dom (strategy_params agent1)
                         ∪ dom (strategy_params agent2)))
              ltac:(intros k Hk; now apply elem_of_elements in Hk) ∅ w)
    as (np & w1 & H1 & Hu & Hin & Hout).
  exists np, w1. split.
  - rewrite (bind_ok _ _ _ _ _ H1). unfold Agent_init, uuid4, bind, ret.
    unfold set_mutation_rate; simpl. rewrite Hu. reflexivity.
  - intros k.
    destruct (decide (k ∈ elements (dom (strategy_params agent1)
                                    ∪ dom (strategy_params agent2))))
      as [Hk|Hk].
    + specialize (Hin k Hk). unfold inherits in *.
      destruct (strategy_params agent1 !! k), (strategy_params agent2 !! k);
        auto; contradiction.
    + rewrite (Hout k Hk), lookup_empty.
      rewrite elem_of_elements, elem_of_union, !elem_of_dom in Hk.
      destruct (strategy_params agent1 !! k) eqn:E1.
      { exfalso. apply Hk. left. eauto. }
      destruct (strategy_params agent2 !! k) eqn:E2.
      { exfalso. apply Hk. right. eauto. }
      reflexivity.
Qed.

(** C5. For every two genomes A and B, [crossover A B] returns a child whose
    parameter keys are the union of the parents' keys; a key held by one
    parent only carries that parent's value, a key held by both carries one
    of the two values; the child's generation is the greater of the parents'
    generations plus one, its [parent_ids] are [[A.id; B.id]] and its
    mutation rate is the mean of the parents' rates. *)
Theorem crossover_key_coverage (A B : Agent) (w : World) :
  exists child w',
    crossover A B w = (Ok child, w')
    /\ dom (strategy_params child)
       = dom (strategy_params A) ∪ dom (strategy_params B)
    /\ (forall k v, strategy_params A !! k = Some v ->
                    strategy_params B !! k = None ->
                    strategy_params child !! k = Some v)
    /\ (forall k v, strategy_params A !! k = None ->
                    strategy_params B !! k = Some v ->
                    strategy_params child !! k = Some v)
    /\ (forall k v1 v2, strategy_params A !! k = Some v1 ->
                        strategy_params B !! k = Some v2 ->
                        strategy_params child !! k = Some v1
                        \/ strategy_params child !! k = Some v2)
    /\ generation child = Z.max (generation A) (generation B) + 1
    /\ parent_ids child = [id A; id B]
    /\ mutation_rate child = ((mutation_rate A + mutation_rate B) / 2)%Q.
Proof.
  destruct (crossover_run A B w) as (np & w1 & Hrun & Hk).
  eexists _, _. split; [exact Hrun|]. simpl.
  split; [|repeat split].
  - apply set_eq. intros k.
    rewrite elem_of_union, !elem_of_dom. specialize (Hk k).
    unfold inherits in Hk.
    destruct (strategy_params A !! k) as [v1|] eqn:E1;
      destruct (strategy_params B !! k) as [v2|] eqn:E2.
    + split; [intros _; left; eauto|intros _].
      destruct Hk as [-> | ->]; eauto.
    + rewrite Hk. split; [intros _; left; eauto|eauto].
    + rewrite Hk. split; [intros _; right; eauto|eauto].
    + rewrite Hk. split; [intros [? ?]; discriminate|].
      intros [[? ?]|[? ?]]; discriminate.
  - intros k v E1 E2. specialize (Hk k). unfold inherits in Hk.
    rewrite E1, E2 in Hk. exact Hk.
  - intros k v E1 E2. specialize (Hk k). unfold inherits in Hk.
    rewrite E1, E2 in Hk. exact Hk.
  - intros k v1 v2 E1 E2. specialize (Hk k). unfold inherits in Hk.
    rewrite E1, E2 in Hk. exact Hk.
Qed.

(** ** Mutation *)

(** One turn of the loop of [mutate], however it ends: it stores at [key]
    what it read there or a perturbation of it, or it raises OverflowError
    on an [int] that does not convert to a float, having stored nothing. *)
Lemma mutate_key_cases (rate : Q) (key : string) params v w r s' :
  params !! key = Some v ->
  mutate_key rate key (params, w) = (r, s') ->
  uuids (snd s') = uuids w
  /\ match r with
     | Ok _ =>
         exists v', fst s' = <[key := v']> params
           /\ (v' = v \/ perturbed v v')
           /\ ((rate <= 0)%Q -> v' = v)
           /\ ((1 <= rate)%Q -> perturbed v v')
     | Raise x =>
         fst s' = params
         /\ x = OverflowError "int too large to convert to float"
         /\ (exists n, v = PInt n /\ float_of_int (Z.abs n) = None)
         /\ ~ (rate <= 0)%Q
     end.
Proof.
  intros Hv H. unfold mutate_key in H.
  destruct (random_random_run w) as (r0 & Hr & Hr0 & Hr1).
  rewrite (bind_ok _ _ _ _ _ (on_world_ok _ params _ _ _ Hr)) in H.
  destruct (Qltb r0 rate) eqn:Hlt.
  - apply Qltb_lt in Hlt.
    unfold bind at 1 in H. cbn [fst] in H. rewrite Hv in H.
    destruct v as [b|n|x|s].
    + inversion H; subst. simpl. split; [reflexivity|].
      exists (PBool (negb b)). split; [reflexivity|].
      split; [now right|]. split; [intros; lra|intros; reflexivity].
    + unfold py_float in H.
      destruct (float_of_int (Z.abs n)) as [x|] eqn:Ef.
      * unfold bind at 1, ret in H.
        set (adjustment := Z.max 1 (int_of_tenth x)) in *.
        destruct (random_randint_run (- adjustment) adjustment
                    {| rnd := fun n => rnd w (S n); uuids := uuids w |})
          as (d & Hd & Hrange); [subst adjustment; lia|].
        rewrite (bind_ok _ _ _ _ _ (on_world_ok _ params _ _ _ Hd)) in H.
        inversion H; subst. simpl. split; [reflexivity|].
        assert (perturbed (PInt n) (PInt (n + d))) as Hp.
        { exists x, (n + d). split; [exact Ef|]. split; [reflexivity|].
          fold adjustment. lia. }
        exists (PInt (n + d)). split; [reflexivity|].
        split; [now right|]. split; [intros; lra|intros; exact Hp].
      * inversion H; subst. simpl. split; [reflexivity|].
        split; [reflexivity|]. split; [reflexivity|].
        split; [eauto|lra].
    + set (adjustment := (Qabs x * 0.1)%Q) in *.
      assert (0 <= adjustment)%Q as Hadj.
      { subst adjustment. pose proof (Qabs_nonneg x). nra. }
      destruct (random_uniform_run (- adjustment) adjustment
                  {| rnd := fun n => rnd w (S n); uuids := uuids w |})
        as (d & Hd & Hlo & Hhi); [lra|].
      rewrite (bind_ok _ _ _ _ _ (on_world_ok _ params _ _ _ Hd)) in H.
      inversion H; subst. simpl. split; [reflexivity|].
      assert (perturbed (PFloat x) (PFloat (x + d))) as Hp.
      { exists (x + d)%Q. split; [reflexivity|].
        apply Qabs_Qle_condition. fold adjustment. split; lra. }
      exists (PFloat (x + d)). split; [reflexivity|].
      split; [now right|]. split; [intros; lra|intros; exact Hp].
    + inversion H; subst. simpl. split; [reflexivity|].
      exists (PStr s). split; [now rewrite insert_id|].
      split; [now left|]. split; reflexivity.
  - apply Qltb_ge in Hlt. inversion H; subst. simpl.
    split; [reflexivity|].
    exists v. split; [now rewrite insert_id|].
    split; [now left|]. split; [reflexivity|intros; lra].
Qed.

(** The loop of [mutate], however it ends. *)
Lemma mutate_keys_cases (rate : Q) ks :
  NoDup ks ->
  forall params w r s',
  (forall k, k ∈ ks -> is_Some (params !! k)) ->
  for_each (fun _ key => mutate_key rate key) ks tt (params, w) = (r, s') ->
  uuids (snd s') = uuids w
  /\ (forall k, k ∉ ks -> fst s' !! k = params !! k)
  /\ (forall k v, k ∈ ks -> params !! k = Some v ->
        exists v', fst s' !! k = Some v'
                   /\ (v' = v \/ perturbed v v')
                   /\ ((rate <= 0)%Q -> v' = v)
                   /\ (r = Ok tt -> (1 <= rate)%Q -> perturbed v v'))
  /\ (forall x, r = Raise x ->
        x = OverflowError "int too large to convert to float"
        /\ (exists k n, k ∈ ks /\ params !! k = Some (PInt n)
                        /\ float_of_int (Z.abs n) = None)
        /\ ~ (rate <= 0)%Q).
Proof.
  induction 1 as [|key ks Hnotin Hnd IH]; intros params w r s' Hks H;
    simpl in H.
  - inversion H; subst. simpl. split; [reflexivity|]. split; [auto|].
    split; [intros k v Hk; inversion Hk|discriminate].
  - destruct (Hks key ltac:(left)) as [v Hv].
    apply bind_inv in H.
    destruct H as [([] & [p1 w1] & H1 & H) | (x & H1 & ->)].
    + destruct (mutate_key_cases _ _ _ _ _ _ _ Hv H1)
        as (Hu1 & v' & Hp1 & Hkept & Hzero & Hone).
      simpl in Hu1, Hp1. subst p1.
      apply IH in H.
      2:{ intros k Hk. destruct (decide (key = k)) as [->|Hne].
          - rewrite lookup_insert_eq. eauto.
          - rewrite lookup_insert_ne by exact Hne. apply Hks. now right. }
      destruct H as (Hu2 & Hout & Hin & Hraise).
      split; [congruence|]. split; [|split].
      * intros k Hk. apply not_elem_of_cons in Hk. destruct Hk as [Hne Hk].
        rewrite (Hout _ Hk), lookup_insert_ne; auto.
      * intros k u Hk Hu. apply elem_of_cons in Hk. destruct Hk as [->|Hk].
        -- rewrite (Hout _ Hnotin), lookup_insert_eq.
           exists v'. split; [reflexivity|].
           assert (u = v) as -> by congruence. auto.
        -- apply (Hin k u Hk). rewrite lookup_insert_ne; [exact Hu|].
           intros ->. contradiction.
      * intros x Hx. destruct (Hraise x Hx) as (-> & (k & n & Hk & Hn & Hf) & Hr).
        split; [reflexivity|]. split; [|exact Hr].
        exists k, n. split; [now right|]. split; [|exact Hf].
        rewrite lookup_insert_ne in Hn; [exact Hn|].
        intros ->. contradiction.
    + destruct (mutate_key_cases _ _ _ _ _ _ _ Hv H1)
        as (Hu1 & Hp1 & -> & (n & -> & Hf) & Hr).
      split; [exact Hu1|]. rewrite Hp1. split; [auto|]. split.
      * intros k u Hk Hu. exists u. split; [exact Hu|].
        split; [now left|]. split; [reflexivity|discriminate].
      * intros x0 Hx0. inversion Hx0; subst.
        split; [reflexivity|]. split; [|exact Hr].
        exists key, n. split; [now left|]. auto.
Qed.

Lemma elem_of_keys (d : gmap string Param) k :
  k ∈ keys d <-> is_Some (d !! k).
Proof.
  unfold keys. rewrite list_elem_of_fmap. split.
  - intros ([k' v] & -> & Hin). apply elem_of_map_to_list in Hin. eauto.
  - intros [v Hv]. exists (k, v). split; [reflexivity|].
    now apply elem_of_map_to_list.
Qed.

(** [mutate] on the receiver, however it ends.  Nothing but
    [strategy_params] changes, and there the keys stay; each value is the
    one that was there or a perturbation of it.  The call raises nothing
    but OverflowError, and only on an [int] parameter that does not convert
    to a float. *)
Lemma mutate_in_place_cases (rate : option Q) (self : Agent) (w : World)
    r self' w' :
  mutate_in_place rate (self, w) = (r, (self', w')) ->
  self' = set_strategy_params self (strategy_params self')
  /\ uuids w' = uuids w
  /\ (forall k,
        match strategy_params self !! k with
        | Some v =>
            exists v', strategy_params self' !! k = Some v'
              /\ (v' = v \/ perturbed v v')
              /\ ((match rate with
                   | Some r => r
                   | None => mutation_rate self
                   end <= 0)%Q -> v' = v)
              /\ (r = Ok tt ->
                  (1 <= match rate with
                        | Some r => r
                        | None => mutation_rate self
                        end)%Q -> perturbed v v')
        | None => strategy_params self' !! k = None
        end)
  /\ (forall x, r = Raise x ->
        x = OverflowError "int too large to convert to float"
        /\ ~ ints_convert (strategy_params self)
        /\ ~ (match rate with
              | Some r => r
              | None => mutation_rate self
              end <= 0)%Q).
Proof.
  unfold mutate_in_place. intros H.
  destruct (for_each _ _ _ _) as [r0 [p w0]] eqn:Hrun.
  inversion H; subst. clear H.
  apply mutate_keys_cases in Hrun.
  2:{ apply NoDup_fst_map_to_list. }
  2:{ intros k Hk. now apply elem_of_keys. }
  destruct Hrun as (Hu & Hout & Hin & Hraise). simpl in *.
  split; [reflexivity|]. split; [exact Hu|]. split.
  - intros k. destruct (strategy_params self !! k) as [v|] eqn:E.
    + apply Hin; [|exact E]. apply elem_of_keys. eauto.
    + rewrite Hout; [exact E|]. rewrite elem_of_keys, E.
      intros [? ?]; discriminate.
  - intros x Hx. destruct (Hraise x Hx) as (-> & (k & n & _ & Hn & Hf) & Hr).
    split; [reflexivity|]. split; [|exact Hr].
    intros Hconv. exact (Hconv k n Hn Hf).
Qed.

(** What the caller of [mutate] gets is what [mutate] leaves on the
    receiver. *)
Lemma mutate_unfold (self : Agent) (rate : option Q) (w : World) :
  mutate self rate w
  = (match fst (mutate_in_place rate (self, w)) with
     | Ok _ => Ok (fst (snd (mutate_in_place rate (self, w))))
     | Raise x => Raise x
     end, snd (snd (mutate_in_place rate (self, w)))).
Proof.
  unfold mutate. destruct (mutate_in_place rate (self, w)) as [r [s' w']].
  reflexivity.
Qed.

(** When [mutate] returns, it returns the receiver with other parameters. *)
Lemma mutate_ok (self : Agent) (rate : option Q) (w : World) self' w' :
  mutate self rate w = (Ok self', w') ->
  mutate_in_place rate (self, w) = (Ok tt, (self', w'))
  /\ self' = set_strategy_params self (strategy_params self')
  /\ uuids w' = uuids w.
Proof.
  rewrite mutate_unfold.
  destruct (mutate_in_place rate (self, w)) as [[[]|x] [s1 w1]] eqn:E;
    simpl; intros H; inversion H; subst.
  split; [reflexivity|].
  destruct (mutate_in_place_cases _ _ _ _ _ _ E) as (Hs & Hu & _). auto.
Qed.

(** [mutate] returns when every [int] parameter converts to a float, and
    also when the rate is 0 or less. *)
Lemma mutate_returns (self : Agent) (rate : option Q) (w : World) :
  ints_convert (strategy_params self)
  \/ (match rate with
      | Some r => r
      | None => mutation_rate self
      end <= 0)%Q ->
  exists self' w', mutate self rate w = (Ok self', w').
Proof.
  intros Hc. rewrite mutate_unfold.
  destruct (mutate_in_place rate (self, w)) as [[[]|x] [s1 w1]] eqn:E;
    simpl; [eauto|].
  destruct (mutate_in_place_cases _ _ _ _ _ _ E) as (_ & _ & _ & Hraise).
  destruct (Hraise x eq_refl) as (_ & Hno & Hrate).
  destruct Hc; contradiction.
Qed.


(** ** Snapshots *)

(** C6. For every genome, [from_dict (to_dict genome)] is a genome with the
    same id, generation, parent_ids, strategy_params, metrics, fitness
    (the field [fitness_score], which is the one [to_dict] stores),
    mutation_rate, is_elite and active. *)
Theorem from_dict_to_dict (genome : Agent) (w : World) :
  exists genome' w',
    from_dict (to_dict genome) w = (Ok genome', w')
    /\ id genome' = id genome
    /\ generation genome' = generation genome
    /\ parent_ids genome' = parent_ids genome
    /\ strategy_params genome' = strategy_params genome
    /\ metrics genome' = metrics genome
    /\ fitness_score genome' = fitness_score genome
    /\ mutation_rate genome' = mutation_rate genome
    /\ is_elite genome' = is_elite genome
    /\ active genome' = active genome.
Proof.
  eexists _, _. split; [reflexivity|]. simpl.
  repeat split. now destruct (parent_ids genome).
Qed.

(** The snapshot has no entry for the attribute the engine assigns, nor for
    the two timestamps: the genome read back has them as [__init__] leaves
    them. *)
Lemma from_dict_to_dict_rest (genome : Agent) (w : World) :
  exists genome' w',
    from_dict (to_dict genome) w = (Ok genome', w')
    /\ fitness genome' = Absent
    /\ creation_timestamp genome' = None
    /\ last_evaluation_timestamp genome' = None.
Proof. eexists _, _. split; [reflexivity|]. simpl. auto. Qed.

(** ** Fitness after the genetic operators *)

Lemma clone_run (self : Agent) (w : World) :
  clone self w = (Ok (set_id self (uuids w 0%nat)),
                  {| rnd := rnd w; uuids := fun n => uuids w (S n) |}).
Proof. reflexivity. Qed.

(** C4, as the code has it. [clone] hands the fitness of the original on to
    the copy, and [mutate] leaves the fitness of the receiver as it was,
    however the call ends: neither resets it.  The child returned by
    [crossover] holds what [__init__] gives it: a [fitness_score] of 0.0
    and no [fitness] attribute. *)
Theorem fitness_after_operators (g h : Agent) (rate : option Q) (w : World) :
  (exists c w', clone g w = (Ok c, w')
     /\ fitness c = fitness g /\ fitness_score c = fitness_score g)
  /\ (forall r g' w',
        mutate_in_place rate (g, w) = (r, (g', w')) ->
        fitness g' = fitness g /\ fitness_score g' = fitness_score g)
  /\ (forall g' w',
        mutate g rate w = (Ok g', w') ->
        fitness g' = fitness g /\ fitness_score g' = fitness_score g)
  /\ (ints_convert (strategy_params g) ->
      exists g' w', mutate g rate w = (Ok g', w')
        /\ fitness g' = fitness g /\ fitness_score g' = fitness_score g)
  /\ (exists c w', crossover g h w = (Ok c, w')
     /\ fitness c = Absent /\ fitness_score c = 0%Q).
Proof.
  assert (forall r g' w',
             mutate_in_place rate (g, w) = (r, (g', w')) ->
             fitness g' = fitness g /\ fitness_score g' = fitness_score g)
    as Hplace.
  { intros r g' w' H.
    destruct (mutate_in_place_cases _ _ _ _ _ _ H) as (-> & _).
    simpl. auto. }
  assert (forall g' w',
             mutate g rate w = (Ok g', w') ->
             fitness g' = fitness g /\ fitness_score g' = fitness_score g)
    as Hcall.
  { intros g' w' H. apply mutate_ok in H. destruct H as (H & _).
    exact (Hplace _ _ _ H). }
  split; [|split; [exact Hplace|split; [exact Hcall|split; [|]]]].
  - eexists _, _. split; [apply clone_run|]. simpl. auto.
  - intros Hc.
    destruct (mutate_returns g rate w (or_introl Hc)) as (g' & w' & H).
    exists g', w'. split; [exact H|]. exact (Hcall _ _ H).
  - destruct (crossover_run g h w) as (p & w' & Hrun & _).
    eexists _, _. split; [exact Hrun|]. simpl. auto.
Qed.

(** ** Construction of the engine *)

(** The constructor checks nothing: for every population size, tournament
    size and elitism count it returns an engine that stores them as
    given. *)
Lemma EvolutionEngine_init_total (N k : Z) (pc pm : Q) (e : Z)
    (F : option (Agent -> Q)) (w : World) :
  exists engine,
    EvolutionEngine_init N k pc pm e F w = (Ok engine, w)
    /\ population_size engine = N
    /\ tournament_size engine = k
    /\ elitism_count engine = e
    /\ population engine = [].
Proof. eexists. split; [reflexivity|]. simpl. auto. Qed.

(** ** What the engine methods leave alone *)

Global Instance on_fst_refl {S} (R : relation S) `{!Reflexive R} :
  Reflexive (on_fst R).
Proof. intros s. unfold on_fst. reflexivity. Qed.

Global Instance on_fst_trans {S} (R : relation S) `{!Transitive R} :
  Transitive (on_fst R).
Proof. intros s1 s2 s3. unfold on_fst. apply transitivity. Qed.

Global Instance config_kept_refl : Reflexive config_kept.
Proof. intros e. unfold config_kept. auto 10. Qed.

Global Instance config_kept_trans : Transitive config_kept.
Proof.
  intros e1 e2 e3. unfold config_kept. intuition congruence.
Qed.

Global Instance population_kept_refl : Reflexive population_kept.
Proof. intros e. reflexivity. Qed.

Global Instance population_kept_trans : Transitive population_kept.
Proof. intros e1 e2 e3. unfold population_kept. congruence. Qed.

Global Instance ledger_grows_refl : Reflexive ledger_grows.
Proof. intros h. exists []. now rewrite app_nil_r. Qed.

Global Instance ledger_grows_trans : Transitive ledger_grows.
Proof.
  intros h1 h2 h3 [x Hx] [y Hy]. exists (x ++ y).
  now rewrite Hy, Hx, app_assoc.
Qed.

Global Instance history_grows_refl : Reflexive history_grows.
Proof. intros e. unfold history_grows. reflexivity. Qed.

Global Instance history_grows_trans : Transitive history_grows.
Proof. intros e1 e2 e3. unfold history_grows. apply transitivity. Qed.

Section Frames.
Context {S : Type} (R : relation S) `{!Reflexive R} `{!Transitive R}.

Lemma pres_ret {A} (a : A) : preserves R (ret a).
Proof. apply preserves_ret. apply reflexivity. Qed.

Lemma pres_raise {A} (e : exn) : preserves R (@raise S A e).
Proof. apply preserves_raise. apply reflexivity. Qed.

Lemma pres_bind {A B} (m : M S A) (k : A -> M S B) :
  preserves R m -> (forall a, preserves R (k a)) -> preserves R (bind m k).
Proof. apply preserves_bind. apply transitivity. Qed.

Lemma pres_get_fitness x : preserves R (get_fitness x).
Proof.
  unfold get_fitness. destruct (fitness x);
    [apply pres_raise | apply pres_ret | apply pres_ret].
Qed.

Lemma pres_py_gt a b : preserves R (py_gt a b).
Proof.
  unfold py_gt. destruct a, b; try apply pres_raise. apply pres_ret.
Qed.

Lemma pres_max_loop items : forall maxitem maxval,
  preserves R (max_loop items maxitem maxval).
Proof.
  induction items as [|item rest IH]; intros maxitem maxval; simpl.
  - apply pres_ret.
  - apply pres_bind; [apply pres_get_fitness|]. intros val.
    apply pres_bind; [apply pres_py_gt|]. intros [|]; apply IH.
Qed.

Lemma pres_max_by_fitness l : preserves R (max_by_fitness l).
Proof.
  destruct l as [|item rest]; simpl.
  - apply pres_raise.
  - apply pres_bind; [apply pres_get_fitness|]. intros val.
    apply pres_max_loop.
Qed.

Lemma pres_sorted_by_fitness_desc l : preserves R (sorted_by_fitness_desc l).
Proof.
  unfold sorted_by_fitness_desc. apply pres_bind.
  - apply preserves_map_each; [apply reflexivity | apply transitivity |].
    intros x. apply pres_bind; [apply pres_get_fitness|].
    intros k. apply pres_ret.
  - intros d. destruct l as [|? [|? ?]]; try apply pres_ret.
    destruct (float_keys d); [apply pres_ret | apply pres_raise].
Qed.
End Frames.

Lemma pres_on_world {S A} (R : relation S) `{!Reflexive R} (m : M World A) :
  preserves (on_fst R) (on_world m).
Proof.
  intros [e w] r s' H. unfold on_world in H.
  destruct (m w) as [r0 w']. inversion H; subst.
  unfold on_fst; simpl. reflexivity.
Qed.

(** One bind of a method: the first computation by [t], then the rest. *)
Tactic Notation "pres_then" tactic3(t) :=
  apply pres_bind; [typeclasses eauto | t |].

Ltac pres_world := apply pres_on_world; typeclasses eauto.

Section EngineFrames.
Context (R : relation EvolutionEngine) `{!Reflexive R} `{!Transitive R}.

Lemma pres_get_self : preserves (on_fst R) get_self.
Proof.
  intros [e w] r s' H. inversion H; subst. unfold on_fst. reflexivity.
Qed.

Lemma pres_update_self f :
  (forall e, R e (f e)) -> preserves (on_fst R) (update_self f).
Proof.
  intros Hf [e w] r s' H. inversion H; subst. unfold on_fst; simpl.
  apply Hf.
Qed.

Lemma pres_tournament_selection : preserves (on_fst R) tournament_selection.
Proof.
  unfold tournament_selection.
  pres_then (apply pres_get_self).
  intros self. pres_then pres_world.
  intros t. apply pres_max_by_fitness; typeclasses eauto.
Qed.

Lemma pres_make_offspring : preserves (on_fst R) make_offspring.
Proof.
  unfold make_offspring.
  pres_then (apply pres_get_self). intros self.
  pres_then (apply pres_tournament_selection).
  intros parent1.
  pres_then (apply pres_tournament_selection).
  intros parent2.
  pres_then pres_world. intros r.
  apply pres_bind; [typeclasses eauto | |].
  - destruct (Qltb r (crossover_rate self)); [pres_world|].
    pres_then pres_world. intros r'.
    destruct (Qltb r' 0.5); pres_world.
  - intros offspring.
    pres_then pres_world. intros r''.
    destruct (Qltb r'' (e_mutation_rate self));
      [apply pres_on_world | apply pres_ret]; typeclasses eauto.
Qed.

Lemma pres_fill_population fuel : forall new_population,
  preserves (on_fst R) (fill_population fuel new_population).
Proof.
  induction fuel as [|fuel IH]; intros np; simpl.
  - pres_then (apply pres_get_self). intros self.
    destruct (_ <? _);
      [apply pres_raise | apply pres_ret]; typeclasses eauto.
  - pres_then (apply pres_get_self). intros self.
    destruct (_ <? _); [|apply pres_ret; typeclasses eauto].
    pres_then (apply pres_make_offspring).
    intros offspring. apply IH.
Qed.
End EngineFrames.

(** ** Evaluation of the population *)

Lemma evaluate_agents_ok F l l' :
  evaluate_agents F l = (Ok tt, l') ->
  Forall2 (evaluated F) l l' /\ Forall fitness_set l'.
Proof.
  revert l'. induction l as [|a l IH]; intros l'; simpl.
  - intros H; inversion H; subst. split; constructor.
  - destruct (fitness a) as [| |q] eqn:E; [discriminate| |];
      destruct (evaluate_agents F l) as [r l''] eqn:El; intros H;
      inversion H; subst; destruct (IH _ eq_refl) as [H2 Hset]; split;
      constructor; auto.
    + unfold evaluated. now rewrite E.
    + eexists; reflexivity.
    + unfold evaluated. now rewrite E.
    + exists q. exact E.
Qed.

Lemma evaluate_agents_total F l :
  Forall has_fitness_attr l ->
  exists l', evaluate_agents F l = (Ok tt, l').
Proof.
  induction 1 as [|a l Ha _ [l' IH]]; simpl; [eauto|].
  unfold has_fitness_attr in Ha. rewrite IH.
  destruct (fitness a); [contradiction| |]; eauto.
Qed.

Lemma evaluate_agents_absent F l a :
  a ∈ l -> fitness a = Absent ->
  fst (evaluate_agents F l) = Raise (AttributeError "fitness").
Proof.
  induction 1 as [a l|a b l Hin IH]; intros Ha; simpl.
  - now rewrite Ha.
  - specialize (IH Ha).
    destruct (fitness b); [reflexivity| |];
      destruct (evaluate_agents F l) as [r l'']; exact IH.
Qed.

Lemma evaluate_agents_length F l :
  length (snd (evaluate_agents F l)) = length l.
Proof.
  induction l as [|a l IH]; simpl; [reflexivity|].
  destruct (fitness a); [reflexivity| |];
    destruct (evaluate_agents F l) as [r l'']; simpl in *; congruence.
Qed.

Lemma evaluate_population_run (e : EvolutionEngine) (w : World) :
  evaluate_population (e, w) =
    match fitness_function e with
    | None => (Raise (ValueError "Fitness function is not defined"), (e, w))
    | Some F =>
        let '(r, p) := evaluate_agents F (population e) in
        (match r with
         | Raise x => Raise x
         | Ok _ =>
             match p with
             | [] => Raise (ValueError "zero-size array to reduction operation")
             | _ => Ok tt
             end
         end, (set_population e p, w))
    end.
Proof.
  unfold evaluate_population, bind, get_self.
  destruct (fitness_function e) as [F|]; [|reflexivity].
  destruct (evaluate_agents F (population e)) as [[[]|x] p]; simpl;
    [destruct p|]; reflexivity.
Qed.

(** What [evaluate_population] does where every genome has the attribute
    [fitness].  Without a fitness function it raises the configuration
    error.  With a fitness function [F], a call that returns has given each
    genome whose fitness was [None] the fitness [F genome], has left every
    other genome as it was, and leaves no genome without a float; and the
    call does return on every non-empty population whose genomes have the
    attribute, set or not. *)
Theorem evaluate_population_spec (e : EvolutionEngine) (w : World) :
  match fitness_function e with
  | None =>
      evaluate_population (e, w)
      = (Raise (ValueError "Fitness function is not defined"), (e, w))
  | Some F =>
      (forall e' w',
          evaluate_population (e, w) = (Ok tt, (e', w')) ->
          Forall2 (evaluated F) (population e) (population e')
          /\ Forall fitness_set (population e'))
      /\ (population e <> [] ->
          Forall has_fitness_attr (population e) ->
          exists e', evaluate_population (e, w) = (Ok tt, (e', w)))
  end.
Proof.
  rewrite evaluate_population_run.
  destruct (fitness_function e) as [F|]; [|reflexivity]. split.
  - intros e' w'.
    destruct (evaluate_agents F (population e)) as [[[]|x] p] eqn:E;
      [|discriminate].
    destruct p as [|a p]; [discriminate|].
    intros H; inversion H; subst. simpl.
    now apply evaluate_agents_ok.
  - intros Hne Hattr.
    destruct (evaluate_agents_total F _ Hattr) as [p Hp]. rewrite Hp.
    destruct p as [|a p]; [|eauto].
    pose proof (evaluate_agents_length F (population e)) as Hlen.
    rewrite Hp in Hlen. destruct (population e); [congruence|discriminate].
Qed.

(** ** Sampling and selection *)

Lemma remove_nth_length {A} (l : list A) : forall j,
  (j < length l)%nat -> length (remove_nth j l) = pred (length l).
Proof.
  induction l as [|x l IH]; intros j Hj; simpl in *; [lia|].
  destruct j as [|j]; [reflexivity|]. simpl. rewrite IH by lia.
  destruct l; simpl in *; lia.
Qed.

Lemma remove_nth_elem_of {A} (l : list A) : forall j x,
  x ∈ remove_nth j l -> x ∈ l.
Proof.
  induction l as [|y l IH]; intros j x; destruct j as [|j]; simpl; auto.
  - now right.
  - intros H. apply elem_of_cons in H. destruct H as [->|H]; [left|right].
    eapply IH; eauto.
Qed.

Lemma sample_from_run {A} (k : nat) : forall (pool : list A) w,
  exists l w',
    sample_from k pool w = (Ok l, w')
    /\ uuids w' = uuids w
    /\ length l = Nat.min k (length pool)
    /\ forall x, x ∈ l -> x ∈ pool.
Proof.
  induction k as [|k IH]; intros pool w; simpl.
  - exists [], w. repeat split; auto. intros x Hx. inversion Hx.
  - destruct pool as [|x0 pool'] eqn:Epool.
    + exists [], w. repeat split; auto.
    + rewrite <- Epool.
      set (j := (N.to_nat (rnd w 0%nat) mod length pool)%nat).
      assert (j < length pool)%nat as Hj.
      { apply Nat.mod_upper_bound. subst pool. simpl. lia. }
      destruct (IH (remove_nth j pool)
                   {| rnd := fun n => rnd w (S n); uuids := uuids w |})
        as (l & w' & Hrun & Hu & Hlen & Hin).
      exists (nth j pool x0 :: l), w'.
      split.
      { unfold bind at 1, draw. fold j. unfold bind. rewrite Hrun.
        reflexivity. }
      split; [exact Hu|]. split.
      * simpl. rewrite Hlen, remove_nth_length by exact Hj.
        subst pool. simpl in *. lia.
      * intros x Hx. apply elem_of_cons in Hx. destruct Hx as [->|Hx].
        -- apply list_elem_of_In. now apply nth_In.
        -- eapply remove_nth_elem_of. eauto.
Qed.

Lemma random_sample_run {A} (population : list A) (k : Z) w :
  0 <= k <= Z.of_nat (length population) ->
  exists l w',
    random_sample population k w = (Ok l, w')
    /\ uuids w' = uuids w
    /\ length l = Z.to_nat k
    /\ forall x, x ∈ l -> x ∈ population.
Proof.
  intros Hk. unfold random_sample.
  destruct (k <? 0) eqn:E1; [lia|].
  destruct (Z.of_nat (length population) <? k) eqn:E2; [lia|]. simpl.
  destruct (sample_from_run (Z.to_nat k) population w)
    as (l & w' & Hrun & Hu & Hlen & Hin).
  exists l, w'. repeat split; auto. lia.
Qed.

Lemma random_sample_oversized {A} (population : list A) (k : Z) w :
  Z.of_nat (length population) < k ->
  random_sample population k w
  = (Raise (ValueError "Sample larger than population or is negative"), w).
Proof.
  intros Hk. unfold random_sample.
  destruct (k <? 0); simpl; [reflexivity|].
  destruct (Z.of_nat (length population) <? k) eqn:E; [reflexivity|lia].
Qed.

Lemma max_loop_cons {S} (x : Agent) (l : list Agent) item val (s : S) :
  max_loop (x :: l) item val s
  = match fitness x, val with
    | Absent, _ => (Raise (AttributeError "fitness"), s)
    | Value q, Value v =>
        if Qltb v q then max_loop l x (Value q) s else max_loop l item val s
    | _, _ => (Raise (TypeError "'>' not supported between instances"), s)
    end.
Proof.
  simpl. unfold bind, get_fitness.
  destruct (fitness x) as [| |q]; [reflexivity| |].
  - destruct val; reflexivity.
  - destruct val as [| |v]; try reflexivity.
    simpl. destruct (Qltb v q); reflexivity.
Qed.

Lemma max_loop_set (items : list Agent) : forall maxitem maxval,
  Forall fitness_set items ->
  fitness maxitem = maxval -> fitness_set maxitem ->
  exists b, (b = maxitem \/ b ∈ items)
            /\ forall S (s : S), max_loop items maxitem maxval s = (Ok b, s).
Proof.
  induction items as [|item rest IH]; intros maxitem maxval Hall Hval Hset.
  - exists maxitem. split; [now left|reflexivity].
  - inversion Hall as [|? ? [q Hq] Hrest]; subst.
    destruct Hset as [q0 Hq0].
    destruct (Qltb q0 q) eqn:Hlt.
    + destruct (IH item (Value q) Hrest Hq ltac:(now exists q))
        as (b & Hin & Hb).
      exists b. split.
      * right. destruct Hin as [->|Hin]; [left|now right].
      * intros S s. now rewrite max_loop_cons, Hq, Hq0, Hlt.
    + destruct (IH maxitem (Value q0) Hrest Hq0 ltac:(now exists q0))
        as (b & Hin & Hb).
      exists b. split.
      * destruct Hin as [->|Hin]; [now left|right; now right].
      * intros S s. now rewrite max_loop_cons, Hq, Hq0, Hlt.
Qed.

Lemma max_by_fitness_set (l : list Agent) :
  l <> [] -> Forall fitness_set l ->
  exists b, b ∈ l /\ forall S (s : S), max_by_fitness l s = (Ok b, s).
Proof.
  intros Hne Hall. destruct l as [|item rest]; [congruence|].
  inversion Hall as [|? ? [q Hq] Hrest]; subst.
  destruct (max_loop_set rest item (Value q) Hrest Hq ltac:(now exists q))
    as (b & Hin & Hb).
  exists b. split.
  - destruct Hin as [->|Hin]; [left|now right].
  - intros S s. simpl. unfold get_fitness. rewrite Hq.
    unfold bind, ret. apply Hb.
Qed.

Lemma max_by_fitness_absent {S} (l : list Agent) (s : S) :
  l <> [] -> Forall (fun a => fitness a = Absent) l ->
  max_by_fitness l s = (Raise (AttributeError "fitness"), s).
Proof.
  intros Hne Hall. destruct l as [|item rest]; [congruence|].
  inversion Hall as [|? ? Hq Hrest]; subst. simpl.
  unfold get_fitness. rewrite Hq. reflexivity.
Qed.

Lemma max_loop_absent_member {S} (items : list Agent) (a : Agent) (s : S) :
  a ∈ items -> fitness a = Absent ->
  Forall (fun b => fitness b <> PyNone) items ->
  forall maxitem v,
    max_loop items maxitem (Value v) s = (Raise (AttributeError "fitness"), s).
Proof.
  induction 1 as [a items|a x items Hin IH]; intros Ha Hall maxitem v;
    rewrite max_loop_cons.
  - now rewrite Ha.
  - inversion Hall as [|? ? Hx Hrest]; subst.
    destruct (fitness x) as [| |q]; [reflexivity|congruence|].
    destruct (Qltb v q); now apply IH.
Qed.

(** [max] over agents none of which holds [None]: one agent without the
    attribute is enough for the AttributeError. *)
Lemma max_by_fitness_absent_member {S} (l : list Agent) (a : Agent) (s : S) :
  a ∈ l -> fitness a = Absent ->
  Forall (fun b => fitness b <> PyNone) l ->
  max_by_fitness l s = (Raise (AttributeError "fitness"), s).
Proof.
  intros Hin Ha Hall. destruct l as [|item rest]; [inversion Hin|].
  inversion Hall as [|? ? Hitem Hrest]; subst. simpl.
  unfold bind, get_fitness.
  destruct (fitness item) as [| |q] eqn:E; [reflexivity|congruence|].
  unfold ret. apply elem_of_cons in Hin. destruct Hin as [->|Hin].
  - congruence.
  - now apply (max_loop_absent_member rest a).
Qed.

Lemma tournament_selection_run (e : EvolutionEngine) (w : World) :
  1 <= tournament_size e <= Z.of_nat (length (population e)) ->
  Forall fitness_set (population e) ->
  exists b w',
    tournament_selection (e, w) = (Ok b, (e, w'))
    /\ uuids w' = uuids w /\ b ∈ population e.
Proof.
  intros Hk Hall. unfold tournament_selection.
  unfold bind at 1, get_self.
  destruct (random_sample_run (population e) (tournament_size e) w
              ltac:(lia)) as (t & w' & Hrun & Hu & Hlen & Hin).
  unfold bind, on_world. rewrite Hrun.
  destruct (max_by_fitness_set t) as (b & Hbin & Hb).
  - intros ->. simpl in Hlen. lia.
  - apply Forall_forall. intros x Hx.
    rewrite Forall_forall in Hall. apply Hall, Hin, Hx.
  - exists b, w'. split; [apply Hb|]. split; [exact Hu|]. apply Hin, Hbin.
Qed.

(** A tournament larger than the population is reported by [random.sample],
    when a parent is selected. *)
Lemma tournament_selection_oversized (e : EvolutionEngine) (w : World) :
  Z.of_nat (length (population e)) < tournament_size e ->
  tournament_selection (e, w)
  = (Raise (ValueError "Sample larger than population or is negative"),
     (e, w)).
Proof.
  intros Hk. unfold tournament_selection, bind, get_self, on_world.
  now rewrite random_sample_oversized.
Qed.

(** C3, as the code has it. Constructing an engine never fails: whatever
    the population size, the tournament size and the elitism count, the
    constructor returns an engine that stores them as given.  A tournament
    size that exceeds the population is reported when a parent is selected,
    as the ValueError of [random.sample]. *)
Theorem configuration_unchecked :
  (forall N k pc pm e F w,
      exists engine,
        EvolutionEngine_init N k pc pm e F w = (Ok engine, w)
        /\ population_size engine = N
        /\ tournament_size engine = k
        /\ elitism_count engine = e)
  /\ (forall engine w,
        Z.of_nat (length (population engine)) < tournament_size engine ->
        tournament_selection (engine, w)
        = (Raise (ValueError "Sample larger than population or is negative"),
           (engine, w))).
Proof.
  split.
  - intros N k pc pm e F w.
    destruct (EvolutionEngine_init_total N k pc pm e F w)
      as (engine & H & HN & Hk & He & _).
    exists engine. auto.
  - intros engine w. apply tournament_selection_oversized.
Qed.

(** ** Reading the fitness of a whole list *)

Lemma get_fitness_absent {S} (a : Agent) (s : S) :
  fitness a = Absent -> get_fitness a s = (Raise (AttributeError "fitness"), s).
Proof. intros H. unfold get_fitness. now rewrite H. Qed.

Lemma get_fitness_attr {S} (a : Agent) (s : S) :
  has_fitness_attr a -> get_fitness a s = (Ok (fitness a), s).
Proof.
  unfold has_fitness_attr, get_fitness.
  destruct (fitness a); [contradiction| |]; reflexivity.
Qed.

Lemma map_each_get_fitness_absent {S} (l : list Agent) (a : Agent) (s : S) :
  a ∈ l -> fitness a = Absent ->
  map_each get_fitness l s = (Raise (AttributeError "fitness"), s).
Proof.
  induction 1 as [a l|a b l Hin IH]; intros Ha; simpl.
  - unfold bind. now rewrite get_fitness_absent.
  - unfold bind at 1. unfold get_fitness at 1.
    destruct (fitness b); [reflexivity| |];
      unfold ret at 1, bind; now rewrite IH.
Qed.

Lemma map_each_get_fitness_attr {S} (l : list Agent) (s : S) :
  Forall has_fitness_attr l ->
  map_each get_fitness l s = (Ok (map fitness l), s).
Proof.
  induction 1 as [|a l Ha _ IH]; simpl; [reflexivity|].
  unfold bind. now rewrite get_fitness_attr, IH.
Qed.

Lemma fitness_set_attr (a : Agent) : fitness_set a -> has_fitness_attr a.
Proof. intros [q Hq]. unfold has_fitness_attr. congruence. Qed.

(** C10. [Agent.__init__] and [Agent.crossover] build agents that have the
    field [fitness_score], at 0.0, and no attribute [fitness].  Reading
    [fitness] from such an agent raises AttributeError, and so do
    [evaluate_population] (once a fitness function is there) and the
    recording of the generation statistics, on every population that holds
    such an agent, [tournament_selection] on a population of such agents,
    and the comparison by [max] of any agents among which there is one,
    the others holding floats. *)
Theorem fitness_attribute_missing :
  (forall params gen pids w,
      exists a w', Agent_init params gen pids w = (Ok a, w')
                   /\ fitness_score a = 0%Q /\ fitness a = Absent)
  /\ (forall A B w,
      exists c w', crossover A B w = (Ok c, w')
                   /\ fitness_score c = 0%Q /\ fitness c = Absent)
  /\ (forall (a : Agent) (s : St),
      fitness a = Absent ->
      get_fitness a s = (Raise (AttributeError "fitness"), s))
  /\ (forall e w F a,
      fitness_function e = Some F ->
      a ∈ population e -> fitness a = Absent ->
      fst (evaluate_population (e, w)) = Raise (AttributeError "fitness"))
  /\ (forall e w,
      1 <= tournament_size e <= Z.of_nat (length (population e)) ->
      Forall (fun a => fitness a = Absent) (population e) ->
      fst (tournament_selection (e, w)) = Raise (AttributeError "fitness"))
  /\ (forall e w a,
      a ∈ population e -> fitness a = Absent ->
      fst (_record_generation_stats (e, w))
      = Raise (AttributeError "fitness"))
  /\ (forall (l : list Agent) (a : Agent) (s : St),
      a ∈ l -> fitness a = Absent ->
      Forall (fun b => fitness b <> PyNone) l ->
      max_by_fitness l s = (Raise (AttributeError "fitness"), s)).
Proof.
  repeat apply conj.
  - intros. eexists _, _. split; [reflexivity|]. simpl. auto.
  - intros A B w. destruct (crossover_run A B w) as (p & w' & Hrun & _).
    eexists _, _. split; [exact Hrun|]. simpl. auto.
  - intros a s Ha. now apply get_fitness_absent.
  - intros e w F a HF Hin Ha. rewrite evaluate_population_run, HF.
    pose proof (evaluate_agents_absent F _ _ Hin Ha) as H.
    destruct (evaluate_agents F (population e)) as [r p]. simpl in *.
    now rewrite H.
  - intros e w Hk Hall. unfold tournament_selection.
    unfold bind at 1, get_self.
    destruct (random_sample_run (population e) (tournament_size e) w
                ltac:(lia)) as (t & w' & Hrun & Hu & Hlen & Hin).
    unfold bind, on_world. rewrite Hrun.
    rewrite max_by_fitness_absent; [reflexivity| |].
    + intros ->. simpl in Hlen. lia.
    + apply Forall_forall. intros x Hx.
      rewrite Forall_forall in Hall. apply Hall, Hin, Hx.
  - intros e w a Hin Ha. unfold _record_generation_stats.
    unfold bind at 1, get_self. unfold bind.
    now rewrite (map_each_get_fitness_absent _ _ _ Hin Ha).
  - intros l a s. apply max_by_fitness_absent_member.
Qed.

(** ** What a transition does to the history and to the configuration *)

Lemma pres_add_generation g pop bf af :
  preserves (on_fst ledger_grows) (add_generation g pop bf af).
Proof.
  unfold add_generation.
  apply pres_bind; [typeclasses eauto | |].
  { intros [h w] r s' H. inversion H; subst. unfold on_fst; simpl.
    exists []. simpl. now rewrite app_nil_r. }
  intros _. apply pres_bind; [typeclasses eauto | |].
  { apply pres_max_by_fitness; typeclasses eauto. }
  intros best_agent. apply pres_bind; [typeclasses eauto | |].
  { apply pres_on_world; typeclasses eauto. }
  intros c [h w] r s' H. inversion H; subst. unfold on_fst; simpl.
  now exists [c].
Qed.

Lemma pres_on_history_grows {A} (m : M (EvolutionHistory * World) A) :
  preserves (on_fst ledger_grows) m ->
  preserves (on_fst history_grows) (on_history m).
Proof.
  intros Hm [e w] r s' H. unfold on_history in H.
  destruct (m (history e, w)) as [r0 [h' w']] eqn:E. inversion H; subst.
  unfold on_fst, history_grows; simpl. apply (Hm _ _ _ E).
Qed.

Lemma pres_on_history {A} (R : relation EvolutionEngine)
    (m : M (EvolutionHistory * World) A) :
  (forall e h, R e (set_history e h)) -> preserves (on_fst R) (on_history m).
Proof.
  intros HR [e w] r s' H. unfold on_history in H.
  destruct (m (history e, w)) as [r0 [h' w']] eqn:E. inversion H; subst.
  unfold on_fst; simpl. apply HR.
Qed.

Lemma pres_record_generation_stats (R : relation EvolutionEngine)
    `{!Reflexive R} `{!Transitive R} :
  (forall g pop bf af,
      preserves (on_fst R) (on_history (add_generation g pop bf af))) ->
  preserves (on_fst R) _record_generation_stats.
Proof.
  intros HR. unfold _record_generation_stats.
  pres_then (apply pres_get_self; typeclasses eauto).
  intros self. apply pres_bind; [typeclasses eauto | |].
  { apply preserves_map_each; [apply reflexivity | apply transitivity |].
    intros x. apply pres_get_fitness; typeclasses eauto. }
  intros vs. destruct (float_values vs); [apply pres_ret; typeclasses eauto|].
  apply HR.
Qed.

Lemma pres_evaluate_population (R : relation EvolutionEngine) :
  (forall e p, R e (set_population e p)) ->
  Reflexive R ->
  preserves (on_fst R) evaluate_population.
Proof.
  intros HR Hrefl [e w] r s' H. rewrite evaluate_population_run in H.
  destruct (fitness_function e) as [F|].
  - destruct (evaluate_agents F (population e)) as [r0 p].
    inversion H; subst. unfold on_fst; simpl. apply HR.
  - inversion H; subst. unfold on_fst; simpl. reflexivity.
Qed.

Lemma pres_create_next_generation (R : relation EvolutionEngine)
    `{!Reflexive R} `{!Transitive R} :
  (forall e p, R e (set_population e p)) ->
  (forall e g, R e (set_current_generation e g)) ->
  (forall g pop bf af,
      preserves (on_fst R) (on_history (add_generation g pop bf af))) ->
  preserves (on_fst R) create_next_generation.
Proof.
  intros Hp Hg Hh. unfold create_next_generation.
  apply pres_bind; [typeclasses eauto | |].
  { apply pres_evaluate_population; auto. }
  intros _. pres_then (apply pres_get_self; typeclasses eauto).
  intros self. apply pres_bind; [typeclasses eauto | |].
  { apply pres_sorted_by_fitness_desc; typeclasses eauto. }
  intros sp. apply pres_bind; [typeclasses eauto | |].
  { apply pres_on_world; typeclasses eauto. }
  intros np. apply pres_bind; [typeclasses eauto | |].
  { apply pres_fill_population; typeclasses eauto. }
  intros np'. apply pres_bind; [typeclasses eauto | |].
  { apply pres_update_self. intros e0. apply Hp. }
  intros _. apply pres_bind; [typeclasses eauto | |].
  { apply pres_update_self. intros e0. apply Hg. }
  intros _. apply pres_record_generation_stats; auto.
Qed.

Lemma create_next_generation_history_grows :
  preserves (on_fst history_grows) create_next_generation.
Proof.
  apply pres_create_next_generation; try typeclasses eauto.
  - intros e p. unfold history_grows; simpl. reflexivity.
  - intros e g. unfold history_grows; simpl. reflexivity.
  - intros. apply pres_on_history_grows, pres_add_generation.
Qed.

Lemma create_next_generation_config_kept :
  preserves (on_fst config_kept) create_next_generation.
Proof.
  apply pres_create_next_generation; try typeclasses eauto.
  - intros e p. unfold config_kept; simpl. auto 10.
  - intros e g. unfold config_kept; simpl. auto 10.
  - intros. apply pres_on_history. intros e h.
    unfold config_kept; simpl. auto 10.
Qed.

Lemma pres_evolve_loop (R : relation EvolutionEngine)
    `{!Reflexive R} `{!Transitive R} n :
  preserves (on_fst R) create_next_generation ->
  preserves (on_fst R) (evolve_loop n).
Proof.
  intros H. induction n as [|n IH]; simpl.
  - apply pres_ret; typeclasses eauto.
  - apply pres_bind; [typeclasses eauto | exact H |]. intros _. exact IH.
Qed.

Lemma pres_evolve (R : relation EvolutionEngine)
    `{!Reflexive R} `{!Transitive R} generations :
  preserves (on_fst R) create_next_generation ->
  preserves (on_fst R) (evolve generations).
Proof.
  intros H. unfold evolve.
  apply pres_bind; [typeclasses eauto | now apply pres_evolve_loop |].
  intros _. pres_then (apply pres_get_self; typeclasses eauto).
  intros self. apply pres_ret; typeclasses eauto.
Qed.

(** ** The best agent of the ledger *)

Lemma max_loop_app {S} (l1 l2 : list Agent) : forall item val (s : S),
  fitness item = val ->
  max_loop (l1 ++ l2) item val s
  = bind (max_loop l1 item val) (fun b => max_loop l2 b (fitness b)) s.
Proof.
  induction l1 as [|x l1 IH]; intros item val s Hval.
  - simpl. unfold bind, ret. now rewrite Hval.
  - rewrite <- app_comm_cons. unfold bind. rewrite !max_loop_cons.
    destruct (fitness x) as [| |q] eqn:Ex; [reflexivity| |].
    + destruct val; reflexivity.
    + destruct val as [| |v]; try reflexivity.
      destruct (Qltb v q); apply IH; assumption.
Qed.

Lemma max_loop_mono {S} (l : list Agent) : forall item v (s s' : S) b,
  max_loop l item (Value v) s = (Ok b, s') ->
  fitness item = Value v ->
  exists v', fitness b = Value v' /\ (v <= v')%Q.
Proof.
  induction l as [|x l IH]; intros item v s s' b H Hitem.
  - inversion H; subst. exists v. split; [exact Hitem|apply Qle_refl].
  - rewrite max_loop_cons in H.
    destruct (fitness x) as [| |q] eqn:Ex; try discriminate.
    destruct (Qltb v q) eqn:Hlt.
    + destruct (IH _ _ _ _ _ H Ex) as (v' & Hv' & Hle).
      exists v'. split; [exact Hv'|]. apply Qltb_lt in Hlt. lra.
    + eapply IH; eauto.
Qed.

(** C9. Whatever an [evolve] call does, and however it ends, the fitness of
    the genome that [get_best_agent_ever] returns after the call is at least
    the fitness of the genome it returned before the call. *)
Theorem best_agent_ever_monotone (generations : Z) (e : EvolutionEngine)
    (w : World) (r : result EvolutionHistory) (e' : EvolutionEngine)
    (w' : World) (a a' : Agent) (f f' : Q) :
  evolve generations (e, w) = (r, (e', w')) ->
  get_best_agent_ever (history e) tt = (Ok (Some a), tt) ->
  get_best_agent_ever (history e') tt = (Ok (Some a'), tt) ->
  fitness a = Value f ->
  fitness a' = Value f' ->
  (f <= f')%Q.
Proof.
  intros Hev Hbefore Hafter Hf Hf'.
  destruct (pres_evolve history_grows generations
              create_next_generation_history_grows _ _ _ Hev) as [ext Hext].
  simpl in Hext. unfold get_best_agent_ever in Hbefore, Hafter.
  rewrite Hext in Hafter.
  destruct (best_agent_history (history e)) as [|x l]; [discriminate|].
  simpl in Hafter.
  apply bind_inv_ok in Hbefore. destruct Hbefore as (b & [] & Hb & Hret).
  inversion Hret; subst b. clear Hret.
  apply bind_inv_ok in Hafter. destruct Hafter as (b' & [] & Hb' & Hret).
  inversion Hret; subst b'. clear Hret.
  simpl in Hb. apply bind_inv_ok in Hb.
  destruct Hb as (val & [] & Hval & Hb).
  apply bind_inv_ok in Hb'. destruct Hb' as (val' & [] & Hval' & Hb').
  rewrite Hval in Hval'. inversion Hval'; subst val'. clear Hval'.
  assert (fitness x = val) as Hx.
  { unfold get_fitness in Hval. destruct (fitness x); inversion Hval; auto. }
  rewrite (max_loop_app l ext x val tt Hx) in Hb'.
  rewrite (bind_ok _ _ _ _ _ Hb) in Hb'.
  rewrite Hf in Hb'.
  destruct (max_loop_mono _ _ _ _ _ _ Hb' Hf) as (v' & Hv' & Hle).
  rewrite Hf' in Hv'. inversion Hv'; subst. exact Hle.
Qed.

(** ** The generation transition, step by step *)

Lemma fill_population_ok (fuel : nat) : forall np s np' s',
  fill_population fuel np s = (Ok np', s') ->
  fst s' = fst s
  /\ (exists extra, np' = np ++ extra)
  /\ (Z.of_nat (length np) <= population_size (fst s) ->
      Z.of_nat (length np') = population_size (fst s)).
Proof.
  induction fuel as [|fuel IH]; intros np [e w] np' s' H; simpl in H;
    unfold bind at 1, get_self in H;
    destruct (Z.of_nat (length np) <? population_size e) eqn:E.
  - discriminate.
  - inversion H; subst. simpl. split; [reflexivity|]. split.
    + exists []. now rewrite app_nil_r.
    + lia.
  - bind_ok_inv H as offspring s1 Hoff.
    pose proof (pres_make_offspring eq _ _ _ Hoff) as Hs.
    unfold on_fst in Hs. simpl in Hs. subst e.
    apply IH in H. destruct H as (He & [extra Hextra] & Hlen).
    simpl. split; [exact He|]. split.
    + exists (offspring :: extra). rewrite Hextra, <- app_assoc. reflexivity.
    + intros _. apply Hlen. rewrite length_app. simpl. lia.
  - inversion H; subst. simpl. split; [reflexivity|]. split.
    + exists []. now rewrite app_nil_r.
    + lia.
Qed.

Lemma slice_to_length {A} (l : list A) (n : Z) :
  0 <= n -> length (slice_to l n) = Nat.min (Z.to_nat n) (length l).
Proof.
  intros Hn. unfold slice_to. destruct (0 <=? n) eqn:E; [|lia].
  apply length_firstn.
Qed.

Lemma map_each_clone_run (l : list Agent) : forall w,
  map_each clone l w
  = (Ok (clones_of (uuids w) l),
     {| rnd := rnd w; uuids := fun n => uuids w (length l + n)%nat |}).
Proof.
  induction l as [|a l IH]; intros w; simpl.
  - destruct w; reflexivity.
  - unfold bind. rewrite clone_run, IH. reflexivity.
Qed.

Lemma clones_of_lookup (l : list Agent) : forall ids i a,
  l !! i = Some a -> clones_of ids l !! i = Some (set_id a (ids i)).
Proof.
  induction l as [|b l IH]; intros ids i a; [now rewrite lookup_nil|].
  destruct i as [|i]; simpl.
  - intros H; inversion H; subst. reflexivity.
  - intros H. apply (IH (fun n => ids (S n))). exact H.
Qed.

Lemma clones_of_length (l : list Agent) : forall ids,
  length (clones_of ids l) = length l.
Proof.
  induction l as [|b l IH]; intros ids; simpl; [reflexivity|].
  now rewrite IH.
Qed.

(** What a transition that returns has done. *)
Lemma create_next_generation_ok (e : EvolutionEngine) (w : World) e' w' :
  create_next_generation (e, w) = (Ok tt, (e', w')) ->
  exists F p sorted_population filled,
    fitness_function e = Some F
    /\ evaluate_agents F (population e) = (Ok tt, p)
    /\ p <> []
    /\ sorted_by_fitness_desc p (set_population e p, w)
       = (Ok sorted_population, (set_population e p, w))
    /\ (exists extra,
          filled = clones_of (uuids w)
                     (slice_to sorted_population (elitism_count e)) ++ extra)
    /\ (Z.of_nat (length (slice_to sorted_population (elitism_count e)))
        <= population_size e ->
        Z.of_nat (length filled) = population_size e)
    /\ population e'
       = (if population_size e <? Z.of_nat (length filled)
          then slice_to filled (population_size e) else filled)
    /\ population_size e' = population_size e.
Proof.
  intros H.
  pose proof (create_next_generation_config_kept _ _ _ H) as Hcfg.
  unfold create_next_generation in H.
  bind_ok_inv H as u s0 Hev. rewrite evaluate_population_run in Hev.
  destruct (fitness_function e) as [F|] eqn:EF; [|discriminate].
  destruct (evaluate_agents F (population e)) as [[[]|x] p] eqn:Eev;
    [|discriminate].
  destruct p as [|a0 p0] eqn:Ep; [discriminate|]. rewrite <- Ep in *.
  inversion Hev; subst s0. clear Hev.
  bind_ok_inv H as self s1 Hself. inversion Hself; subst. clear Hself.
  bind_ok_inv H as sp s2 Hsort. simpl in Hsort.
  pose proof (pres_sorted_by_fitness_desc eq _ _ _ _ Hsort) as Hs. subst s2.
  bind_ok_inv H as clones s3 Hclones.
  unfold on_world in Hclones. rewrite map_each_clone_run in Hclones.
  inversion Hclones; subst. clear Hclones.
  bind_ok_inv H as filled s4 Hfill.
  apply fill_population_ok in Hfill. simpl in Hfill.
  destruct Hfill as (Hs & Hextra & Hlen). destruct s4 as [e4 w4].
  simpl in Hs. subst e4.
  bind_ok_inv H as u1 s5 Hup. inversion Hup; subst. clear Hup.
  bind_ok_inv H as u2 s6 Hup. inversion Hup; subst. clear Hup.
  pose proof (pres_record_generation_stats population_kept
                ltac:(intros; apply pres_on_history; intros; reflexivity)
                _ _ _ H) as Hpop.
  unfold on_fst, population_kept in Hpop. simpl in Hpop.
  exists F, (a0 :: p0), sp, filled.
  split; [reflexivity|]. split; [exact Eev|]. split; [discriminate|].
  split; [exact Hsort|]. split; [exact Hextra|]. split.
  - intros Hle. apply Hlen. rewrite clones_of_length. exact Hle.
  - split; [exact Hpop|]. apply Hcfg.
Qed.

(** C1. Take a non-empty population whose fitness values are all set, a
    population size N with the elitism count at most N, and a tournament
    size between 1 and N.  When [create_next_generation] returns, the
    population of the engine has exactly N genomes. *)
Theorem population_size_invariant (e : EvolutionEngine) (w : World)
    (e' : EvolutionEngine) (w' : World) :
  population e <> [] ->
  Forall fitness_set (population e) ->
  elitism_count e <= population_size e ->
  1 <= tournament_size e <= population_size e ->
  create_next_generation (e, w) = (Ok tt, (e', w')) ->
  Z.of_nat (length (population e')) = population_size e.
Proof.
  intros _ _ _ Hk H.
  destruct (create_next_generation_ok _ _ _ _ H)
    as (F & p & sp & filled & _ & _ & _ & _ & [extra Hextra] & Hlen & Hpop & _).
  rewrite Hpop.
  destruct (population_size e <? Z.of_nat (length filled)) eqn:E.
  - apply Z.ltb_lt in E. rewrite slice_to_length by lia. lia.
  - apply Z.ltb_ge in E. apply Hlen.
    rewrite <- (clones_of_length _ (uuids w)).
    rewrite Hextra, length_app in E. lia.
Qed.

(** ** Ranking by fitness *)

Lemma insert_desc_perm x l : insert_desc x l ≡ₚ x :: l.
Proof.
  induction l as [|y l IH]; simpl; [reflexivity|].
  destruct (Qltb (fst x) (fst y)); [|reflexivity].
  rewrite IH. apply Permutation_swap.
Qed.

Lemma sort_desc_perm l : sort_desc l ≡ₚ l.
Proof.
  induction l as [|x l IH]; simpl; [reflexivity|].
  rewrite insert_desc_perm. now rewrite IH.
Qed.

Lemma insert_desc_sorted x l :
  StronglySorted key_above l -> StronglySorted key_above (insert_desc x l).
Proof.
  induction 1 as [|y l Hs IH Hy]; simpl.
  - repeat constructor.
  - destruct (Qltb (fst x) (fst y)) eqn:E.
    + constructor; [exact IH|].
      rewrite insert_desc_perm. constructor; [|exact Hy].
      apply Qltb_lt in E. unfold key_above. lra.
    + apply Qltb_ge in E. constructor; [now constructor|].
      constructor; [exact E|].
      eapply Forall_impl; [exact Hy|]. unfold key_above. intros z Hz.
      simpl in *. lra.
Qed.

Lemma sort_desc_sorted l : StronglySorted key_above (sort_desc l).
Proof.
  induction l as [|x l IH]; simpl; [constructor|].
  now apply insert_desc_sorted.
Qed.

Lemma decorate_set {S} (p : list Agent) (s : S) :
  Forall fitness_set p ->
  map_each (fun x => k <- get_fitness x ;; ret (k, x)) p s
  = (Ok (((fun x => (fitness x, x)) <$> p)), s).
Proof.
  induction 1 as [|a l Ha _ IH]; [reflexivity|].
  rewrite fmap_cons. cbn [map_each].
  assert ((k <- get_fitness a ;; ret (k, a)) s = (Ok (fitness a, a), s)) as Ha'.
  { unfold bind. now rewrite get_fitness_attr by now apply fitness_set_attr. }
  rewrite (bind_ok _ _ _ _ _ Ha'), (bind_ok _ _ _ _ _ IH). reflexivity.
Qed.

Lemma float_keys_set (p : list Agent) :
  Forall fitness_set p ->
  float_keys (((fun x => (fitness x, x)) <$> p))
  = Some (((fun x => (fitness_value x, x)) <$> p)).
Proof.
  induction 1 as [|a l [q Hq] _ IH]; [reflexivity|].
  rewrite !fmap_cons. cbn [float_keys]. rewrite Hq, IH.
  unfold fitness_value. now rewrite Hq.
Qed.

(** On genomes whose fitness is set, [sorted] returns the same genomes,
    ranked from the fittest down. *)
Lemma sorted_by_fitness_desc_set (p : list Agent) :
  Forall fitness_set p ->
  exists sp, sp ≡ₚ p /\ StronglySorted ranks_above sp
             /\ forall S (s : S), sorted_by_fitness_desc p s = (Ok sp, s).
Proof.
  intros Hset.
  assert (forall S (s : S) sp,
             match p with
             | [] | [_] => sp = p
             | _ => sp = (sort_desc ((fun x => (fitness_value x, x)) <$> p)).*2
             end ->
             sorted_by_fitness_desc p s = (Ok sp, s)) as Hrun.
  { intros S s sp Hsp. unfold sorted_by_fitness_desc.
    rewrite (bind_ok _ _ _ _ _ (decorate_set p s Hset)).
    destruct p as [|a [|b p]]; subst sp; try reflexivity.
    now rewrite float_keys_set by exact Hset. }
  destruct p as [|a [|b p]].
  - exists []. split; [reflexivity|]. split; [constructor|].
    intros S s. now apply Hrun.
  - exists [a]. split; [reflexivity|]. split; [repeat constructor|].
    intros S s. now apply Hrun.
  - eexists. split; [|split; [|intros S s; now apply Hrun]].
    + rewrite sort_desc_perm, <- list_fmap_compose.
      now rewrite list_fmap_id.
    + pose proof (sort_desc_sorted
                    ((fun x => (fitness_value x, x)) <$> (a :: b :: p))) as Hs.
      assert (Forall (fun x => fst x = fitness_value (snd x))
                (sort_desc ((fun x => (fitness_value x, x))
                                <$> (a :: b :: p)))) as Hkeys.
      { rewrite sort_desc_perm. apply Forall_fmap, Forall_true.
        intros x. reflexivity. }
      revert Hs Hkeys.
      generalize (sort_desc ((fun x => (fitness_value x, x))
                                 <$> (a :: b :: p))).
      intros d Hs. induction Hs as [|x d Hs IH Hx]; intros Hkeys.
      * constructor.
      * inversion Hkeys as [|? ? Hk Hkd]; subst.
        simpl. constructor; [now apply IH|].
        apply Forall_fmap. rewrite Forall_forall in *.
        intros y Hy. specialize (Hx y Hy). specialize (Hkd y Hy).
        unfold key_above in Hx. unfold ranks_above. simpl.
        rewrite <- Hk, <- Hkd. exact Hx.
Qed.

Lemma evaluated_id F a a' : evaluated F a a' -> id a' = id a.
Proof.
  unfold evaluated. destruct (fitness a); intros ->; reflexivity.
Qed.

(** C8. Let the elitism count be [e >= 0], with no more elites than the
    population size N admits, and let [uuid4] return identifiers that no
    genome of the population carries.  When [create_next_generation]
    returns, the population it was given, once evaluated and ranked from
    the fittest down, has its first [e] genomes standing in the new
    population at the same ranks, each as a clone that differs from the
    original in its identifier only: same [strategy_params], same
    [fitness]. *)
Theorem elitism_fidelity (e : EvolutionEngine) (w : World)
    (e' : EvolutionEngine) (w' : World) :
  0 <= elitism_count e ->
  Z.min (elitism_count e) (Z.of_nat (length (population e)))
    <= population_size e ->
  (forall n a, a ∈ population e -> uuids w n <> id a) ->
  create_next_generation (e, w) = (Ok tt, (e', w')) ->
  exists F evaluated_population ranked,
    fitness_function e = Some F
    /\ Forall2 (evaluated F) (population e) evaluated_population
    /\ sorted_by_fitness_desc evaluated_population tt = (Ok ranked, tt)
    /\ ranked ≡ₚ evaluated_population
    /\ StronglySorted ranks_above ranked
    /\ forall i elite,
        Z.of_nat i < elitism_count e ->
        ranked !! i = Some elite ->
        exists c,
          population e' !! i = Some c
          /\ strategy_params c = strategy_params elite
          /\ fitness c = fitness elite
          /\ c = set_id elite (uuids w i)
          /\ id c <> id elite.
Proof.
  intros He Hmin Hfresh H.
  destruct (create_next_generation_ok _ _ _ _ H)
    as (F & p & sp & filled & HF & Hev & _ & Hsort & [extra Hextra]
        & _ & Hpop & _).
  destruct (evaluate_agents_ok _ _ _ Hev) as [Hev2 Hset].
  destruct (sorted_by_fitness_desc_set p Hset)
    as (sp' & Hperm & Hsorted & Hsort').
  rewrite Hsort' in Hsort. inversion Hsort; subst sp'. clear Hsort.
  exists F, p, sp. repeat (split; [first [assumption|apply Hsort']|]).
  intros i elite Hi Hlook.
  assert (length sp = length (population e)) as Hlen.
  { rewrite (Permutation_length Hperm). symmetry.
    eapply Forall2_length; eauto. }
  assert (i < length sp)%nat as Hilen by (eapply lookup_lt_Some; eauto).
  assert (slice_to sp (elitism_count e) !! i = Some elite) as Helite.
  { unfold slice_to. destruct (0 <=? elitism_count e) eqn:E; [|lia].
    rewrite lookup_take_lt by lia. exact Hlook. }
  pose proof (clones_of_lookup _ (uuids w) _ _ Helite) as Hclone.
  assert (filled !! i = Some (set_id elite (uuids w i))) as Hfilled.
  { rewrite Hextra. now apply lookup_app_l_Some. }
  exists (set_id elite (uuids w i)). split.
  - rewrite Hpop.
    destruct (population_size e <? Z.of_nat (length filled)) eqn:E;
      [|exact Hfilled].
    unfold slice_to. destruct (0 <=? population_size e) eqn:E0; [|lia].
    rewrite lookup_take_lt by lia. exact Hfilled.
  - repeat split. simpl.
    assert (elite ∈ p) as Hin.
    { rewrite <- Hperm. eapply list_elem_of_lookup_2; eauto. }
    destruct (proj1 (list_elem_of_lookup _ _) Hin) as [j Hj].
    destruct (Forall2_lookup_r _ _ _ _ _ Hev2 Hj) as (a0 & Ha0 & Heval).
    rewrite (evaluated_id _ _ _ Heval).
    apply Hfresh. eapply list_elem_of_lookup_2; eauto.
Qed.

(** ** A transition without crossover returns *)

Lemma make_offspring_total (e : EvolutionEngine) (w : World) :
  1 <= tournament_size e <= Z.of_nat (length (population e)) ->
  Forall fitness_set (population e) ->
  Forall (fun a => ints_convert (strategy_params a)) (population e) ->
  (crossover_rate e <= 0)%Q ->
  exists offspring w',
    make_offspring (e, w) = (Ok offspring, (e, w')) /\ fitness_set offspring.
Proof.
  intros Hk Hset Hconv Hpc. unfold make_offspring.
  unfold bind at 1, get_self.
  destruct (tournament_selection_run e w Hk Hset) as (p1 & w1 & H1 & _ & Hp1).
  rewrite (bind_ok _ _ _ _ _ H1).
  destruct (tournament_selection_run e w1 Hk Hset) as (p2 & w2 & H2 & _ & Hp2).
  rewrite (bind_ok _ _ _ _ _ H2).
  destruct (random_random_run w2) as (r & Hr & Hr0 & _).
  rewrite (bind_ok _ _ _ _ _ (on_world_ok _ e _ _ _ Hr)).
  assert (Qltb r (crossover_rate e) = false) as ->.
  { apply Qltb_ge. lra. }
  set (w3 := {| rnd := fun n => rnd w2 (S n); uuids := uuids w2 |}).
  destruct (random_random_run w3) as (r' & Hr' & _).
  set (w4 := {| rnd := fun n => rnd w3 (S n); uuids := uuids w3 |}) in *.
  rewrite Forall_forall in Hset. rewrite Forall_forall in Hconv.
  assert (exists c w5, (r' <- on_world random_random ;;
                        if Qltb r' 0.5 then on_world (clone p1)
                        else on_world (clone p2)) (e, w3)
                       = (Ok c, (e, w5)) /\ fitness_set c
                       /\ ints_convert (strategy_params c))
    as (c & w5 & Hc & Hcset & Hcconv).
  { rewrite (bind_ok _ _ _ _ _ (on_world_ok _ e _ _ _ Hr')).
    destruct (Qltb r' 0.5); eexists _, _;
      (split; [apply on_world_ok, clone_run|]); simpl.
    - split; [|exact (Hconv _ Hp1)].
      destruct (Hset _ Hp1) as [q Hq]. exists q. exact Hq.
    - split; [|exact (Hconv _ Hp2)].
      destruct (Hset _ Hp2) as [q Hq]. exists q. exact Hq. }
  rewrite (bind_ok _ _ _ _ _ Hc).
  destruct (random_random_run w5) as (r'' & Hr'' & _).
  rewrite (bind_ok _ _ _ _ _ (on_world_ok _ e _ _ _ Hr'')).
  destruct (Qltb r'' (e_mutation_rate e)).
  - destruct (mutate_returns c None
                {| rnd := fun n => rnd w5 (S n); uuids := uuids w5 |}
                (or_introl Hcconv))
      as (c' & w6 & Hm).
    eexists _, _. split; [apply on_world_ok; exact Hm|].
    destruct (mutate_ok _ _ _ _ _ Hm) as (_ & -> & _).
    destruct Hcset as [q Hq]. exists q. exact Hq.
  - eexists _, _. split; [reflexivity|exact Hcset].
Qed.

Lemma fill_population_total (e : EvolutionEngine) (fuel : nat) :
  1 <= tournament_size e <= Z.of_nat (length (population e)) ->
  Forall fitness_set (population e) ->
  Forall (fun a => ints_convert (strategy_params a)) (population e) ->
  (crossover_rate e <= 0)%Q ->
  forall np w,
    population_size e - Z.of_nat (length np) <= Z.of_nat fuel ->
    Forall fitness_set np ->
    exists np' w',
      fill_population fuel np (e, w) = (Ok np', (e, w'))
      /\ Forall fitness_set np'.
Proof.
  intros Hk Hset Hconv Hpc.
  induction fuel as [|fuel IH]; intros np w Hfuel Hnp; simpl;
    unfold bind at 1, get_self;
    destruct (Z.of_nat (length np) <? population_size e) eqn:E;
    try (apply Z.ltb_lt in E); try lia;
    try (exists np, w; split; [reflexivity|exact Hnp]).
  destruct (make_offspring_total e w Hk Hset Hconv Hpc)
    as (o & w1 & Ho & Hoset).
  rewrite (bind_ok _ _ _ _ _ Ho).
  apply IH.
  - rewrite length_app. simpl. lia.
  - apply Forall_app. split; [exact Hnp|]. now constructor.
Qed.

Lemma clones_of_set (l : list Agent) : forall ids,
  Forall fitness_set l -> Forall fitness_set (clones_of ids l).
Proof.
  induction l as [|a l IH]; intros ids Hl; simpl; [constructor|].
  inversion Hl as [|? ? [q Hq] Hl']; subst. constructor.
  - exists q. exact Hq.
  - now apply IH.
Qed.

Lemma float_values_set (l : list Agent) :
  Forall fitness_set l -> float_values (map fitness l) = map fitness_value l.
Proof.
  induction 1 as [|a l [q Hq] _ IH]; [reflexivity|].
  unfold float_values in *. simpl. unfold fitness_value at 1.
  rewrite Hq. simpl. f_equal. exact IH.
Qed.

Lemma add_generation_total g pop bf af h w :
  pop <> [] -> Forall fitness_set pop ->
  exists h' w', add_generation g pop bf af (h, w) = (Ok tt, (h', w')).
Proof.
  intros Hne Hset. unfold add_generation.
  destruct (max_by_fitness_set pop Hne Hset) as (b & _ & Hb).
  erewrite bind_ok by reflexivity.
  erewrite bind_ok by apply Hb.
  erewrite bind_ok by (apply on_world_ok, clone_run).
  eauto.
Qed.

Lemma record_generation_stats_total (e : EvolutionEngine) (w : World) :
  Forall fitness_set (population e) ->
  exists e' w', _record_generation_stats (e, w) = (Ok tt, (e', w')).
Proof.
  intros Hset. unfold _record_generation_stats.
  unfold bind at 1, get_self.
  rewrite (bind_ok _ _ _ _ _
             (map_each_get_fitness_attr (population e) (e, w)
                (Forall_impl _ _ _ Hset fitness_set_attr))).
  rewrite float_values_set by exact Hset.
  destruct (map fitness_value (population e)) as [|x xs] eqn:Ep;
    [simpl; eauto|].
  assert (population e <> []) as Hne.
  { intros Hnil. rewrite Hnil in Ep. discriminate. }
  unfold on_history.
  match goal with
  | |- context [add_generation ?g ?pop ?bf ?af (?h, ?w0)] =>
      destruct (add_generation_total g pop bf af h w0 Hne Hset)
        as (h' & w' & Hadd)
  end.
  rewrite Hadd. eauto.
Qed.

Lemma evaluated_strategy_params F a a' :
  evaluated F a a' -> strategy_params a' = strategy_params a.
Proof.
  unfold evaluated. destruct (fitness a); intros ->; reflexivity.
Qed.

(** With a fitness function, a population that is not empty, in which every
    genome has the attribute [fitness] and integer parameters that convert
    to floats, and that is large enough for the tournament, the transition
    returns whenever no crossover is drawn, as is the case with a crossover
    rate of 0. *)
Lemma create_next_generation_returns (e : EvolutionEngine) (w : World) F :
  fitness_function e = Some F ->
  population e <> [] ->
  Forall has_fitness_attr (population e) ->
  Forall (fun a => ints_convert (strategy_params a)) (population e) ->
  1 <= tournament_size e <= Z.of_nat (length (population e)) ->
  (crossover_rate e <= 0)%Q ->
  exists e' w', create_next_generation (e, w) = (Ok tt, (e', w')).
Proof.
  intros HF Hne Hattr Hconv0 Hk Hpc. unfold create_next_generation.
  destruct (evaluate_agents_total F _ Hattr) as [p Hp].
  destruct (evaluate_agents_ok _ _ _ Hp) as [Hev Hset].
  assert (Forall (fun a => ints_convert (strategy_params a)) p) as Hconv.
  { clear -Hev Hconv0. induction Hev as [|a a' l l' Ha _ IH];
      [constructor|].
    inversion Hconv0; subst. constructor; [|now apply IH].
    now rewrite (evaluated_strategy_params _ _ _ Ha). }
  assert (length p = length (population e)) as Hlen.
  { symmetry. eapply Forall2_length; eauto. }
  assert (evaluate_population (e, w) = (Ok tt, (set_population e p, w)))
    as Heval.
  { rewrite evaluate_population_run, HF, Hp.
    destruct p; [|reflexivity].
    destruct (population e); [congruence|discriminate]. }
  rewrite (bind_ok _ _ _ _ _ Heval). unfold bind at 1, get_self.
  destruct (sorted_by_fitness_desc_set p Hset) as (sp & Hperm & _ & Hsort).
  simpl population at 1. rewrite (bind_ok _ _ _ _ _ (Hsort _ _)).
  rewrite (bind_ok _ _ _ _ _
             (on_world_ok _ _ _ _ _ (map_each_clone_run _ w))).
  assert (Forall fitness_set
            (clones_of (uuids w)
               (slice_to sp (elitism_count (set_population e p)))))
    as Hclones.
  { apply clones_of_set. unfold slice_to.
    rewrite <- Hperm in Hset.
    destruct (0 <=? _); now apply Forall_take. }
  destruct (fill_population_total (set_population e p)
              (Z.to_nat (population_size (set_population e p)))
              ltac:(simpl; lia) Hset Hconv Hpc _
              {| rnd := rnd w;
                 uuids := fun n =>
                   uuids w (length (slice_to sp
                              (elitism_count (set_population e p))) + n)%nat |}
              ltac:(simpl; lia) Hclones)
    as (filled & w1 & Hfill & Hfilled).
  rewrite (bind_ok _ _ _ _ _ Hfill).
  unfold bind at 1, update_self. unfold bind at 1.
  apply record_generation_stats_total. simpl.
  destruct (_ <? _); [|exact Hfilled].
  unfold slice_to. destruct (0 <=? _); now apply Forall_take.
Qed.

(** ** The fuel of the loop is enough *)

Lemma fuel_free_ret {S A} (a : A) : fuel_free (@ret S A a).
Proof. intros s s' H. discriminate. Qed.

Lemma fuel_free_raise {S A} (e : exn) :
  e <> OutOfFuel -> fuel_free (@raise S A e).
Proof. intros He s s' H. inversion H. contradiction. Qed.

Lemma fuel_free_bind {S A B} (m : M S A) (k : A -> M S B) :
  fuel_free m -> (forall a, fuel_free (k a)) -> fuel_free (bind m k).
Proof.
  intros Hm Hk s s' H. apply bind_inv in H.
  destruct H as [(a & s1 & _ & H2) | (e & H1 & He)].
  - exact (Hk a _ _ H2).
  - inversion He; subst. exact (Hm _ _ H1).
Qed.

Lemma fuel_free_for_each {S A B} (body : B -> A -> M S B) l :
  (forall acc x, fuel_free (body acc x)) ->
  forall acc, fuel_free (for_each body l acc).
Proof.
  intros Hb. induction l as [|x l IH]; intros acc; simpl.
  - apply fuel_free_ret.
  - apply fuel_free_bind; auto.
Qed.

Lemma fuel_free_map_each {S A B} (f : A -> M S B) l :
  (forall x, fuel_free (f x)) -> fuel_free (map_each f l).
Proof.
  intros Hf. induction l as [|x l IH]; simpl.
  - apply fuel_free_ret.
  - apply fuel_free_bind; auto. intros y.
    apply fuel_free_bind; auto. intros ys. apply fuel_free_ret.
Qed.

Lemma fuel_free_on_world {S A} (m : M World A) :
  fuel_free m -> fuel_free (@on_world S A m).
Proof.
  intros Hm [s w] s' H. unfold on_world in H.
  destruct (m w) as [r w'] eqn:E. inversion H; subst.
  exact (Hm _ _ E).
Qed.

Lemma fuel_free_total {S A} (m : M S A) :
  (forall s, exists a s', m s = (Ok a, s')) -> fuel_free m.
Proof. intros Hm s s' H. destruct (Hm s) as (a & s1 & E). congruence. Qed.

Create HintDb fuel.

(** Go through the binds and the branches of a computation. *)
Ltac fuel_free :=
  repeat first
    [ solve [auto with fuel]
    | apply fuel_free_ret
    | apply fuel_free_raise; discriminate
    | apply fuel_free_bind; [|intros ?]
    | apply fuel_free_on_world
    | apply fuel_free_for_each; intros ? ?
    | apply fuel_free_map_each; intros ?
    | match goal with
      | |- fuel_free (if ?b then _ else _) => destruct b
      | |- fuel_free (match ?x with _ => _ end) => destruct x
      end ].

Lemma fuel_free_draw : fuel_free draw.
Proof. intros s s' H. discriminate. Qed.
#[export] Hint Resolve fuel_free_draw : fuel.

Lemma fuel_free_uuid4 : fuel_free uuid4.
Proof. intros s s' H. discriminate. Qed.
#[export] Hint Resolve fuel_free_uuid4 : fuel.

Lemma fuel_free_random_random : fuel_free random_random.
Proof. unfold random_random. fuel_free. Qed.
#[export] Hint Resolve fuel_free_random_random : fuel.

Lemma fuel_free_random_randint a b : fuel_free (random_randint a b).
Proof. unfold random_randint. fuel_free. Qed.
#[export] Hint Resolve fuel_free_random_randint : fuel.

Lemma fuel_free_random_uniform a b : fuel_free (random_uniform a b).
Proof. unfold random_uniform. fuel_free. Qed.
#[export] Hint Resolve fuel_free_random_uniform : fuel.

Lemma fuel_free_random_sample {A} (l : list A) k :
  fuel_free (random_sample l k).
Proof.
  unfold random_sample. destruct (_ || _); [fuel_free|].
  apply fuel_free_total. intros w.
  destruct (sample_from_run (Z.to_nat k) l w) as (r & w' & H & _). eauto.
Qed.
#[export] Hint Resolve fuel_free_random_sample : fuel.

Lemma fuel_free_clone a : fuel_free (clone a).
Proof. unfold clone. fuel_free. Qed.
#[export] Hint Resolve fuel_free_clone : fuel.

Lemma fuel_free_mutate a rate : fuel_free (mutate a rate).
Proof.
  intros w w' H. rewrite mutate_unfold in H.
  destruct (mutate_in_place rate (a, w)) as [[[]|x] [s1 w1]] eqn:E;
    simpl in H; [discriminate|].
  inversion H; subst.
  destruct (mutate_in_place_cases _ _ _ _ _ _ E) as (_ & _ & _ & Hraise).
  destruct (Hraise _ eq_refl) as (Hx & _). discriminate.
Qed.
#[export] Hint Resolve fuel_free_mutate : fuel.

Lemma fuel_free_get_fitness {S} a : fuel_free (@get_fitness S a).
Proof. unfold get_fitness. fuel_free. Qed.
#[export] Hint Resolve fuel_free_get_fitness : fuel.

Lemma fuel_free_py_gt {S} a b : fuel_free (@py_gt S a b).
Proof. unfold py_gt. fuel_free. Qed.
#[export] Hint Resolve fuel_free_py_gt : fuel.

Lemma fuel_free_max_loop {S} items : forall maxitem maxval,
  fuel_free (@max_loop S items maxitem maxval).
Proof.
  induction items as [|item rest IH]; intros maxitem maxval; simpl;
    fuel_free; apply IH.
Qed.
#[export] Hint Resolve fuel_free_max_loop : fuel.

Lemma fuel_free_max_by_fitness {S} l : fuel_free (@max_by_fitness S l).
Proof. unfold max_by_fitness. fuel_free. Qed.
#[export] Hint Resolve fuel_free_max_by_fitness : fuel.

Lemma fuel_free_get_self : fuel_free get_self.
Proof. intros [e w] s' H. discriminate. Qed.
#[export] Hint Resolve fuel_free_get_self : fuel.

Lemma fuel_free_update_self f : fuel_free (update_self f).
Proof. intros [e w] s' H. discriminate. Qed.
#[export] Hint Resolve fuel_free_update_self : fuel.

Lemma fuel_free_tournament_selection : fuel_free tournament_selection.
Proof. unfold tournament_selection. fuel_free. Qed.
#[export] Hint Resolve fuel_free_tournament_selection : fuel.

Lemma fuel_free_make_offspring : fuel_free make_offspring.
Proof. unfold make_offspring, crossover_bound_call. fuel_free. Qed.
#[export] Hint Resolve fuel_free_make_offspring : fuel.

Lemma fuel_free_sorted_by_fitness_desc {S} l :
  fuel_free (@sorted_by_fitness_desc S l).
Proof. unfold sorted_by_fitness_desc. fuel_free. Qed.
#[export] Hint Resolve fuel_free_sorted_by_fitness_desc : fuel.

Lemma fuel_free_evaluate_population : fuel_free evaluate_population.
Proof.
  intros [e w] s' H. rewrite evaluate_population_run in H.
  destruct (fitness_function e) as [F|]; [|discriminate].
  pose proof (evaluate_agents_absent F (population e)) as Habs.
  destruct (evaluate_agents F (population e)) as [[[]|x] p] eqn:E.
  - destruct p; discriminate.
  - inversion H; subst. clear H.
    assert (forall l r l', evaluate_agents F l = (r, l') ->
                           r <> Raise OutOfFuel) as Hgen.
    { clear. induction l as [|a l IH]; intros r l' H; simpl in H.
      - inversion H. discriminate.
      - destruct (fitness a); [inversion H; discriminate| |];
          destruct (evaluate_agents F l) as [r0 l0]; inversion H; subst;
          eapply IH; eauto. }
    exact (Hgen _ _ _ E eq_refl).
Qed.
#[export] Hint Resolve fuel_free_evaluate_population : fuel.

Lemma fuel_free_add_generation g pop bf af :
  fuel_free (add_generation g pop bf af).
Proof.
  unfold add_generation.
  apply fuel_free_bind; [intros [h w] s' H; discriminate|]. intros _.
  apply fuel_free_bind; [apply fuel_free_max_by_fitness|]. intros b.
  apply fuel_free_bind; [fuel_free|]. intros c [h w] s' H. discriminate.
Qed.

Lemma fuel_free_record_generation_stats : fuel_free _record_generation_stats.
Proof.
  unfold _record_generation_stats.
  apply fuel_free_bind; [fuel_free|]. intros self.
  apply fuel_free_bind; [fuel_free|]. intros vs.
  destruct (float_values vs); [fuel_free|].
  intros [e w] s' H. unfold on_history in H.
  destruct (add_generation _ _ _ _ _) as [r [h' w']] eqn:E.
  inversion H; subst. exact (fuel_free_add_generation _ _ _ _ _ _ E).
Qed.
#[export] Hint Resolve fuel_free_record_generation_stats : fuel.

Lemma fill_population_fuel (fuel : nat) : forall np s s',
  population_size (fst s) - Z.of_nat (length np) <= Z.of_nat fuel ->
  fill_population fuel np s <> (Raise OutOfFuel, s').
Proof.
  induction fuel as [|fuel IH]; intros np [e w] s' Hfuel H; simpl in *;
    unfold bind at 1, get_self in H;
    destruct (Z.of_nat (length np) <? population_size e) eqn:E;
    try (apply Z.ltb_lt in E); try lia; try discriminate.
  apply bind_inv in H. destruct H as [(o & s1 & Ho & H) | (x & Ho & Hx)].
  - pose proof (pres_make_offspring eq _ _ _ Ho) as Hs.
    unfold on_fst in Hs. simpl in Hs.
    revert H. apply IH. rewrite <- Hs, length_app. simpl. lia.
  - inversion Hx; subst. exact (fuel_free_make_offspring _ _ Ho).
Qed.

(** The transition never stops for want of fuel: [OutOfFuel] is no
    outcome of [create_next_generation]. *)
Lemma create_next_generation_fuel : fuel_free create_next_generation.
Proof.
  intros [e w] s' H. unfold create_next_generation in H.
  apply bind_inv in H. destruct H as [(u & s0 & Hev & H) | (x & Hev & Hx)];
    [|inversion Hx; subst; exact (fuel_free_evaluate_population _ _ Hev)].
  apply bind_inv in H.
  destruct H as [(self & s1 & Hself & H) | (x & Hself & Hx)];
    [|inversion Hx; subst; exact (fuel_free_get_self _ _ Hself)].
  destruct s0 as [e0 w0]. inversion Hself; subst. clear Hself.
  apply bind_inv in H. destruct H as [(sp & s2 & Hsort & H) | (x & Hsort & Hx)];
    [|inversion Hx; subst;
      exact (fuel_free_sorted_by_fitness_desc _ _ _ Hsort)].
  pose proof (pres_sorted_by_fitness_desc eq _ _ _ _ Hsort) as Hs. subst s2.
  apply bind_inv in H. destruct H as [(np & s3 & Hcl & H) | (x & Hcl & Hx)].
  2:{ inversion Hx; subst. revert Hcl. apply fuel_free_on_world.
      apply fuel_free_map_each. intros a. apply fuel_free_clone. }
  pose proof (pres_on_world eq _ _ _ _ Hcl) as Hs.
  unfold on_fst in Hs. simpl in Hs. destruct s3 as [e3 w3]. simpl in Hs.
  subst e3.
  apply bind_inv in H.
  destruct H as [(filled & s4 & Hfill & H) | (x & Hfill & Hx)].
  - match type of H with
    | ?m ?s = _ => assert (fuel_free m) as Hc by fuel_free; exact (Hc _ _ H)
    end.
  - inversion Hx; subst. revert Hfill. apply fill_population_fuel. simpl. lia.
Qed.

(** ** The claims at concrete inputs *)


(** The integer branch of [mutate] at large values.  The float nearest to
    10^17 - 1 is 10^17, and its tenth is 10^16, one more than the integer
    quotient; 10^400 does not convert to a float, and [mutate] raises
    OverflowError on a genome that holds it. *)
Lemma mutate_large_integers :
  float_of_int (10 ^ 17 - 1) = Some (10 ^ 17)
  /\ int_of_tenth (10 ^ 17) = 10 ^ 16
  /\ (10 ^ 17 - 1) / 10 = 10 ^ 16 - 1
  /\ float_of_int (10 ^ 400) = None
  /\ fst (mutate oversized_genome (Some 1%Q) world0)
     = Raise (OverflowError "int too large to convert to float").
Proof. repeat split; vm_compute; reflexivity. Qed.


(** C3, counterexample. An engine for a population of 2 with a tournament
    size of 5 and an elitism count of 3 is constructed without any error. *)
Lemma oversized_configuration_counterexample :
  exists engine,
    EvolutionEngine_init 2 5 0.7 0.1 3 None world0 = (Ok engine, world0)
    /\ population_size engine < tournament_size engine
    /\ population_size engine < elitism_count engine.
Proof.
  eexists. split; [reflexivity|]. simpl. lia.
Qed.

(** C4, counterexample. A genome scored 20 (in [fitness_score] and in the
    attribute the engine assigns) still carries 20 in its clone, and still
    carries 20 itself after a mutation that changed its parameter. *)
Lemma fitness_not_reset_counterexample :
  exists c m,
    fst (clone scored_genome world0) = Ok c
    /\ fitness c = Value 20 /\ fitness_score c = 20%Q
    /\ fst (mutate scored_genome (Some 1%Q) world0) = Ok m
    /\ strategy_params scored_genome !! "period" = Some (PInt 20)
    /\ strategy_params m !! "period" = Some (PInt 19)
    /\ fitness m = Value 20 /\ fitness_score m = 20%Q.
Proof.
  eexists _, _.
  split; [vm_compute; reflexivity|].
  split; [reflexivity|]. split; [reflexivity|].
  split; [vm_compute; reflexivity|].
  repeat split; vm_compute; reflexivity.
Qed.

(** C4 at a genome scored 20 on which [mutate] raises: the receiver still
    carries 20. *)
Lemma fitness_after_operators_witness :
  fst (mutate_in_place (Some 1%Q) (oversized_genome, world0))
  = Raise (OverflowError "int too large to convert to float")
  /\ fitness (fst (snd (mutate_in_place (Some 1%Q)
                          (oversized_genome, world0)))) = Value 20.
Proof.
  split; [vm_compute; reflexivity|].
  destruct (fitness_after_operators oversized_genome oversized_genome
              (Some 1%Q) world0) as (_ & H & _).
  pose (run := mutate_in_place (Some 1%Q) (oversized_genome, world0)).
  destruct (H (fst run) (fst (snd run)) (snd (snd run))) as [Hf _].
  - vm_compute. reflexivity.
  - exact Hf.
Defined.

(** C7, failing input. An engine with a fitness function, whose population
    [initialize_population] builds with [Agent.__init__], cannot evaluate
    it: the first read of [fitness] raises AttributeError, though the
    fitness of these genomes has never been set. *)
Lemma evaluate_population_fresh_agents :
  fst ((initialize_population (Agent_init {["period" := PInt 5]} 0 None) ;;;
        evaluate_population)
         (engine_of (Some sum_of_integers) [], world0))
  = Raise (AttributeError "fitness").
Proof. vm_compute. reflexivity. Qed.

(** C1 at a population of three scored genomes, N = 3, e = 1, k = 2. *)
Lemma population_size_invariant_witness :
  Z.of_nat (length (population
     (fst (snd (create_next_generation
                  (engine_of (Some sum_of_integers) scored_population,
                   world0))))))
  = 3.
Proof.
  apply (population_size_invariant
           (engine_of (Some sum_of_integers) scored_population) world0 _
           (snd (snd (create_next_generation
                        (engine_of (Some sum_of_integers) scored_population,
                         world0))))).
  - discriminate.
  - repeat constructor; eexists; reflexivity.
  - simpl. lia.
  - simpl. lia.
  - vm_compute. reflexivity.
Defined.

(** C5 at two genomes that share one key and hold one key each alone. *)
Lemma crossover_key_coverage_witness :
  exists child,
    fst (crossover
           (genome "a" (<["fast" := PInt 1]> {["period" := PInt 5]}) PyNone)
           (genome "b" (<["slow" := PInt 9]> {["period" := PInt 20]}) PyNone)
           world0) = Ok child
    /\ strategy_params child !! "fast" = Some (PInt 1)
    /\ strategy_params child !! "slow" = Some (PInt 9)
    /\ (strategy_params child !! "period" = Some (PInt 5)
        \/ strategy_params child !! "period" = Some (PInt 20)).
Proof.
  destruct (crossover_key_coverage
              (genome "a" (<["fast" := PInt 1]> {["period" := PInt 5]}) PyNone)
              (genome "b" (<["slow" := PInt 9]> {["period" := PInt 20]}) PyNone)
              world0)
    as (child & w' & Hrun & _ & Honly1 & Honly2 & Hboth & _).
  exists child. rewrite Hrun. split; [reflexivity|].
  split; [apply Honly1; vm_compute; reflexivity|].
  split; [apply Honly2; vm_compute; reflexivity|].
  apply Hboth; vm_compute; reflexivity.
Defined.

(** [evaluate_population_spec] at a population with one genome still to
    score. *)
Lemma evaluate_population_spec_witness :
  (exists e',
      evaluate_population
        (engine_of (Some sum_of_integers) unscored_population, world0)
      = (Ok tt, (e', world0)))
  /\ evaluate_population (engine_of None unscored_population, world0)
     = (Raise (ValueError "Fitness function is not defined"),
        (engine_of None unscored_population, world0)).
Proof.
  split.
  - pose proof (evaluate_population_spec
                  (engine_of (Some sum_of_integers) unscored_population)
                  world0) as H.
    simpl in H. destruct H as [_ H]. apply H.
    + discriminate.
    + repeat constructor; discriminate.
  - exact (evaluate_population_spec (engine_of None unscored_population)
                                    world0).
Defined.

(** C8 at a population of three scored genomes and one elite. *)
Lemma elitism_fidelity_witness :
  exists c,
    population
      (fst (snd (create_next_generation
                   (engine_of (Some sum_of_integers) scored_population,
                    world0)))) !! 0%nat = Some c
    /\ strategy_params c = {["period" := PInt 20]}
    /\ fitness c = Value 20
    /\ id c <> "g2".
Proof.
  destruct (elitism_fidelity
              (engine_of (Some sum_of_integers) scored_population) world0
              (fst (snd (create_next_generation
                   (engine_of (Some sum_of_integers) scored_population,
                    world0))))
              (snd (snd (create_next_generation
                   (engine_of (Some sum_of_integers) scored_population,
                    world0)))))
    as (F & ev & ranked & _ & Hev & Hsort & _ & _ & Hc).
  - simpl. lia.
  - simpl. lia.
  - intros n a Ha. simpl in Ha.
    repeat (apply elem_of_cons in Ha; destruct Ha as [->|Ha]);
      [discriminate..|inversion Ha].
  - vm_compute. reflexivity.
  - simpl in Hev.
    repeat match goal with
           | H : Forall2 _ _ _ |- _ => inversion H; subst; clear H
           end.
    unfold evaluated in *. simpl in *. subst.
    vm_compute in Hsort. inversion Hsort; subst. clear Hsort.
    destruct (Hc 0%nat _ ltac:(simpl; lia) eq_refl)
      as (c & Hlook & Hparams & Hfit & _ & Hid).
    exists c. split; [exact Hlook|]. split; [exact Hparams|].
    split; [exact Hfit|exact Hid].
Defined.

(** C9 at an engine that has run one transition and then evolves for two
    more generations: the best agent ever has fitness 20 before and after. *)
Lemma best_agent_ever_monotone_witness : (20 <= 20)%Q.
Proof.
  pose (s1 := snd (create_next_generation
                     (engine_of (Some sum_of_integers) scored_population,
                      world0))).
  pose (run := evolve 2 (fst s1, snd s1)).
  pose (best := fun h : EvolutionHistory =>
                  match fst (get_best_agent_ever h tt) with
                  | Ok (Some x) => x
                  | _ => genome "" ∅ Absent
                  end).
  apply (best_agent_ever_monotone 2 (fst s1) (snd s1) (fst run)
           (fst (snd run)) (snd (snd run))
           (best (history (fst s1))) (best (history (fst (snd run))))).
  - vm_compute. reflexivity.
  - vm_compute. reflexivity.
  - vm_compute. reflexivity.
  - vm_compute. reflexivity.
  - vm_compute. reflexivity.
Defined.

(** C10 at populations of agents as [__init__] leaves them. *)
Lemma fitness_attribute_missing_witness :
  fst (evaluate_population
         (engine_of (Some sum_of_integers)
                    [genome "g1" {["period" := PInt 5]} (Value 5);
                     genome "g2" {["period" := PInt 20]} Absent], world0))
  = Raise (AttributeError "fitness")
  /\ fst (tournament_selection
            (engine_of (Some sum_of_integers)
                       [genome "g1" {["period" := PInt 5]} Absent;
                        genome "g2" {["period" := PInt 20]} Absent], world0))
     = Raise (AttributeError "fitness")
  /\ fst (_record_generation_stats
            (engine_of (Some sum_of_integers)
                       [genome "g1" {["period" := PInt 5]} (Value 5);
                        genome "g2" {["period" := PInt 20]} Absent], world0))
     = Raise (AttributeError "fitness").
Proof.
  destruct fitness_attribute_missing as (_ & _ & _ & Hev & Hts & Hrec & _).
  split; [|split].
  - apply (Hev _ _ sum_of_integers
               (genome "g2" {["period" := PInt 20]} Absent)).
    + reflexivity.
    + simpl. right. left.
    + reflexivity.
  - apply Hts.
    + simpl. lia.
    + simpl. repeat constructor.
  - apply (Hrec _ _ (genome "g2" {["period" := PInt 20]} Absent)).
    + simpl. right. left.
    + reflexivity.
Defined.

(** C3 at an engine for tournaments of five with a population of two. *)
Lemma configuration_unchecked_witness :
  fst (tournament_selection
         (set_population
            {| population_size := 2; tournament_size := 5;
               crossover_rate := 0.7; e_mutation_rate := 0.1;
               elitism_count := 3; fitness_function := None;
               population := []; history := EvolutionHistory_init;
               current_generation := 0 |}
            [genome "g1" {["period" := PInt 5]} (Value 5);
             genome "g2" {["period" := PInt 20]} (Value 20)], world0))
  = Raise (ValueError "Sample larger than population or is negative").
Proof.
  destruct configuration_unchecked as [_ H].
  rewrite H; [reflexivity|]. simpl. lia.
Defined.

(** * Further properties of the code *)

(** ** Mutation at any rate *)


Lemma set_strategy_params_same (a : Agent) :
  set_strategy_params a (strategy_params a) = a.
Proof. now destruct a. Qed.

(** X2. With a rate of 0 or less, given or taken from the agent, [mutate]
    changes nothing: the agent it leaves is the agent it was given. *)
Theorem mutate_rate_zero (self : Agent) (rate : option Q) (w : World) :
  (match rate with
   | Some r => r
   | None => mutation_rate self
   end <= 0)%Q ->
  fst (mutate self rate w) = Ok self.
Proof.
  intros Hrate.
  destruct (mutate_returns self rate w (or_intror Hrate)) as (self' & w' & H).
  rewrite H. simpl. f_equal.
  destruct (mutate_ok _ _ _ _ _ H) as (Hin & Hs & _).
  destruct (mutate_in_place_cases _ _ _ _ _ _ Hin) as (_ & _ & Hk & _).
  assert (strategy_params self' = strategy_params self) as Hp.
  { apply map_eq. intros k. specialize (Hk k).
    destruct (strategy_params self !! k) as [v|]; [|exact Hk].
    destruct Hk as (v' & -> & _ & H0 & _). now rewrite (H0 Hrate). }
  rewrite Hs, Hp. apply set_strategy_params_same.
Qed.

(** ** Crossover of like parents *)

(** X3. When the two parents have the same strategy parameters, as when a
    genome is crossed with itself, the child has these parameters too,
    whatever the draws. *)
Theorem crossover_same_params (A B : Agent) (w : World) :
  strategy_params A = strategy_params B ->
  exists child w',
    crossover A B w = (Ok child, w')
    /\ strategy_params child = strategy_params A.
Proof.
  intros Hsame.
  destruct (crossover_run A B w) as (np & w1 & Hrun & Hk).
  eexists _, _. split; [exact Hrun|]. simpl.
  apply map_eq. intros k. specialize (Hk k). unfold inherits in Hk.
  rewrite <- Hsame in Hk.
  destruct (strategy_params A !! k) as [v|]; [|exact Hk].
  now destruct Hk.
Qed.

(** ** Snapshots, the other way round *)

(** X4. Reading an agent from a snapshot and taking its snapshot again
    gives the snapshot one started from, entry by entry. *)
Theorem to_dict_from_dict (data : AgentDict) (w : World) :
  exists agent w',
    from_dict data w = (Ok agent, w') /\ to_dict agent = data.
Proof.
  eexists _, _. split; [reflexivity|].
  destruct data as [i g p sp m fs mr ie ac]. unfold to_dict. simpl.
  f_equal. now destruct p.
Qed.

(** ** The maximum by fitness *)

Lemma max_loop_ok {S} (l : list Agent) : forall item val (s s' : S) b,
  max_loop l item val s = (Ok b, s') ->
  fitness item = val ->
  s' = s
  /\ (b = item \/ b ∈ l)
  /\ (fitness_value item <= fitness_value b)%Q
  /\ Forall (fun a => (fitness_value a <= fitness_value b)%Q) l
  /\ (l <> [] -> fitness_set b /\ Forall fitness_set l /\ fitness_set item).
Proof.
  induction l as [|x l IH]; intros item val s s' b H Hitem.
  - inversion H; subst. split; [reflexivity|]. split; [now left|].
    split; [apply Qle_refl|]. split; [constructor|]. congruence.
  - rewrite max_loop_cons in H.
    destruct (fitness x) as [| |q] eqn:Ex; try discriminate.
    destruct val as [| |v]; try discriminate.
    assert (fitness_value x = q) as Hxq
        by (unfold fitness_value; now rewrite Ex).
    assert (fitness_value item = v) as Hiv
        by (unfold fitness_value; now rewrite Hitem).
    assert (forall it, (it = x \/ it = item) ->
              (b = it \/ b ∈ l) ->
              (l <> [] -> fitness_set b /\ Forall fitness_set l
                          /\ fitness_set it) ->
              fitness_set b /\ Forall fitness_set (x :: l)
              /\ fitness_set item) as Hsets.
    { intros it Hit Hin Hset.
      assert (fitness_set x) as Hx by now exists q.
      assert (fitness_set item) as Hi by now exists v.
      assert (fitness_set b) as Hb.
      { destruct Hin as [->|Hin].
        - destruct Hit as [->| ->]; assumption.
        - apply Hset. intros ->. inversion Hin. }
      split; [exact Hb|]. split; [|exact Hi].
      constructor; [exact Hx|].
      destruct l; [constructor|]. now apply Hset. }
    destruct (Qltb v q) eqn:Hlt.
    + apply Qltb_lt in Hlt.
      destruct (IH _ _ _ _ _ H Ex) as (Hs & Hin & Hle & Hall & Hset).
      split; [exact Hs|]. split.
      { right. destruct Hin as [->|Hin]; [left|now right]. }
      split; [rewrite Hiv; rewrite Hxq in Hle; lra|].
      split; [constructor; [exact Hle|exact Hall]|].
      intros _. apply (Hsets x); auto.
    + apply Qltb_ge in Hlt.
      destruct (IH _ _ _ _ _ H Hitem) as (Hs & Hin & Hle & Hall & Hset).
      split; [exact Hs|]. split.
      { destruct Hin as [->|Hin]; [now left|right; now right]. }
      split; [exact Hle|]. split.
      { constructor; [|exact Hall]. rewrite Hxq. rewrite Hiv in Hle. lra. }
      intros _. apply (Hsets item); auto.
Qed.

(** When [max] over the fitness returns, it returns an element of the list
    that no element outranks, and it leaves the state alone. *)
Lemma max_by_fitness_ok {S} (l : list Agent) (s s' : S) b :
  max_by_fitness l s = (Ok b, s') ->
  s' = s /\ b ∈ l
  /\ Forall (fun a => (fitness_value a <= fitness_value b)%Q) l.
Proof.
  destruct l as [|item rest]; [discriminate|]. simpl. intros H.
  bind_ok_inv H as val s1 Hval.
  assert (s1 = s /\ fitness item = val) as [-> Hitem].
  { unfold get_fitness in Hval.
    destruct (fitness item); inversion Hval; auto. }
  destruct (max_loop_ok _ _ _ _ _ _ H Hitem) as (Hs & Hin & Hle & Hall & _).
  split; [exact Hs|]. split.
  - destruct Hin as [->|Hin]; [left|now right].
  - constructor; assumption.
Qed.

(** ** Evaluation, once more *)

Lemma evaluate_agents_set F l :
  Forall fitness_set l -> evaluate_agents F l = (Ok tt, l).
Proof.
  induction 1 as [|a l [q Hq] _ IH]; simpl; [reflexivity|].
  now rewrite Hq, IH.
Qed.

Lemma set_population_same (e : EvolutionEngine) :
  set_population e (population e) = e.
Proof. now destruct e. Qed.

(** X5. Evaluation is memoized. Once [evaluate_population] has returned,
    any later call on the same population returns and changes nothing,
    also under another fitness function: no fitness is computed twice. *)
Theorem evaluate_population_memoized (e : EvolutionEngine) (w : World)
    (e1 : EvolutionEngine) (w1 : World) (e2 : EvolutionEngine) (w2 : World)
    (F' : Agent -> Q) :
  evaluate_population (e, w) = (Ok tt, (e1, w1)) ->
  population e2 = population e1 ->
  fitness_function e2 = Some F' ->
  evaluate_population (e2, w2) = (Ok tt, (e2, w2)).
Proof.
  intros H Hpop HF'.
  rewrite evaluate_population_run in H.
  destruct (fitness_function e) as [F|]; [|discriminate].
  destruct (evaluate_agents F (population e)) as [[[]|x] p] eqn:Eev;
    [|discriminate].
  destruct p as [|a p]; [discriminate|].
  inversion H; subst. clear H.
  destruct (evaluate_agents_ok _ _ _ Eev) as [_ Hset].
  simpl in Hpop, Hset.
  rewrite evaluate_population_run, HF', Hpop.
  rewrite (evaluate_agents_set F' _ Hset).
  rewrite <- Hpop, set_population_same. reflexivity.
Qed.

(** ** An engine without a population *)

(** X6. On an engine that has a fitness function and an empty population,
    [evaluate_population], [create_next_generation] and [evolve] for one
    generation or more raise ValueError (the one [np.max] raises on the
    empty list of fitness values, for the log line) and leave the engine
    as it was; [get_best_agent] raises its own ValueError. *)
Theorem empty_population_errors (e : EvolutionEngine) (w : World)
    (F : Agent -> Q) :
  population e = [] ->
  fitness_function e = Some F ->
  exists msg,
    evaluate_population (e, w) = (Raise (ValueError msg), (e, w))
    /\ create_next_generation (e, w) = (Raise (ValueError msg), (e, w))
    /\ (forall n, 1 <= n ->
          evolve n (e, w) = (Raise (ValueError msg), (e, w)))
    /\ get_best_agent (e, w)
       = (Raise (ValueError "Population is empty"), (e, w)).
Proof.
  intros Hpop HF. eexists.
  assert (evaluate_population (e, w)
          = (Raise (ValueError "zero-size array to reduction operation"),
             (e, w))) as Hev.
  { rewrite evaluate_population_run, HF, Hpop. simpl.
    rewrite <- Hpop, set_population_same. reflexivity. }
  assert (create_next_generation (e, w)
          = (Raise (ValueError "zero-size array to reduction operation"),
             (e, w))) as Hgen.
  { unfold create_next_generation, bind. now rewrite Hev. }
  split; [exact Hev|]. split; [exact Hgen|]. split.
  - intros n Hn. unfold evolve.
    destruct (Z.to_nat n) as [|m] eqn:En; [lia|]. simpl.
    unfold bind. now rewrite Hgen.
  - unfold get_best_agent, bind, get_self. now rewrite Hpop.
Qed.

(** ** The best agent of the population *)

(** X7. When [get_best_agent] returns, the population has been evaluated,
    every genome has its fitness set, and the agent returned is a genome
    of the population that none outranks. *)
Theorem get_best_agent_is_best (e : EvolutionEngine) (w : World) (b : Agent)
    (e' : EvolutionEngine) (w' : World) :
  get_best_agent (e, w) = (Ok b, (e', w')) ->
  w' = w
  /\ (exists F, fitness_function e = Some F
                /\ Forall2 (evaluated F) (population e) (population e'))
  /\ Forall fitness_set (population e')
  /\ b ∈ population e'
  /\ Forall (fun a => (fitness_value a <= fitness_value b)%Q) (population e').
Proof.
  intros H. unfold get_best_agent in H.
  unfold bind at 1, get_self in H.
  destruct (population e) as [|a0 p0] eqn:Ep; [discriminate|].
  bind_ok_inv H as u s1 Hev. destruct s1 as [e1 w1].
  pose proof (evaluate_population_spec e w) as Hspec.
  assert (w1 = w) as ->.
  { rewrite evaluate_population_run in Hev.
    destruct (fitness_function e); [|discriminate].
    destruct (evaluate_agents _ _) as [r p]. now inversion Hev. }
  destruct (fitness_function e) as [F|] eqn:EF.
  2:{ rewrite Hspec in Hev. discriminate. }
  destruct Hspec as [Hspec _]. destruct u.
  destruct (Hspec _ _ Hev) as [Hev2 Hset].
  unfold bind at 1, get_self in H.
  destruct (max_by_fitness_ok _ _ _ _ H) as (Hs & Hin & Hmax).
  inversion Hs; subst.
  split; [reflexivity|]. split; [exists F; split; [reflexivity|]|].
  - rewrite Ep in Hev2. exact Hev2.
  - auto.
Qed.

(** ** Tournaments *)

Lemma random_sample_ok {A} (population : list A) (k : Z) w l w' :
  random_sample population k w = (Ok l, w') ->
  0 <= k <= Z.of_nat (length population)
  /\ uuids w' = uuids w
  /\ length l = Z.to_nat k
  /\ forall x, x ∈ l -> x ∈ population.
Proof.
  intros H.
  assert (0 <= k <= Z.of_nat (length population)) as Hk.
  { unfold random_sample in H.
    destruct (k <? 0) eqn:E1; [discriminate|].
    destruct (Z.of_nat (length population) <? k) eqn:E2; [discriminate|].
    apply Z.ltb_ge in E1, E2. lia. }
  split; [exact Hk|].
  destruct (random_sample_run population k w Hk)
    as (l0 & w0 & Hrun & Hu & Hlen & Hin).
  rewrite H in Hrun. inversion Hrun; subst. auto.
Qed.

(** What a selection that returns has done. *)
Lemma tournament_selection_member (e : EvolutionEngine) (w : World)
    (b : Agent) (e' : EvolutionEngine) (w' : World) :
  tournament_selection (e, w) = (Ok b, (e', w')) ->
  1 <= tournament_size e <= Z.of_nat (length (population e))
  /\ b ∈ population e
  /\ e' = e
  /\ uuids w' = uuids w.
Proof.
  intros H. unfold tournament_selection in H.
  unfold bind at 1, get_self in H.
  bind_ok_inv H as t s1 Hsample. destruct s1 as [e1 w1].
  unfold on_world in Hsample.
  destruct (random_sample _ _ w) as [r w0] eqn:Ers.
  inversion Hsample; subst. clear Hsample.
  destruct (random_sample_ok _ _ _ _ _ Ers) as (Hk & Hu & Hlen & Hin).
  destruct (max_by_fitness_ok _ _ _ _ H) as (Hs & Hb & _).
  inversion Hs; subst.
  split; [|auto].
  destruct t as [|x t]; [inversion Hb|]. simpl in Hlen. lia.
Qed.

(** X8. [tournament_selection] returns only when the tournament size is
    at least 1 and at most the size of the population; the agent it
    returns is a genome of the population, and the engine is as it was:
    selection consumes random draws and nothing else. *)
Theorem tournament_selection_ok (e : EvolutionEngine) (w : World) (b : Agent)
    (e' : EvolutionEngine) (w' : World) :
  tournament_selection (e, w) = (Ok b, (e', w')) ->
  1 <= tournament_size e <= Z.of_nat (length (population e))
  /\ b ∈ population e
  /\ e' = e
  /\ uuids w' = uuids w.
Proof. apply tournament_selection_member. Qed.

(** ** Offspring and their parents *)

Lemma differs_clone (a : Agent) (i : string) :
  differs_in_id_and_params a (set_id a i).
Proof. unfold differs_in_id_and_params. now destruct a. Qed.

Lemma differs_set_strategy_params (a c : Agent) p :
  differs_in_id_and_params a c ->
  differs_in_id_and_params a (set_strategy_params c p).
Proof. unfold differs_in_id_and_params. intros <-. reflexivity. Qed.

Lemma differs_fitness (a c : Agent) :
  differs_in_id_and_params a c ->
  fitness c = fitness a /\ fitness_score c = fitness_score a
  /\ generation c = generation a /\ parent_ids c = parent_ids a
  /\ metrics c = metrics a /\ mutation_rate c = mutation_rate a.
Proof. unfold differs_in_id_and_params. intros <-. simpl. auto 10. Qed.

(** One turn of the loop that returns has drawn no crossover, and its
    offspring is one of the population but for its identifier and its
    strategy parameters. *)
Lemma make_offspring_ok (e : EvolutionEngine) (w : World) (o : Agent) s' :
  make_offspring (e, w) = (Ok o, s') ->
  fst s' = e
  /\ (crossover_rate e < 1)%Q
  /\ 1 <= tournament_size e <= Z.of_nat (length (population e))
  /\ descends (population e) o.
Proof.
  intros H.
  pose proof (pres_make_offspring eq _ _ _ H) as Hs.
  unfold on_fst in Hs. simpl in Hs.
  split; [now symmetry|]. clear Hs.
  unfold make_offspring in H. unfold bind at 1, get_self in H.
  bind_ok_inv H as p1 s1 Hp1. destruct s1 as [e1 w1].
  destruct (tournament_selection_member _ _ _ _ _ Hp1) as (Hk & Hin1 & -> & _).
  bind_ok_inv H as p2 s2 Hp2. destruct s2 as [e2 w2].
  destruct (tournament_selection_member _ _ _ _ _ Hp2) as (_ & Hin2 & -> & _).
  bind_ok_inv H as r s3 Hr.
  apply on_world_inv in Hr. destruct Hr as (w3 & Hr & ->). simpl in Hr.
  destruct (random_random_run w2) as (r0 & Hr0 & _ & Hlt1).
  rewrite Hr0 in Hr. inversion Hr; subst r0 w3. clear Hr Hr0.
  bind_ok_inv H as c s4 Hc.
  destruct (Qltb r (crossover_rate e)) eqn:Hcross.
  { apply on_world_inv in Hc. destruct Hc as (w4 & Hc & _). discriminate. }
  apply Qltb_ge in Hcross.
  split; [lra|]. split; [exact Hk|].
  assert (descends (population e) c) as Hdesc.
  { bind_ok_inv Hc as r' s5 Hr'.
    apply on_world_inv in Hr'. destruct Hr' as (w5 & _ & ->).
    destruct (Qltb r' 0.5); apply on_world_inv in Hc;
      destruct Hc as (w6 & Hc & _); rewrite clone_run in Hc;
      inversion Hc; subst c.
    - exists p1. split; [exact Hin1|apply differs_clone].
    - exists p2. split; [exact Hin2|apply differs_clone]. }
  bind_ok_inv H as r'' s6 Hr''.
  apply on_world_inv in Hr''. destruct Hr'' as (w6 & _ & ->).
  destruct (Qltb r'' (e_mutation_rate e)).
  - apply on_world_inv in H. destruct H as (w7 & H & _).
    destruct (mutate_ok _ _ _ _ _ H) as (_ & -> & _).
    destruct Hdesc as (a & Hin & Hd). exists a. split; [exact Hin|].
    now apply differs_set_strategy_params.
  - inversion H; subst. exact Hdesc.
Qed.

Lemma descends_set (p : list Agent) (c : Agent) :
  Forall fitness_set p -> descends p c -> fitness_set c.
Proof.
  intros Hp (a & Hin & Hd). rewrite Forall_forall in Hp.
  destruct (Hp _ Hin) as [q Hq]. exists q.
  destruct (differs_fitness _ _ Hd) as [-> _]. exact Hq.
Qed.

Lemma clones_of_descend (l : list Agent) : forall ids p,
  (forall a, a ∈ l -> a ∈ p) -> Forall (descends p) (clones_of ids l).
Proof.
  induction l as [|a l IH]; intros ids p Hin; simpl; constructor.
  - exists a. split; [apply Hin; left|apply differs_clone].
  - apply IH. intros b Hb. apply Hin. now right.
Qed.

Lemma slice_to_elem_of {A} (l : list A) (n : Z) x :
  x ∈ slice_to l n -> x ∈ l.
Proof.
  unfold slice_to. destruct (0 <=? n); intros H;
    apply elem_of_take in H; destruct H as (i & H & _);
    eapply list_elem_of_lookup_2; eauto.
Qed.

Lemma slice_to_Forall {A} (P : A -> Prop) (l : list A) (n : Z) :
  Forall P l -> Forall P (slice_to l n).
Proof. unfold slice_to. destruct (0 <=? n); apply Forall_take. Qed.

(** The loop appends offspring of the population only. *)
Lemma fill_population_descends (fuel : nat) : forall np e w np' s',
  fill_population fuel np (e, w) = (Ok np', s') ->
  Forall (descends (population e)) np ->
  Forall (descends (population e)) np'.
Proof.
  induction fuel as [|fuel IH]; intros np e w np' s' H Hnp; simpl in H;
    unfold bind at 1, get_self in H;
    destruct (Z.of_nat (length np) <? population_size e) eqn:E;
    try discriminate; try (inversion H; subst; exact Hnp).
  bind_ok_inv H as offspring s1 Hoff.
  destruct (make_offspring_ok _ _ _ _ Hoff) as (Hs & _ & _ & Hd).
  destruct s1 as [e1 w1]. simpl in Hs. subst e1.
  apply IH in H; [exact H|].
  apply Forall_app. split; [exact Hnp|]. now constructor.
Qed.

(** The loop raises what a turn of it raises, and leaves the engine. *)
Lemma fill_population_raise (fuel : nat) : forall np s x s',
  fill_population fuel np s = (Raise x, s') -> fst s' = fst s.
Proof.
  intros np s x s' H.
  pose proof (pres_fill_population eq fuel np _ _ _ H) as Hs.
  unfold on_fst in Hs. now symmetry.
Qed.

Lemma max_loop_Qmax (items : list Agent) : forall maxitem,
  Forall fitness_set items -> fitness_set maxitem ->
  exists b,
    fitness_value b
    = Qmax_list (fitness_value maxitem) (map fitness_value items)
    /\ forall S (s : S),
        max_loop items maxitem (fitness maxitem) s = (Ok b, s).
Proof.
  induction items as [|item rest IH]; intros maxitem Hall Hset.
  - exists maxitem. split; reflexivity.
  - inversion Hall as [|? ? [q Hq] Hrest]; subst.
    destruct Hset as [q0 Hq0]. cbn [map Qmax_list].
    assert (fitness_value item = q) as Hfi
        by (unfold fitness_value; now rewrite Hq).
    assert (fitness_value maxitem = q0) as Hfm
        by (unfold fitness_value; now rewrite Hq0).
    rewrite Hfi, Hfm.
    destruct (Qltb q0 q) eqn:Hlt.
    + destruct (IH item Hrest ltac:(now exists q)) as (b & Hv & Hb).
      exists b. split; [now rewrite Hv, Hfi|].
      intros S s. rewrite max_loop_cons, Hq, Hq0, Hlt, <- Hq. apply Hb.
    + destruct (IH maxitem Hrest ltac:(now exists q0)) as (b & Hv & Hb).
      exists b. split; [now rewrite Hv, Hfm|].
      intros S s. rewrite max_loop_cons, Hq, Hq0, Hlt, <- Hq0. apply Hb.
Qed.

Lemma record_generation_stats_run (e : EvolutionEngine) (w : World) :
  Forall fitness_set (population e) ->
  match population e with
  | [] => _record_generation_stats (e, w) = (Ok tt, (e, w))
  | _ =>
      exists b,
        b ∈ population e
        /\ Forall (fun a => (fitness_value a <= fitness_value b)%Q)
             (population e)
        /\ _record_generation_stats (e, w)
           = (Ok tt,
              (recorded e (stats_of e (fitness_value b))
                          (set_id b (uuids w 0%nat)),
               {| rnd := rnd w; uuids := fun n => uuids w (S n) |}))
  end.
Proof.
  intros Hset.
  assert (map_each get_fitness (population e) (e, w)
          = (Ok (map fitness (population e)), (e, w))) as Hread.
  { apply map_each_get_fitness_attr.
    exact (Forall_impl _ _ _ Hset fitness_set_attr). }
  pose proof (float_values_set _ Hset) as Hvals.
  destruct (population e) as [|x xs] eqn:Ep.
  - unfold _record_generation_stats. unfold bind at 1, get_self.
    rewrite Ep, (bind_ok _ _ _ _ _ Hread). reflexivity.
  - inversion Hset as [|? ? Hx Hxs]; subst.
    destruct (max_loop_Qmax xs x Hxs Hx) as (b & Hv & Hb).
    assert (forall S (s : S), max_by_fitness (x :: xs) s = (Ok b, s)) as Hmax.
    { intros S s. simpl. unfold bind, get_fitness. destruct Hx as [q Hq].
      rewrite Hq. unfold ret. rewrite <- Hq. apply Hb. }
    destruct (max_by_fitness_ok _ _ _ _ (Hmax unit tt)) as (_ & Hin & Hle).
    exists b. split; [exact Hin|]. split; [exact Hle|].
    unfold _record_generation_stats. unfold bind at 1, get_self.
    rewrite Ep, (bind_ok _ _ _ _ _ Hread), Hvals.
    cbn [map]. unfold on_history, add_generation.
    erewrite bind_ok by reflexivity.
    rewrite (bind_ok _ _ _ _ _ (Hmax _ _)).
    erewrite bind_ok by (apply on_world_ok, clone_run).
    unfold recorded, stats_of. rewrite Ep, Hv. reflexivity.
Qed.

(** ** The two ends of a transition *)

Lemma evaluate_agents_partial F l :
  Forall2 maybe_evaluated l (snd (evaluate_agents F l)).
Proof.
  induction l as [|a l IH]; simpl; [constructor|].
  destruct (fitness a) as [| |q] eqn:E.
  - simpl. constructor; [now left|].
    clear. induction l; constructor; [now left|assumption].
  - destruct (evaluate_agents F l) as [r l'']. simpl in *.
    constructor; [right; eauto|exact IH].
  - destruct (evaluate_agents F l) as [r l'']. simpl in *.
    constructor; [now left|exact IH].
Qed.

Lemma maybe_evaluated_refl l : Forall2 maybe_evaluated l l.
Proof. induction l; constructor; [now left|assumption]. Qed.

(** The two ways a transition ends.  It raises before anything is assigned,
    leaving the engine with its population, evaluated as far as the
    evaluation went; or it returns, after it has installed a population of
    offspring of the evaluated population, counted the generation and
    recorded the statistics. *)
Lemma create_next_generation_cases (e : EvolutionEngine) (w : World) r e' w' :
  create_next_generation (e, w) = (r, (e', w')) ->
  (exists x p,
      r = Raise x /\ e' = set_population e p
      /\ Forall2 maybe_evaluated (population e) p)
  \/ (exists F p newpop w1,
        r = Ok tt
        /\ fitness_function e = Some F
        /\ evaluate_agents F (population e) = (Ok tt, p)
        /\ p <> []
        /\ Forall (descends p) newpop
        /\ (0 <= population_size e ->
            Z.of_nat (length newpop) = population_size e)
        /\ after_recording
             (set_current_generation (set_population e newpop)
                                     (current_generation e + 1))
             w1 e' w').
Proof.
  intros H. unfold create_next_generation in H.
  apply bind_inv in H. destruct H as [(u & s0 & Hev & H) | (x & Hev & ->)].
  2:{ left. rewrite evaluate_population_run in Hev.
      destruct (fitness_function e) as [F|].
      - pose proof (evaluate_agents_partial F (population e)) as Hp.
        destruct (evaluate_agents F (population e)) as [r0 p].
        injection Hev as Hx He Hw. subst e' w'. eauto.
      - injection Hev as Hx He Hw. subst e' w'. eexists _, (population e).
        split; [reflexivity|]. split; [now rewrite set_population_same|].
        apply maybe_evaluated_refl. }
  rewrite evaluate_population_run in Hev.
  destruct (fitness_function e) as [F|] eqn:EF; [|discriminate].
  pose proof (evaluate_agents_partial F (population e)) as Hpart.
  destruct (evaluate_agents F (population e)) as [[[]|x] p] eqn:Eev;
    [|discriminate].
  destruct p as [|a0 p0] eqn:Ep; [discriminate|]. rewrite <- Ep in *.
  assert (p <> []) as Hne by (subst p; discriminate).
  inversion Hev; subst s0. clear Hev. simpl in Hpart.
  destruct (evaluate_agents_ok _ _ _ Eev) as [_ Hset].
  unfold bind at 1, get_self in H.
  destruct (sorted_by_fitness_desc_set p Hset) as (sp & Hperm & _ & Hsort).
  simpl population in H at 1. rewrite (bind_ok _ _ _ _ _ (Hsort _ _)) in H.
  rewrite (bind_ok _ _ _ _ _
             (on_world_ok _ _ _ _ _ (map_each_clone_run _ w))) in H.
  apply bind_inv in H.
  destruct H as [(filled & s4 & Hfill & H) | (x & Hfill & ->)].
  2:{ left. apply fill_population_raise in Hfill. simpl in Hfill. subst e'.
      eauto. }
  right.
  pose proof (fill_population_ok _ _ _ _ _ Hfill) as (Hs & [extra Hextra] & Hlen).
  destruct s4 as [e4 w4]. simpl in Hs, Hlen. subst e4.
  apply fill_population_descends in Hfill.
  2:{ simpl. apply clones_of_descend. intros a Ha.
      apply slice_to_elem_of in Ha. now rewrite <- Hperm. }
  simpl in Hfill.
  unfold bind at 1, update_self in H. unfold bind at 1 in H.
  remember (if population_size e <? Z.of_nat (length filled)
            then slice_to filled (population_size e) else filled)
    as newpop eqn:Enew.
  assert (_record_generation_stats
            (set_current_generation (set_population e newpop)
                                    (current_generation e + 1), w4)
          = (r, (e', w'))) as Hrun.
  { subst newpop. exact H. }
  clear H.
  assert (Forall (descends p) newpop) as Hdesc.
  { subst newpop. destruct (_ <? _); [now apply slice_to_Forall|exact Hfill]. }
  pose proof (record_generation_stats_run
                (set_current_generation (set_population e newpop)
                                        (current_generation e + 1)) w4) as Hrec.
  simpl population in Hrec.
  specialize (Hrec (Forall_impl _ _ _ Hdesc
                      (fun c => descends_set p c Hset))).
  assert (Z.of_nat (length (clones_of (uuids w) (slice_to sp (elitism_count e))))
          <= Z.of_nat (length filled)) as Hfilled.
  { rewrite Hextra, length_app. simpl. lia. }
  exists F, p, newpop, w4.
  assert (r = Ok tt /\ after_recording
             (set_current_generation (set_population e newpop)
                                     (current_generation e + 1))
             w4 e' w') as [Hr Hafter].
  { unfold after_recording. simpl population.
    destruct newpop as [|n0 np0].
    - rewrite Hrec in Hrun. now inversion Hrun.
    - destruct Hrec as (b & Hin & Hle & Hrec). rewrite Hrec in Hrun.
      inversion Hrun; subst r e' w'. split; [reflexivity|].
      exists b. auto. }
  split; [exact Hr|]. split; [reflexivity|]. split; [exact Eev|].
  split; [exact Hne|]. split; [exact Hdesc|]. split; [|exact Hafter].
  intros HN. rewrite Enew.
  destruct (population_size e <? Z.of_nat (length filled)) eqn:E.
  - apply Z.ltb_lt in E. rewrite slice_to_length by lia. lia.
  - apply Z.ltb_ge in E. apply Hlen. lia.
Qed.

Lemma after_recording_population e1 w1 e' w' :
  after_recording e1 w1 e' w' ->
  population e' = population e1
  /\ current_generation e' = current_generation e1
  /\ config_kept e1 e'.
Proof.
  unfold after_recording. destruct (population e1) as [|x xs] eqn:Ep.
  - intros [-> ->]. rewrite Ep. split; [reflexivity|].
    split; reflexivity.
  - intros (b & _ & _ & -> & _). simpl. rewrite Ep.
    unfold config_kept. simpl. auto 10.
Qed.

(** X9. A transition that returns has made its new population out of the
    evaluated old one and nothing else: every genome of the new population
    is a genome of the evaluated population but for its identifier and its
    strategy parameters.  It carries that genome's [fitness], also when its
    parameters were mutated, and its [fitness_score], [generation] and
    [parent_ids]: no offspring is scored anew, and none is given the
    number of the new generation. *)
Theorem offspring_provenance (e : EvolutionEngine) (w : World)
    (e' : EvolutionEngine) (w' : World) :
  create_next_generation (e, w) = (Ok tt, (e', w')) ->
  exists F p,
    fitness_function e = Some F
    /\ Forall2 (evaluated F) (population e) p
    /\ Forall fitness_set p
    /\ Forall (fun c => exists a,
                 a ∈ p
                 /\ differs_in_id_and_params a c
                 /\ fitness c = fitness a
                 /\ fitness_score c = fitness_score a
                 /\ generation c = generation a
                 /\ parent_ids c = parent_ids a)
         (population e').
Proof.
  intros H. apply create_next_generation_cases in H.
  destruct H as [(x & p & Hx & _) | (F & p & np & w1 & _ & HF & Hev & _ & Hd
                                      & _ & Hafter)];
    [discriminate|].
  destruct (evaluate_agents_ok _ _ _ Hev) as [Hev2 Hset].
  destruct (after_recording_population _ _ _ _ Hafter) as (-> & _).
  exists F, p. split; [exact HF|]. split; [exact Hev2|]. split; [exact Hset|].
  simpl. eapply Forall_impl; [exact Hd|].
  intros c (a & Hin & Hdiff). exists a.
  destruct (differs_fitness _ _ Hdiff) as (H1 & H2 & H3 & H4 & _).
  auto 10.
Qed.

(** X11. A transition that returns has added 1 to [current_generation].
    With a population size of 0 it has emptied the population and recorded
    nothing.  With a population size of 1 or more it has appended one entry
    to each ledger of the history: statistics that carry the new generation
    number, the population size and, as best fitness, the fitness of a
    genome of the new population that none outranks, and a clone of that
    genome; [get_last_generation_stats] returns these statistics. *)
Theorem generation_bookkeeping (e : EvolutionEngine) (w : World)
    (e' : EvolutionEngine) (w' : World) :
  create_next_generation (e, w) = (Ok tt, (e', w')) ->
  current_generation e' = current_generation e + 1
  /\ (population_size e = 0 ->
      population e' = [] /\ history e' = history e)
  /\ (0 < population_size e ->
      exists st c b,
        generation_stats (history e')
        = generation_stats (history e) ++ [st]
        /\ best_agent_history (history e')
           = best_agent_history (history e) ++ [c]
        /\ get_last_generation_stats (history e') = Some st
        /\ st_generation st = current_generation e + 1
        /\ st_population_size st = population_size e
        /\ Z.of_nat (length (population e')) = population_size e
        /\ b ∈ population e'
        /\ Forall (fun a => (fitness_value a <= fitness_value b)%Q)
             (population e')
        /\ st_best_fitness st = fitness_value b
        /\ c = set_id b (id c)).
Proof.
  intros H. apply create_next_generation_cases in H.
  destruct H as [(x & p & Hx & _) | (F & p & np & w1 & _ & HF & Hev & _ & Hd
                                      & Hlen & Hafter)];
    [discriminate|].
  pose proof (after_recording_population _ _ _ _ Hafter) as (Hpop & Hgen & _).
  simpl in Hpop, Hgen. split; [exact Hgen|].
  unfold after_recording in Hafter. simpl population in Hafter.
  split.
  - intros HN. specialize (Hlen ltac:(lia)).
    destruct np as [|n0 np0]; [|simpl in Hlen; lia].
    destruct Hafter as [-> _]. split; reflexivity.
  - intros HN. specialize (Hlen ltac:(lia)).
    destruct np as [|n0 np0] eqn:En; [simpl in Hlen; lia|].
    rewrite <- En in *.
    destruct Hafter as (b & Hin & Hle & -> & _).
    eexists _, _, b. simpl.
    split; [reflexivity|]. split; [reflexivity|].
    split.
    { unfold get_last_generation_stats. simpl. apply last_snoc. }
    split; [reflexivity|]. split; [exact Hlen|]. split; [exact Hlen|].
    split; [exact Hin|]. split; [exact Hle|]. split; [reflexivity|].
    now destruct b.
Qed.

(** X13. A transition that raises has recorded nothing: the history and
    the generation counter are as they were, and so is the configuration;
    the population holds the same genomes, some of them evaluated in the
    meantime.  The exception is one of the code, never the loop bound of
    the model. *)
Theorem failed_transition_records_nothing (e : EvolutionEngine) (w : World)
    (x : exn) (e' : EvolutionEngine) (w' : World) :
  create_next_generation (e, w) = (Raise x, (e', w')) ->
  history e' = history e
  /\ current_generation e' = current_generation e
  /\ config_kept e e'
  /\ Forall2 maybe_evaluated (population e) (population e')
  /\ x <> OutOfFuel.
Proof.
  intros H.
  assert (x <> OutOfFuel) as Hfuel.
  { intros ->. exact (create_next_generation_fuel _ _ H). }
  apply create_next_generation_cases in H.
  destruct H as [(x0 & p & _ & -> & Hp) | (F & p & np & w1 & Hx & _)];
    [|discriminate].
  simpl. unfold config_kept. simpl. auto 10.
Qed.

(** ** Runs of several generations *)

Lemma differs_refl (a : Agent) : differs_in_id_and_params a a.
Proof. unfold differs_in_id_and_params. now destruct a. Qed.

Lemma differs_trans (a b c : Agent) :
  differs_in_id_and_params a b -> differs_in_id_and_params b c ->
  differs_in_id_and_params a c.
Proof.
  unfold differs_in_id_and_params. destruct a, b, c. simpl.
  unfold set_strategy_params, set_id. simpl.
  intros H1 H2. inversion H1; inversion H2; subst. reflexivity.
Qed.

Lemma descends_trans (p q : list Agent) (c : Agent) :
  Forall (descends p) q -> descends q c -> descends p c.
Proof.
  intros Hq (b & Hin & Hd). rewrite Forall_forall in Hq.
  destruct (Hq _ Hin) as (a & Ha & Hab). exists a. split; [exact Ha|].
  eapply differs_trans; eauto.
Qed.

(** The generations of a run that returns: the numbers recorded, one entry
    in each ledger for each generation. *)
Lemma evolve_loop_ledgers (n : nat) : forall e w e' w',
  evolve_loop n (e, w) = (Ok tt, (e', w')) ->
  0 < population_size e ->
  current_generation e' = current_generation e + Z.of_nat n
  /\ population_size e' = population_size e
  /\ exists es bs,
      generation_stats (history e') = generation_stats (history e) ++ es
      /\ best_agent_history (history e')
         = best_agent_history (history e) ++ bs
      /\ length bs = n
      /\ map st_generation es
         = map (fun i => current_generation e + 1 + Z.of_nat i) (seq 0 n)
      /\ Forall (fun st => st_population_size st = population_size e) es.
Proof.
  induction n as [|n IH]; intros e w e' w' H HN.
  - inversion H; subst. split; [lia|]. split; [reflexivity|].
    exists [], []. rewrite !app_nil_r. repeat split; constructor.
  - simpl in H. bind_ok_inv H as u s1 Hstep. destruct s1 as [e1 w1].
    destruct u.
    apply create_next_generation_cases in Hstep.
    destruct Hstep as [(x & p & Hx & _) | (F & p & np & w0 & _ & HF & Hev & _
                                            & Hd & Hlen & Hafter)];
      [discriminate|].
    specialize (Hlen ltac:(lia)).
    unfold after_recording in Hafter. simpl population in Hafter.
    destruct np as [|n0 np0] eqn:En; [simpl in Hlen; lia|].
    rewrite <- En in *.
    destruct Hafter as (b & _ & _ & -> & _).
    apply IH in H; [|exact HN]. simpl in H.
    destruct H as (Hgen & Hsize & es & bs & Hes & Hbs & Hlbs & Hnum & Hall).
    split; [lia|]. split; [exact Hsize|].
    eexists (_ :: es), (_ :: bs).
    split; [rewrite Hes, <- app_assoc; reflexivity|].
    split; [rewrite Hbs, <- app_assoc; reflexivity|].
    split; [simpl; now rewrite Hlbs|]. split.
    + cbn [map seq]. f_equal; [simpl; lia|].
      rewrite Hnum, <- seq_shift, map_map. apply map_ext. intros i. lia.
    + constructor; [exact Hlen|exact Hall].
Qed.

(** On a population whose fitness values are set, the run brings forth
    nothing but offspring of that population. *)
Lemma evolve_loop_descends (n : nat) : forall e w e' w',
  evolve_loop n (e, w) = (Ok tt, (e', w')) ->
  Forall fitness_set (population e) ->
  Forall (descends (population e)) (population e').
Proof.
  induction n as [|n IH]; intros e w e' w' H Hset.
  - inversion H; subst. apply Forall_forall. intros a Ha.
    exists a. split; [exact Ha|apply differs_refl].
  - simpl in H. bind_ok_inv H as u s1 Hstep. destruct s1 as [e1 w1].
    apply create_next_generation_cases in Hstep.
    destruct Hstep as [(x & p & Hx & _) | (F & p & np & w0 & _ & HF & Hev & _
                                            & Hd & _ & Hafter)];
      [discriminate|].
    rewrite (evaluate_agents_set F _ Hset) in Hev. inversion Hev; subst p.
    destruct (after_recording_population _ _ _ _ Hafter) as (Hpop & _).
    simpl in Hpop.
    apply IH in H.
    + rewrite Hpop in H. eapply Forall_impl; [exact H|].
      intros c Hc. eapply descends_trans; eauto.
    + rewrite Hpop. eapply Forall_impl; [exact Hd|].
      intros c. now apply descends_set.
Qed.

(** X12. For a population size of 1 or more, an [evolve] call that returns
    hands back the history of the engine, has added the number of
    generations asked for to [current_generation] (nothing when that number
    is 0 or less), and has appended as many entries to each ledger; the
    statistics appended carry the consecutive generation numbers and the
    population size. *)
Theorem evolve_ledgers (generations : Z) (e : EvolutionEngine) (w : World)
    (h : EvolutionHistory) (e' : EvolutionEngine) (w' : World) :
  0 < population_size e ->
  evolve generations (e, w) = (Ok h, (e', w')) ->
  h = history e'
  /\ current_generation e' = current_generation e + Z.max 0 generations
  /\ exists es bs,
      generation_stats h = generation_stats (history e) ++ es
      /\ best_agent_history h = best_agent_history (history e) ++ bs
      /\ Z.of_nat (length es) = Z.max 0 generations
      /\ Z.of_nat (length bs) = Z.max 0 generations
      /\ map st_generation es
         = map (fun i => current_generation e + 1 + Z.of_nat i)
               (seq 0 (Z.to_nat generations))
      /\ Forall (fun st => st_population_size st = population_size e) es.
Proof.
  intros HN H. unfold evolve in H.
  bind_ok_inv H as u s1 Hloop. destruct s1 as [e1 w1]. destruct u.
  unfold bind, get_self, ret in H. inversion H; subst. clear H.
  destruct (evolve_loop_ledgers _ _ _ _ _ Hloop HN)
    as (Hgen & _ & es & bs & Hes & Hbs & Hlbs & Hnum & Hall).
  split; [reflexivity|]. split; [lia|].
  exists es, bs. split; [exact Hes|]. split; [exact Hbs|].
  assert (length es = Z.to_nat generations) as Hles.
  { rewrite <- (length_map st_generation), Hnum, length_map.
    apply length_seq. }
  split; [lia|]. split; [lia|]. split; [exact Hnum|exact Hall].
Qed.

(** X19. Evolution evaluates no new strategy.  After an [evolve] call for
    one generation or more that returns, every genome of the population is
    a genome of the first evaluated population but for its identifier and
    its strategy parameters: whatever the mutations, it carries the fitness
    its ancestor was given before the first transition, and its
    [generation] attribute. *)
Theorem evolve_no_new_fitness (generations : Z) (e : EvolutionEngine)
    (w : World) (h : EvolutionHistory) (e' : EvolutionEngine) (w' : World) :
  1 <= generations ->
  evolve generations (e, w) = (Ok h, (e', w')) ->
  exists F p,
    fitness_function e = Some F
    /\ Forall2 (evaluated F) (population e) p
    /\ Forall (fun c => exists a,
                 a ∈ p
                 /\ differs_in_id_and_params a c
                 /\ fitness c = fitness a
                 /\ generation c = generation a)
         (population e').
Proof.
  intros Hn H. unfold evolve in H.
  bind_ok_inv H as u s1 Hloop. destruct s1 as [e1 w1]. destruct u.
  unfold bind, get_self, ret in H. inversion H; subst. clear H.
  destruct (Z.to_nat generations) as [|n] eqn:En; [lia|].
  simpl in Hloop. bind_ok_inv Hloop as u s1 Hstep. destruct s1 as [e1 w1].
  apply create_next_generation_cases in Hstep.
  destruct Hstep as [(x & p & Hx & _) | (F & p & np & w0 & _ & HF & Hev & _
                                          & Hd & _ & Hafter)];
    [discriminate|].
  destruct (evaluate_agents_ok _ _ _ Hev) as [Hev2 Hset].
  destruct (after_recording_population _ _ _ _ Hafter) as (Hpop & _).
  simpl in Hpop.
  apply evolve_loop_descends in Hloop.
  2:{ rewrite Hpop. eapply Forall_impl; [exact Hd|].
      intros c. now apply descends_set. }
  exists F, p. split; [exact HF|]. split; [exact Hev2|].
  eapply Forall_impl; [exact Hloop|].
  intros c Hc. rewrite Hpop in Hc.
  destruct (descends_trans _ _ _ Hd Hc) as (a & Hin & Hdiff).
  exists a. destruct (differs_fitness _ _ Hdiff) as (H1 & _ & H3 & _).
  auto.
Qed.

(** ** Crossover in the engine, the ledgers, the first population *)

(** With a crossover rate of 1 or more, every turn of the loop that gets
    its two parents calls [crossover] through the first of them, and
    raises. *)
Lemma make_offspring_crossover (e : EvolutionEngine) (w : World) :
  1 <= tournament_size e <= Z.of_nat (length (population e)) ->
  Forall fitness_set (population e) ->
  (1 <= crossover_rate e)%Q ->
  exists w',
    make_offspring (e, w)
    = (Raise (TypeError
         "crossover() missing 1 required positional argument: 'agent2'"),
       (e, w')).
Proof.
  intros Hk Hset Hpc. unfold make_offspring.
  unfold bind at 1, get_self.
  destruct (tournament_selection_run e w Hk Hset) as (p1 & w1 & H1 & _ & Hp1).
  rewrite (bind_ok _ _ _ _ _ H1).
  destruct (tournament_selection_run e w1 Hk Hset) as (p2 & w2 & H2 & _ & Hp2).
  rewrite (bind_ok _ _ _ _ _ H2).
  destruct (random_random_run w2) as (r & Hr & _ & Hr1).
  rewrite (bind_ok _ _ _ _ _ (on_world_ok _ e _ _ _ Hr)).
  assert (Qltb r (crossover_rate e) = true) as ->.
  { apply Qltb_lt. lra. }
  eexists. reflexivity.
Qed.

Lemma fill_population_crossover (e : EvolutionEngine) (fuel : nat)
    (np : list Agent) (w : World) :
  1 <= tournament_size e <= Z.of_nat (length (population e)) ->
  Forall fitness_set (population e) ->
  (1 <= crossover_rate e)%Q ->
  (0 < fuel)%nat ->
  Z.of_nat (length np) < population_size e ->
  exists w',
    fill_population fuel np (e, w)
    = (Raise (TypeError
         "crossover() missing 1 required positional argument: 'agent2'"),
       (e, w')).
Proof.
  intros Hk Hset Hpc Hfuel Hlen. destruct fuel as [|fuel]; [lia|].
  simpl. unfold bind at 1, get_self.
  apply Z.ltb_lt in Hlen. rewrite Hlen.
  destruct (make_offspring_crossover e w Hk Hset Hpc) as (w' & Hoff).
  exists w'. unfold bind. now rewrite Hoff.
Qed.

(** X10. With a crossover rate of 1 or more, a transition never completes
    once it needs an offspring: on an engine that passes evaluation and
    selection (fitness function, non-empty population with the attribute
    [fitness], tournament size within the population) and whose elitism
    count is below the population size, [create_next_generation] raises
    the TypeError of [parent1.crossover(parent2)], a classmethod of two
    arguments called with one. *)
Theorem crossover_rate_one_fails (e : EvolutionEngine) (w : World)
    (F : Agent -> Q) :
  fitness_function e = Some F ->
  population e <> [] ->
  Forall has_fitness_attr (population e) ->
  1 <= tournament_size e <= Z.of_nat (length (population e)) ->
  0 <= elitism_count e < population_size e ->
  (1 <= crossover_rate e)%Q ->
  fst (create_next_generation (e, w))
  = Raise (TypeError
      "crossover() missing 1 required positional argument: 'agent2'").
Proof.
  intros HF Hne Hattr Hk He Hpc. unfold create_next_generation.
  destruct (evaluate_agents_total F _ Hattr) as [p Hp].
  destruct (evaluate_agents_ok _ _ _ Hp) as [Hev Hset].
  assert (length p = length (population e)) as Hlen.
  { symmetry. eapply Forall2_length; eauto. }
  assert (evaluate_population (e, w) = (Ok tt, (set_population e p, w)))
    as Heval.
  { rewrite evaluate_population_run, HF, Hp.
    destruct p; [|reflexivity].
    destruct (population e); [congruence|discriminate]. }
  rewrite (bind_ok _ _ _ _ _ Heval). unfold bind at 1, get_self.
  destruct (sorted_by_fitness_desc_set p Hset) as (sp & Hperm & _ & Hsort).
  simpl population at 1. rewrite (bind_ok _ _ _ _ _ (Hsort _ _)).
  rewrite (bind_ok _ _ _ _ _
             (on_world_ok _ _ _ _ _ (map_each_clone_run _ w))).
  destruct (fill_population_crossover (set_population e p)
              (Z.to_nat (population_size (set_population e p)))
              (clones_of (uuids w)
                 (slice_to sp (elitism_count (set_population e p))))
              {| rnd := rnd w;
                 uuids := fun n =>
                   uuids w (length (slice_to sp
                              (elitism_count (set_population e p))) + n)%nat |})
    as (w' & Hfill); try (simpl; lia); try assumption.
  { simpl. rewrite clones_of_length, slice_to_length by lia. lia. }
  unfold bind. rewrite Hfill. reflexivity.
Qed.

(** X14. [add_generation] appends the statistics before it looks for the
    best agent.  However the call ends, the statistics are in the ledger;
    when it returns, a clone of a genome that none of the population
    outranks is in the ledger of best agents; when [max] raises, as it does
    on an empty population, that ledger is as it was, one entry short of
    the statistics. *)
Theorem add_generation_outcomes (g : Z) (pop : list Agent) (bf af : Q)
    (h : EvolutionHistory) (w : World) (r : result unit)
    (h' : EvolutionHistory) (w' : World) :
  add_generation g pop bf af (h, w) = (r, (h', w')) ->
  generation_stats h'
  = generation_stats h
    ++ [{| st_generation := g; st_best_fitness := bf;
           st_average_fitness := af;
           st_population_size := Z.of_nat (length pop) |}]
  /\ match r with
     | Ok _ =>
         exists b,
           b ∈ pop
           /\ Forall (fun a => (fitness_value a <= fitness_value b)%Q) pop
           /\ best_agent_history h'
              = best_agent_history h ++ [set_id b (uuids w 0%nat)]
     | Raise x =>
         best_agent_history h' = best_agent_history h /\ w' = w
         /\ (pop = [] -> x = ValueError "max() arg is an empty sequence")
     end.
Proof.
  unfold add_generation. intros H.
  erewrite bind_ok in H by reflexivity.
  apply bind_inv in H. destruct H as [(b & s1 & Hmax & H) | (x & Hmax & ->)].
  - destruct (max_by_fitness_ok _ _ _ _ Hmax) as (-> & Hin & Hle).
    erewrite bind_ok in H by (apply on_world_ok, clone_run).
    inversion H; subst. simpl. split; [reflexivity|].
    exists b. auto.
  - pose proof (pres_max_by_fitness eq pop _ _ _ Hmax) as Hs.
    inversion Hs; subst. simpl. split; [reflexivity|].
    split; [reflexivity|]. split; [reflexivity|].
    intros ->. now inversion Hmax.
Qed.

(** X15. When [get_best_agent_ever] returns, it has changed nothing; it
    returns [None] on an empty ledger only, and otherwise an agent of the
    ledger that none of the ledger outranks. *)
Theorem get_best_agent_ever_is_best {S} (h : EvolutionHistory) (s s' : S)
    (o : option Agent) :
  get_best_agent_ever h s = (Ok o, s') ->
  s' = s
  /\ match o with
     | None => best_agent_history h = []
     | Some b =>
         b ∈ best_agent_history h
         /\ Forall (fun a => (fitness_value a <= fitness_value b)%Q)
              (best_agent_history h)
     end.
Proof.
  unfold get_best_agent_ever.
  destruct (best_agent_history h) as [|x l] eqn:E.
  - intros H. inversion H; subst. auto.
  - intros H. bind_ok_inv H as b s1 Hmax. inversion H; subst.
    destruct (max_by_fitness_ok _ _ _ _ Hmax) as (-> & Hin & Hle). auto.
Qed.

Lemma repeat_each_length {S A} (n : nat) (body : M S A) : forall s l s',
  repeat_each n body s = (Ok l, s') -> length l = n.
Proof.
  induction n as [|n IH]; intros s l s' H; simpl in H.
  - now inversion H.
  - bind_ok_inv H as x s1 Hx. bind_ok_inv H as xs s2 Hxs.
    inversion H; subst. simpl. f_equal. eapply IH; eauto.
Qed.

(** X16. [initialize_population], for every factory.  When it returns,
    the population has [population_size] genomes (none when that number is
    negative), the generation counter is 0, the history is empty and the
    configuration is as it was.  When the factory raises, the engine is
    as it was: population, counter and history are assigned after the last
    genome is built. *)
Theorem initialize_population_outcomes (agent_factory : M World Agent)
    (e : EvolutionEngine) (w : World) (r : result unit)
    (e' : EvolutionEngine) (w' : World) :
  initialize_population agent_factory (e, w) = (r, (e', w')) ->
  match r with
  | Ok _ =>
      length (population e') = Z.to_nat (population_size e)
      /\ current_generation e' = 0
      /\ history e' = EvolutionHistory_init
      /\ config_kept e e'
  | Raise _ => e' = e
  end.
Proof.
  unfold initialize_population. intros H.
  unfold bind at 1, get_self in H.
  apply bind_inv in H. destruct H as [(p & s1 & Hp & H) | (x & Hp & ->)].
  - apply on_world_inv in Hp. destruct Hp as (w1 & Hp & ->). simpl in Hp.
    apply repeat_each_length in Hp.
    unfold bind, update_self in H. simpl in H. inversion H; subst. simpl.
    unfold config_kept. simpl. auto 10.
  - apply on_world_inv in Hp. destruct Hp as (w1 & _ & Hs).
    now inversion Hs.
Qed.

(** ** The fitness computed from the metrics *)

Lemma weighted_metric_ok (key : string) (weight : Q) (self : Agent) t self' :
  weighted_metric key weight self = (Ok t, self') ->
  self' = self /\ usable (metrics self) key.
Proof.
  unfold weighted_metric, usable, py_mul_float, py_float.
  destruct (metrics self !! key) as [v|]; [|discriminate].
  destruct v as [b|n|x|s]; simpl;
    try (intros H; inversion H; subst; split; eauto;
         eexists; split; eauto; exact I).
  destruct (float_of_int n) as [x|] eqn:Ef; [|discriminate].
  intros H; inversion H; subst. split; [reflexivity|].
  eexists. split; [reflexivity|]. simpl. congruence.
Qed.





Lemma weighted_metric_transfer (key : string) (weight : Q) (a b : Agent) t s :
  weighted_metric key weight a = (Ok t, s) -> metrics b = metrics a ->
  weighted_metric key weight b = (Ok t, b).
Proof.
  unfold weighted_metric, py_mul_float, py_float. intros H Hm. rewrite Hm.
  destruct (metrics a !! key) as [v|]; [|discriminate].
  destruct v as [c|n|x|z]; simpl in *;
    try (inversion H; subst; reflexivity).
  destruct (float_of_int n); [|discriminate].
  unfold bind, ret in *. inversion H; subst. reflexivity.
Qed.

(** X18. [calculate_fitness] reads the metrics only.  Called again on the
    agent it has left, it returns the same score and changes nothing; the
    score is in [fitness_score], and the attribute [fitness], the one the
    engine reads, is as it was. *)
Theorem calculate_fitness_idempotent (self : Agent) (q : Q) (self' : Agent) :
  calculate_fitness self = (Ok q, self') ->
  calculate_fitness self' = (Ok q, self')
  /\ fitness_score self' = q
  /\ fitness self' = fitness self.
Proof.
  intros H. unfold calculate_fitness in H.
  bind_ok_inv H as t1 s1 H1.
  destruct (weighted_metric_ok _ _ _ _ _ H1) as [-> _].
  bind_ok_inv H as t2 s2 H2.
  destruct (weighted_metric_ok _ _ _ _ _ H2) as [-> _].
  bind_ok_inv H as t3 s3 H3.
  destruct (weighted_metric_ok _ _ _ _ _ H3) as [-> _].
  bind_ok_inv H as t4 s4 H4.
  destruct (weighted_metric_ok _ _ _ _ _ H4) as [-> _].
  bind_ok_inv H as t5 s5 H5.
  destruct (weighted_metric_ok _ _ _ _ _ H5) as [-> _].
  unfold bind, ret in H. inversion H; subst. clear H.
  split; [|split; reflexivity].
  unfold calculate_fitness.
  set (s' := set_fitness_score self (t1 + t2 - t3 + t4 + t5)).
  assert (metrics s' = metrics self) as Hm by reflexivity.
  rewrite (bind_ok _ _ _ _ _ (weighted_metric_transfer _ _ _ s' _ _ H1 Hm)).
  rewrite (bind_ok _ _ _ _ _ (weighted_metric_transfer _ _ _ s' _ _ H2 Hm)).
  rewrite (bind_ok _ _ _ _ _ (weighted_metric_transfer _ _ _ s' _ _ H3 Hm)).
  rewrite (bind_ok _ _ _ _ _ (weighted_metric_transfer _ _ _ s' _ _ H4 Hm)).
  rewrite (bind_ok _ _ _ _ _ (weighted_metric_transfer _ _ _ s' _ _ H5 Hm)).
  reflexivity.
Qed.

(** ** The further properties at concrete inputs *)


(** X2 at a scored genome and the rate 0. *)
Lemma mutate_rate_zero_witness :
  fst (mutate scored_genome (Some 0%Q) world0) = Ok scored_genome.
Proof.
  apply (mutate_rate_zero scored_genome (Some 0%Q) world0).
  apply Qle_refl.
Defined.

(** X3 at two genomes that hold the same parameter. *)
Lemma crossover_same_params_witness :
  exists child w',
    crossover scored_genome (genome "g" {["period" := PInt 20]} PyNone) world0
    = (Ok child, w')
    /\ strategy_params child = {["period" := PInt 20]}.
Proof.
  apply (crossover_same_params
           scored_genome (genome "g" {["period" := PInt 20]} PyNone) world0).
  reflexivity.
Defined.

(** X5 at a population with one genome to score, evaluated a second time
    under a fitness function that is 0 everywhere. *)
Lemma evaluate_population_memoized_witness :
  evaluate_population
    (engine_of (Some (fun _ => 0%Q))
       [genome "g1" {["period" := PInt 5]} (Value 5);
        genome "g2" {["period" := PInt 20]} (Value 20)], world0)
  = (Ok tt,
     (engine_of (Some (fun _ => 0%Q))
        [genome "g1" {["period" := PInt 5]} (Value 5);
         genome "g2" {["period" := PInt 20]} (Value 20)], world0)).
Proof.
  apply (evaluate_population_memoized
           (engine_of (Some sum_of_integers) unscored_population) world0
           (engine_of (Some sum_of_integers)
              [genome "g1" {["period" := PInt 5]} (Value 5);
               genome "g2" {["period" := PInt 20]} (Value 20)]) world0
           _ world0 (fun _ => 0%Q)).
  - vm_compute. reflexivity.
  - reflexivity.
  - reflexivity.
Defined.

(** X6 at an engine that was never given a population. *)
Lemma empty_population_errors_witness :
  exists msg,
    evolve 3 (engine_of (Some sum_of_integers) [], world0)
    = (Raise (ValueError msg), (engine_of (Some sum_of_integers) [], world0)).
Proof.
  destruct (empty_population_errors
              (engine_of (Some sum_of_integers) []) world0 sum_of_integers
              eq_refl eq_refl) as (msg & _ & _ & H & _).
  exists msg. apply H. lia.
Defined.

(** X7 at a population with one genome to score: the best agent is the
    genome scored 20. *)
Lemma get_best_agent_is_best_witness :
  Forall (fun a => (fitness_value a <= 20)%Q)
    (population
       (fst (snd (get_best_agent
                    (engine_of (Some sum_of_integers) unscored_population,
                     world0))))).
Proof.
  destruct (get_best_agent_is_best
              (engine_of (Some sum_of_integers) unscored_population) world0
              (genome "g2" {["period" := PInt 20]} (Value 20))
              (fst (snd (get_best_agent
                    (engine_of (Some sum_of_integers) unscored_population,
                     world0))))
              (snd (snd (get_best_agent
                    (engine_of (Some sum_of_integers) unscored_population,
                     world0)))))
    as (_ & _ & _ & _ & H).
  - vm_compute. reflexivity.
  - exact H.
Defined.

(** X8 at a tournament of two among three scored genomes. *)
Lemma tournament_selection_ok_witness :
  exists b,
    fst (tournament_selection (engine_of None scored_population, world0))
    = Ok b
    /\ b ∈ scored_population.
Proof.
  pose (run := tournament_selection (engine_of None scored_population, world0)).
  pose (b := match fst run with Ok b => b | Raise _ => scored_genome end).
  destruct (tournament_selection_ok
              (engine_of None scored_population) world0 b
              (fst (snd run)) (snd (snd run)))
    as (_ & Hin & _).
  - vm_compute. reflexivity.
  - exists b. split; [vm_compute; reflexivity|exact Hin].
Defined.

(** X9 at a transition of the engine for three scored genomes. *)
Lemma offspring_provenance_witness :
  Forall (fun c => exists a, a ∈ scored_population /\ fitness c = fitness a)
    (population
       (fst (snd (create_next_generation
                    (engine_of (Some sum_of_integers) scored_population,
                     world0))))).
Proof.
  destruct (offspring_provenance
              (engine_of (Some sum_of_integers) scored_population) world0
              (fst (snd (create_next_generation
                    (engine_of (Some sum_of_integers) scored_population,
                     world0))))
              (snd (snd (create_next_generation
                    (engine_of (Some sum_of_integers) scored_population,
                     world0)))))
    as (F & p & _ & Hev & _ & H).
  - vm_compute. reflexivity.
  - simpl in Hev.
    repeat match goal with
           | H : Forall2 _ _ _ |- _ => inversion H; subst; clear H
           end.
    unfold evaluated in *. simpl in *. subst.
    eapply Forall_impl; [exact H|].
    intros c (a & Hin & _ & Hfit & _). exists a. split; assumption.
Defined.

(** X10 at three scored genomes and a crossover rate of 1. *)
Lemma crossover_rate_one_fails_witness :
  fst (create_next_generation
         (crossing_engine (Some sum_of_integers) scored_population, world0))
  = Raise (TypeError
      "crossover() missing 1 required positional argument: 'agent2'").
Proof.
  apply (crossover_rate_one_fails
           (crossing_engine (Some sum_of_integers) scored_population) world0
           sum_of_integers).
  - reflexivity.
  - discriminate.
  - repeat constructor; discriminate.
  - simpl. lia.
  - simpl. lia.
  - apply Qle_refl.
Defined.

(** X11 at a transition of the engine for three scored genomes. *)
Lemma generation_bookkeeping_witness :
  current_generation
    (fst (snd (create_next_generation
                 (engine_of (Some sum_of_integers) scored_population,
                  world0))))
  = 0 + 1.
Proof.
  destruct (generation_bookkeeping
              (engine_of (Some sum_of_integers) scored_population) world0
              (fst (snd (create_next_generation
                    (engine_of (Some sum_of_integers) scored_population,
                     world0))))
              (snd (snd (create_next_generation
                    (engine_of (Some sum_of_integers) scored_population,
                     world0)))))
    as (H & _).
  - vm_compute. reflexivity.
  - exact H.
Defined.

(** X12 at two generations of the engine for three scored genomes. *)
Lemma evolve_ledgers_witness :
  current_generation
    (fst (snd (evolve 2 (engine_of (Some sum_of_integers) scored_population,
                         world0))))
  = 0 + Z.max 0 2.
Proof.
  pose (run := evolve 2 (engine_of (Some sum_of_integers) scored_population,
                         world0)).
  destruct (evolve_ledgers 2
              (engine_of (Some sum_of_integers) scored_population) world0
              (history (fst (snd run))) (fst (snd run)) (snd (snd run)))
    as (_ & H & _).
  - simpl. lia.
  - vm_compute. reflexivity.
  - exact H.
Defined.

(** X13 at the transition that the crossover rate of 1 makes fail. *)
Lemma failed_transition_records_nothing_witness :
  history
    (fst (snd (create_next_generation
                 (crossing_engine (Some sum_of_integers) scored_population,
                  world0))))
  = EvolutionHistory_init.
Proof.
  pose (run := create_next_generation
                 (crossing_engine (Some sum_of_integers) scored_population,
                  world0)).
  destruct (failed_transition_records_nothing
              (crossing_engine (Some sum_of_integers) scored_population)
              world0
              (TypeError
                 "crossover() missing 1 required positional argument: 'agent2'")
              (fst (snd run)) (snd (snd run)))
    as (H & _).
  - vm_compute. reflexivity.
  - exact H.
Defined.

(** X14 at three scored genomes, and at no genome at all. *)
Lemma add_generation_outcomes_witness :
  (exists b,
      b ∈ scored_population
      /\ best_agent_history
           (fst (snd (add_generation 1 scored_population 20 10
                        (EvolutionHistory_init, world0))))
         = [set_id b (uuids world0 0%nat)])
  /\ length (generation_stats
               (fst (snd (add_generation 1 [] 20 10
                            (EvolutionHistory_init, world0))))) = 1%nat
  /\ best_agent_history
       (fst (snd (add_generation 1 [] 20 10 (EvolutionHistory_init, world0))))
     = [].
Proof.
  split.
  - pose (run := add_generation 1 scored_population 20 10
                   (EvolutionHistory_init, world0)).
    destruct (add_generation_outcomes 1 scored_population 20 10
                EvolutionHistory_init world0 (Ok tt)
                (fst (snd run)) (snd (snd run)))
      as (_ & b & Hin & _ & Hb).
    + vm_compute. reflexivity.
    + exists b. split; [exact Hin|exact Hb].
  - pose (run := add_generation 1 [] 20 10 (EvolutionHistory_init, world0)).
    destruct (add_generation_outcomes 1 [] 20 10
                EvolutionHistory_init world0
                (Raise (ValueError "max() arg is an empty sequence"))
                (fst (snd run)) (snd (snd run)))
      as (Hs & Hb & _).
    + vm_compute. reflexivity.
    + split; [exact (f_equal length Hs)|exact Hb].
Defined.

(** X15 at a ledger of three scored genomes. *)
Lemma get_best_agent_ever_is_best_witness :
  Forall (fun a => (fitness_value a <= 20)%Q) scored_population.
Proof.
  destruct (get_best_agent_ever_is_best
              {| generation_stats := [];
                 best_agent_history := scored_population |} tt tt
              (Some (genome "g2" {["period" := PInt 20]} (Value 20))))
    as (_ & _ & H).
  - vm_compute. reflexivity.
  - exact H.
Defined.

(** X16 at a factory that calls [Agent.__init__], for three genomes. *)
Lemma initialize_population_outcomes_witness :
  length (population
            (fst (snd (initialize_population
                         (Agent_init {["period" := PInt 5]} 0 None)
                         (engine_of None scored_population, world0)))))
  = Z.to_nat 3.
Proof.
  pose (run := initialize_population
                 (Agent_init {["period" := PInt 5]} 0 None)
                 (engine_of None scored_population, world0)).
  destruct (initialize_population_outcomes
              (Agent_init {["period" := PInt 5]} 0 None)
              (engine_of None scored_population) world0 (Ok tt)
              (fst (snd run)) (snd (snd run)))
    as (H & _).
  - vm_compute. reflexivity.
  - exact H.
Defined.


(** [calculate_fitness] on metrics that hold an integer that no float can
    hold: the call raises OverflowError and the agent is as it was. *)
Lemma calculate_fitness_overflow :
  calculate_fitness oversized_metrics
  = (Raise (OverflowError "int too large to convert to float"),
     oversized_metrics).
Proof. vm_compute. reflexivity. Qed.

(** X18 at an agent with the metrics [__init__] gives it. *)
Lemma calculate_fitness_idempotent_witness :
  fitness (snd (calculate_fitness (genome "g" ∅ Absent))) = Absent.
Proof.
  pose (run := calculate_fitness (genome "g" ∅ Absent)).
  destruct (calculate_fitness_idempotent
              (genome "g" ∅ Absent)
              (match fst run with Ok q => q | Raise _ => 0%Q end) (snd run))
    as (_ & _ & H).
  - vm_compute. reflexivity.
  - exact H.
Defined.

(** X19 at two generations of the engine for three scored genomes. *)
Lemma evolve_no_new_fitness_witness :
  Forall (fun c => exists a, a ∈ scored_population /\ fitness c = fitness a)
    (population
       (fst (snd (evolve 2
                    (engine_of (Some sum_of_integers) scored_population,
                     world0))))).
Proof.
  pose (run := evolve 2 (engine_of (Some sum_of_integers) scored_population,
                         world0)).
  destruct (evolve_no_new_fitness 2
              (engine_of (Some sum_of_integers) scored_population) world0
              (history (fst (snd run))) (fst (snd run)) (snd (snd run)))
    as (F & p & _ & Hev & H).
  - lia.
  - vm_compute. reflexivity.
  - simpl in Hev.
    repeat match goal with
           | H : Forall2 _ _ _ |- _ => inversion H; subst; clear H
           end.
    unfold evaluated in *. simpl in *. subst.
    eapply Forall_impl; [exact H|].
    intros c (a & Hin & _ & Hfit & _). exists a. split; assumption.
Defined.
